(** * Lazy key-ordered streams of erigon-lib/kv/iter (iter_exact.go)

    A shallow embedding of the pull-based stream combinators of
    [erigon-lib/kv/iter/iter_exact.go]: the transform wrapper
    [TransformKV2U64Iter], the shadowing union [UnionKVIter], the shape
    adapters [WrapKVSIter] and [WrapKVIter], and the non-deduplicating merge
    [MergedKV].

    Go interfaces ([KV], [KVS], [U64], [Closer]) become one type class over
    the state type of the implementing object; a method with a pointer
    receiver becomes a function from the state of the object to a result and
    the next state.  A composite stream stores the state of its children in
    its own record, as the Go struct stores the interface values.

    The last part of the development embeds the optimistic store of the
    consensus layer (package optimistic), a map from block roots to nodes
    with parent and children links, in the module [OptimisticStore]. *)

From Stdlib.Strings Require Import String Byte.
From Stdlib Require Import List ZArith Lia Bool Sorted Permutation.
From stdpp Require gmap.
Import ListNotations.
Open Scope Z_scope.

Set Implicit Arguments.

(** ** Bytes, errors, machine integers *)

(** Go's [[]byte]; the nil slice and the empty slice are both [[]]
    ([bytes.Compare] does not tell them apart). *)
Definition bytes := list byte.

Definition nil_bytes : bytes := [].

(** Go's [bytes.Compare]: -1, 0 or +1 by lexicographic order of the
    unsigned byte values. *)
Fixpoint bytes_Compare (a b : bytes) : Z :=
  match a, b with
  | [], [] => 0
  | [], _ :: _ => -1
  | _ :: _, [] => 1
  | c :: a', d :: b' =>
      match N.compare (Byte.to_N c) (Byte.to_N d) with
      | Lt => -1
      | Gt => 1
      | Eq => bytes_Compare a' b'
      end
  end.

(** Go's [error] interface values; the nil error is [None] of
    [option error]. *)
Inductive error : Type := Err (msg : string).

(** Go's [int] on the 64-bit platforms erigon builds for: arithmetic wraps
    around silently. *)
Definition min_int : Z := - 2 ^ 63.
Definition max_int : Z := 2 ^ 63 - 1.

Definition int_wrap (z : Z) : Z := (z + 2 ^ 63) mod 2 ^ 64 - 2 ^ 63.

(** Zero values of the element types, returned next to a latched error. *)
Class Zero (E : Type) := zero : E.

#[export] Instance Zero_bytes : Zero bytes := nil_bytes.
#[export] Instance Zero_uint64 : Zero Z := 0.
#[export] Instance Zero_pair {A B} `{Zero A} `{Zero B} : Zero (A * B) := (zero, zero).

(** ** The stream interface *)

(** The interfaces [Uno], [Duo] and [Trio] of the package, by element type
    [E], for an implementing type with state [St].  [HasNext] and [Next] may
    both change the state of the object.  [asCloser s] is the type
    assertion [v.(Closer)] followed by the call of [Close]: [Some s'] when
    the dynamic type of the value has a [Close] method, which leaves the
    object in state [s'], and [None] when it has none. *)
Class Stream (E St : Type) := {
  HasNext : St -> bool * St;
  Next : St -> (E * option error) * St;
  asCloser : St -> option St
}.

Abbreviation KV := (Stream (bytes * bytes)).
Abbreviation KVS := (Stream (bytes * bytes * Z)).
Abbreviation U64 := (Stream Z).

(** [if c, ok := v.(Closer); ok { c.Close() }] *)
Definition closeIfCloser {E St} `{Stream E St} (s : St) : St :=
  match asCloser s with
  | Some s' => s'
  | None => s
  end.

(** Modelled from the spec: the vacuous stream ([Empty2], [Empty3] of the
    package, declared outside iter_exact.go): [HasNext] is always false and
    [Next] is never validly called; it hands back zero values here. *)
Inductive Empty (E : Type) : Type := EmptyStream.

#[export] Instance Empty_Stream {E} `{Zero E} : Stream E (Empty E) := {
  HasNext s := (false, s);
  Next s := ((zero, None), s);
  asCloser _ := None
}.

Definition EmptyKV : Empty (bytes * bytes) := EmptyStream _.
Definition EmptyKVS : Empty (bytes * bytes * Z) := EmptyStream _.

(** Modelled from the spec: a base stream built from an in-memory
    collection (the array-backed streams of the package are not in
    iter_exact.go).  Each slot holds the element and the error that the pull
    of that slot returns. *)
Record Slice (E : Type) : Type := mkSlice { items : list (E * option error) }.

#[export] Instance Slice_Stream {E} `{Zero E} : Stream E (Slice E) := {
  HasNext s := (match items s with [] => false | _ :: _ => true end, s);
  Next s :=
    match items s with
    | [] => ((zero, None), s)
    | r :: rest => (r, mkSlice rest)
    end;
  asCloser _ := None
}.

Definition sliceOf {E} (l : list E) : Slice E :=
  mkSlice (map (fun a => (a, None)) l).

(** Modelled from the spec: a base stream that never ends (streams may be
    finite or infinite); every pull returns the same element. *)
Record Repeat (E : Type) : Type := mkRepeat { repeated : E }.

#[export] Instance Repeat_Stream {E} : Stream E (Repeat E) := {
  HasNext s := (true, s);
  Next s := ((repeated s, None), s);
  asCloser _ := None
}.

(** ** Observation of the calls a stream receives *)

Inductive Call : Type :=
  | CHasNext (r : bool)
  | CNext (e : option error)
  | CClose.

(** A stream together with the record of every call made on it.  It exposes
    [Close] exactly when the stream it observes does. *)
Record Logged (St : Type) : Type := mkLogged { inner : St; calls : list Call }.

#[export] Instance Logged_Stream {E St} `{Stream E St} : Stream E (Logged St) := {
  HasNext l :=
    let (b, s) := HasNext (inner l) in
    (b, mkLogged s (calls l ++ [CHasNext b]));
  Next l :=
    let '((a, e), s) := Next (inner l) in
    ((a, e), mkLogged s (calls l ++ [CNext e]));
  asCloser l :=
    match asCloser (inner l) with
    | Some s => Some (mkLogged s (calls l ++ [CClose]))
    | None => None
    end
}.

Definition observe {St} (s : St) : Logged St := mkLogged s [].

(** The errors that the pulls of a call record returned, oldest first. *)
Fixpoint errorsOf (cs : list Call) : list error :=
  match cs with
  | [] => []
  | CNext (Some e) :: cs' => e :: errorsOf cs'
  | _ :: cs' => errorsOf cs'
  end.

(** ** The consumer loop *)

(** Modelled from the spec: drain-to-collection ([ToArr2] and its siblings,
    outside iter_exact.go): pull while [HasNext] reports true, stop at the
    first error and return what was collected with it.  [fuel] bounds the
    number of turns of the loop; [None] is fuel exhausted. *)
Fixpoint drain {E St} `{Stream E St} (fuel : nat) (s : St)
  : option (list E * option error * St) :=
  match fuel with
  | O => None
  | S fuel' =>
      let (b, s1) := HasNext s in
      if b then
        let '((a, e), s2) := Next s1 in
        match e with
        | Some _ => Some ([], e, s2)
        | None =>
            match drain fuel' s2 with
            | Some (l, r, s3) => Some (a :: l, r, s3)
            | None => None
            end
        end
      else Some ([], None, s1)
  end.

(** [pulls n s]: the results of [n] consecutive [Next] calls, and the state
    they leave. *)
Fixpoint pulls {E St} `{Stream E St} (n : nat) (s : St)
  : list (E * option error) * St :=
  match n with
  | O => ([], s)
  | S n' =>
      let (r, s1) := Next s in
      let (rs, s2) := pulls n' s1 in
      (r :: rs, s2)
  end.

(** A stream state that yields exactly the elements of [l], without error,
    under the protocol of a lookahead consumer: [HasNext], then [Next] when
    it reported true, and no call after it reported false. *)
Inductive Produces {E St} `{Stream E St} : St -> list E -> Prop :=
  | Produces_done : forall s s',
      HasNext s = (false, s') -> Produces s []
  | Produces_more : forall s s1 s2 a l,
      HasNext s = (true, s1) ->
      Next s1 = ((a, None), s2) ->
      Produces s2 l ->
      Produces s (a :: l).

(** ** TransformKV2U64Iter *)

Module TransformKV2U64Iter.
Section Def.
Context {St : Type} `{KV St}.

Record t : Type := mk {
  it : St;
  transform : bytes -> bytes -> Z * option error
}.

Definition HasNext (m : t) : bool * t :=
  let (b, it') := HasNext (it m) in
  (b, mk it' (transform m)).

Definition Next (m : t) : (Z * option error) * t :=
  let '((k, v), err, it') := Next (it m) in
  match err with
  | Some _ => ((0, err), mk it' (transform m))
  | None => (transform m k v, mk it' (transform m))
  end.

Definition Close (m : t) : t :=
  mk (closeIfCloser (it m)) (transform m).

#[global] Instance TransformKV2U64Iter_Stream : U64 t := {
  HasNext := HasNext;
  Next := Next;
  asCloser m := Some (Close m)
}.
End Def.
Arguments t St : clear implicits.
End TransformKV2U64Iter.

Definition TransformKV2U64 {St} `{KV St} (it : St)
    (transform : bytes -> bytes -> Z * option error)
  : TransformKV2U64Iter.t St :=
  TransformKV2U64Iter.mk it transform.

(** ** UnionKVIter: merge of two pair streams, the first one shadowing the
    second on equal keys *)

Module UnionKVIter.
Section Def.
Context {SX SY : Type} `{KV SX} `{KV SY}.

Record t : Type := mk {
  x : SX;
  y : SY;
  xHasNext : bool;
  yHasNext : bool;
  xNextK : bytes;
  xNextV : bytes;
  yNextK : bytes;
  yNextV : bytes;
  limit : Z;
  err : option error
}.

Definition advanceX (m : t) : t :=
  match err m with
  | Some _ => m
  | None =>
      let (b, x1) := HasNext (x m) in
      if b then
        let '((k, v), e, x2) := Next x1 in
        mk x2 (y m) b (yHasNext m) k v (yNextK m) (yNextV m) (limit m) e
      else
        mk x1 (y m) b (yHasNext m) (xNextK m) (xNextV m) (yNextK m) (yNextV m)
           (limit m) (err m)
  end.

Definition advanceY (m : t) : t :=
  match err m with
  | Some _ => m
  | None =>
      let (b, y1) := HasNext (y m) in
      if b then
        let '((k, v), e, y2) := Next y1 in
        mk (x m) y2 (xHasNext m) b (xNextK m) (xNextV m) k v (limit m) e
      else
        mk (x m) y1 (xHasNext m) b (xNextK m) (xNextV m) (yNextK m) (yNextV m)
           (limit m) (err m)
  end.

Definition HasNext (m : t) : bool * t :=
  (match err m with Some _ => true | None => false end
   || (negb (limit m =? 0) && xHasNext m)
   || (negb (limit m =? 0) && yHasNext m), m).

(** [m.limit--] *)
Definition decLimit (m : t) : t :=
  mk (x m) (y m) (xHasNext m) (yHasNext m) (xNextK m) (xNextV m)
     (yNextK m) (yNextV m) (int_wrap (limit m - 1)) (err m).

Definition Next (m : t) : (bytes * bytes * option error) * t :=
  match err m with
  | Some _ => ((nil_bytes, nil_bytes, err m), m)
  | None =>
      let m := decLimit m in
      if xHasNext m && yHasNext m then
        let cmp := bytes_Compare (xNextK m) (yNextK m) in
        if cmp <? 0 then
          ((xNextK m, xNextV m, err m), advanceX m)
        else if cmp =? 0 then
          ((xNextK m, xNextV m, err m), advanceY (advanceX m))
        else
          ((yNextK m, yNextV m, err m), advanceY m)
      else if xHasNext m then
        ((xNextK m, xNextV m, err m), advanceX m)
      else
        ((yNextK m, yNextV m, err m), advanceY m)
  end.

Definition Close (m : t) : t :=
  mk (closeIfCloser (x m)) (closeIfCloser (y m)) (xHasNext m) (yHasNext m)
     (xNextK m) (xNextV m) (yNextK m) (yNextV m) (limit m) (err m).

#[global] Instance UnionKVIter_Stream : KV t := {
  HasNext := HasNext;
  Next := Next;
  asCloser m := Some (Close m)
}.

(** [&UnionKVIter{x: x, y: y, limit: limit}]: the other fields hold their
    zero values. *)
Definition new (x0 : SX) (y0 : SY) (limit0 : Z) : t :=
  mk x0 y0 false false nil_bytes nil_bytes nil_bytes nil_bytes limit0 None.

(** What the interface value returned by [UnionKV] holds. *)
Inductive Result : Type :=
  | RetEmpty (e : Empty (bytes * bytes))
  | RetY (y0 : SY)
  | RetX (x0 : SX)
  | RetIter (m : t).
End Def.
Arguments t : clear implicits.
Arguments Result : clear implicits.
End UnionKVIter.

(** [UnionKV(x, y, limit)]; a nil interface value is [None]. *)
Definition UnionKV {SX SY} `{KV SX} `{KV SY}
    (x : option SX) (y : option SY) (limit : Z) : UnionKVIter.Result SX SY :=
  match x, y with
  | None, None => UnionKVIter.RetEmpty EmptyKV
  | None, Some y0 => UnionKVIter.RetY y0
  | Some x0, None => UnionKVIter.RetX x0
  | Some x0, Some y0 =>
      let m := UnionKVIter.new x0 y0 limit in
      let m := UnionKVIter.advanceX m in
      let m := UnionKVIter.advanceY m in
      UnionKVIter.RetIter m
  end.

(** The returned interface value dispatches on what it holds. *)
#[export] Instance UnionKV_Stream {SX SY} `{KV SX} `{KV SY}
  : KV (UnionKVIter.Result SX SY) := {
  HasNext r :=
    match r with
    | UnionKVIter.RetEmpty e => let (b, e') := HasNext e in (b, UnionKVIter.RetEmpty e')
    | UnionKVIter.RetY y0 => let (b, y1) := HasNext y0 in (b, UnionKVIter.RetY y1)
    | UnionKVIter.RetX x0 => let (b, x1) := HasNext x0 in (b, UnionKVIter.RetX x1)
    | UnionKVIter.RetIter m => let (b, m') := HasNext m in (b, UnionKVIter.RetIter m')
    end;
  Next r :=
    match r with
    | UnionKVIter.RetEmpty e => let (a, e') := Next e in (a, UnionKVIter.RetEmpty e')
    | UnionKVIter.RetY y0 => let (a, y1) := Next y0 in (a, UnionKVIter.RetY y1)
    | UnionKVIter.RetX x0 => let (a, x1) := Next x0 in (a, UnionKVIter.RetX x1)
    | UnionKVIter.RetIter m => let (a, m') := Next m in (a, UnionKVIter.RetIter m')
    end;
  asCloser r :=
    match r with
    | UnionKVIter.RetEmpty e => option_map (@UnionKVIter.RetEmpty _ _) (asCloser e)
    | UnionKVIter.RetY y0 => option_map (@UnionKVIter.RetY _ _) (asCloser y0)
    | UnionKVIter.RetX x0 => option_map (@UnionKVIter.RetX _ _) (asCloser x0)
    | UnionKVIter.RetIter m => option_map (@UnionKVIter.RetIter _ _) (asCloser m)
    end
}.

(** ** WrapKVSIter: a pair stream lifted to triple shape *)

Module WrapKVSIter.
Section Def.
Context {SY : Type} `{KV SY}.

Record t : Type := mk {
  y : SY;
  yHasNext : bool;
  yNextK : bytes;
  yNextV : bytes;
  err : option error
}.

Definition advance (m : t) : t :=
  match err m with
  | Some _ => m
  | None =>
      let (b, y1) := HasNext (y m) in
      if b then
        let '((k, v), e, y2) := Next y1 in
        mk y2 b k v e
      else
        mk y1 b (yNextK m) (yNextV m) (err m)
  end.

Definition HasNext (m : t) : bool * t :=
  (match err m with Some _ => true | None => false end || yHasNext m, m).

Definition Next (m : t) : (bytes * bytes * Z * option error) * t :=
  match err m with
  | Some _ => ((nil_bytes, nil_bytes, 0, err m), m)
  | None => ((yNextK m, yNextV m, 0, err m), advance m)
  end.

Definition Close (m : t) : t :=
  mk (closeIfCloser (y m)) (yHasNext m) (yNextK m) (yNextV m) (err m).

#[global] Instance WrapKVSIter_Stream : KVS t := {
  HasNext := HasNext;
  Next := Next;
  asCloser m := Some (Close m)
}.

Definition new (y0 : SY) : t := mk y0 false nil_bytes nil_bytes None.

(** What the interface value returned by [WrapKVS] holds. *)
Inductive Result : Type :=
  | RetEmpty (e : Empty (bytes * bytes * Z))
  | RetIter (m : t).
End Def.
Arguments t : clear implicits.
Arguments Result : clear implicits.
End WrapKVSIter.

Definition WrapKVS {SY} `{KV SY} (y : option SY) : WrapKVSIter.Result SY :=
  match y with
  | None => WrapKVSIter.RetEmpty EmptyKVS
  | Some y0 =>
      let m := WrapKVSIter.new y0 in
      let m := WrapKVSIter.advance m in
      WrapKVSIter.RetIter m
  end.

#[export] Instance WrapKVS_Stream {SY} `{KV SY} : KVS (WrapKVSIter.Result SY) := {
  HasNext r :=
    match r with
    | WrapKVSIter.RetEmpty e => let (b, e') := HasNext e in (b, WrapKVSIter.RetEmpty e')
    | WrapKVSIter.RetIter m => let (b, m') := HasNext m in (b, WrapKVSIter.RetIter m')
    end;
  Next r :=
    match r with
    | WrapKVSIter.RetEmpty e => let (a, e') := Next e in (a, WrapKVSIter.RetEmpty e')
    | WrapKVSIter.RetIter m => let (a, m') := Next m in (a, WrapKVSIter.RetIter m')
    end;
  asCloser r :=
    match r with
    | WrapKVSIter.RetEmpty e => option_map (@WrapKVSIter.RetEmpty _) (asCloser e)
    | WrapKVSIter.RetIter m => option_map (@WrapKVSIter.RetIter _) (asCloser m)
    end
}.

(** ** WrapKVIter: a triple stream projected to pair shape *)

Module WrapKVIter.
Section Def.
Context {SX : Type} `{KVS SX}.

Record t : Type := mk {
  x : SX;
  xHasNext : bool;
  xNextK : bytes;
  xNextV : bytes;
  err : option error
}.

Definition advance (m : t) : t :=
  match err m with
  | Some _ => m
  | None =>
      let (b, x1) := HasNext (x m) in
      if b then
        let '((k, v, _), e, x2) := Next x1 in
        mk x2 b k v e
      else
        mk x1 b (xNextK m) (xNextV m) (err m)
  end.

Definition HasNext (m : t) : bool * t :=
  (match err m with Some _ => true | None => false end || xHasNext m, m).

Definition Next (m : t) : (bytes * bytes * option error) * t :=
  match err m with
  | Some _ => ((nil_bytes, nil_bytes, err m), m)
  | None => ((xNextK m, xNextV m, err m), advance m)
  end.

Definition Close (m : t) : t :=
  mk (closeIfCloser (x m)) (xHasNext m) (xNextK m) (xNextV m) (err m).

#[global] Instance WrapKVIter_Stream : KV t := {
  HasNext := HasNext;
  Next := Next;
  asCloser m := Some (Close m)
}.

Definition new (x0 : SX) : t := mk x0 false nil_bytes nil_bytes None.

(** What the interface value returned by [WrapKV] holds. *)
Inductive Result : Type :=
  | RetEmpty (e : Empty (bytes * bytes))
  | RetIter (m : t).
End Def.
Arguments t : clear implicits.
Arguments Result : clear implicits.
End WrapKVIter.

Definition WrapKV {SX} `{KVS SX} (x : option SX) : WrapKVIter.Result SX :=
  match x with
  | None => WrapKVIter.RetEmpty EmptyKV
  | Some x0 =>
      let m := WrapKVIter.new x0 in
      let m := WrapKVIter.advance m in
      WrapKVIter.RetIter m
  end.

#[export] Instance WrapKV_Stream {SX} `{KVS SX} : KV (WrapKVIter.Result SX) := {
  HasNext r :=
    match r with
    | WrapKVIter.RetEmpty e => let (b, e') := HasNext e in (b, WrapKVIter.RetEmpty e')
    | WrapKVIter.RetIter m => let (b, m') := HasNext m in (b, WrapKVIter.RetIter m')
    end;
  Next r :=
    match r with
    | WrapKVIter.RetEmpty e => let (a, e') := Next e in (a, WrapKVIter.RetEmpty e')
    | WrapKVIter.RetIter m => let (a, m') := Next m in (a, WrapKVIter.RetIter m')
    end;
  asCloser r :=
    match r with
    | WrapKVIter.RetEmpty e => option_map (@WrapKVIter.RetEmpty _) (asCloser e)
    | WrapKVIter.RetIter m => option_map (@WrapKVIter.RetIter _) (asCloser m)
    end
}.

(** ** MergedKV: merge of a triple stream and a pair stream that keeps the
    entries of both sides *)

Module MergedKV.
Section Def.
Context {SX SY : Type} `{KVS SX} `{KV SY}.

Record t : Type := mk {
  x : SX;
  y : SY;
  xHasNext : bool;
  yHasNext : bool;
  xNextK : bytes;
  xNextV : bytes;
  yNextK : bytes;
  yNextV : bytes;
  xStep : Z;
  limit : Z;
  err : option error
}.

Definition advanceX (m : t) : t :=
  match err m with
  | Some _ => m
  | None =>
      let (b, x1) := HasNext (x m) in
      if b then
        let '((k, v, step), e, x2) := Next x1 in
        mk x2 (y m) b (yHasNext m) k v (yNextK m) (yNextV m) step (limit m) e
      else
        mk x1 (y m) b (yHasNext m) (xNextK m) (xNextV m) (yNextK m) (yNextV m)
           (xStep m) (limit m) (err m)
  end.

Definition advanceY (m : t) : t :=
  match err m with
  | Some _ => m
  | None =>
      let (b, y1) := HasNext (y m) in
      if b then
        let '((k, v), e, y2) := Next y1 in
        mk (x m) y2 (xHasNext m) b (xNextK m) (xNextV m) k v (xStep m) (limit m) e
      else
        mk (x m) y1 (xHasNext m) b (xNextK m) (xNextV m) (yNextK m) (yNextV m)
           (xStep m) (limit m) (err m)
  end.

Definition HasNext (m : t) : bool * t :=
  (match err m with Some _ => true | None => false end
   || (negb (limit m =? 0) && xHasNext m)
   || (negb (limit m =? 0) && yHasNext m), m).

(** [m.limit--] *)
Definition decLimit (m : t) : t :=
  mk (x m) (y m) (xHasNext m) (yHasNext m) (xNextK m) (xNextV m)
     (yNextK m) (yNextV m) (xStep m) (int_wrap (limit m - 1)) (err m).

Definition Next (m : t) : (bytes * bytes * Z * option error) * t :=
  match err m with
  | Some _ => ((nil_bytes, nil_bytes, 0, err m), m)
  | None =>
      let m := decLimit m in
      if xHasNext m && yHasNext m then
        let cmp := bytes_Compare (xNextK m) (yNextK m) in
        if cmp <=? 0 then
          ((xNextK m, xNextV m, xStep m, err m), advanceX m)
        else
          ((yNextK m, yNextV m, 0, err m), advanceY m)
      else if xHasNext m then
        ((xNextK m, xNextV m, xStep m, err m), advanceX m)
      else
        ((yNextK m, yNextV m, 0, err m), advanceY m)
  end.

Definition Close (m : t) : t :=
  mk (closeIfCloser (x m)) (closeIfCloser (y m)) (xHasNext m) (yHasNext m)
     (xNextK m) (xNextV m) (yNextK m) (yNextV m) (xStep m) (limit m) (err m).

#[global] Instance MergedKV_Stream : KVS t := {
  HasNext := HasNext;
  Next := Next;
  asCloser m := Some (Close m)
}.

Definition new (x0 : SX) (y0 : SY) (limit0 : Z) : t :=
  mk x0 y0 false false nil_bytes nil_bytes nil_bytes nil_bytes 0 limit0 None.

(** What the interface value returned by [MergeKVS] holds. *)
Inductive Result : Type :=
  | RetEmpty (e : Empty (bytes * bytes * Z))
  | RetWrapped (w : WrapKVSIter.Result SY)
  | RetX (x0 : SX)
  | RetIter (m : t).
End Def.
Arguments t : clear implicits.
Arguments Result : clear implicits.
End MergedKV.

Definition MergeKVS {SX SY} `{KVS SX} `{KV SY}
    (x : option SX) (y : option SY) (limit : Z) : MergedKV.Result SX SY :=
  match x, y with
  | None, None => MergedKV.RetEmpty EmptyKVS
  | None, Some _ => MergedKV.RetWrapped (WrapKVS y)
  | Some x0, None => MergedKV.RetX x0
  | Some x0, Some y0 =>
      let m := MergedKV.new x0 y0 limit in
      let m := MergedKV.advanceX m in
      let m := MergedKV.advanceY m in
      MergedKV.RetIter m
  end.

#[export] Instance MergeKVS_Stream {SX SY} `{KVS SX} `{KV SY}
  : KVS (MergedKV.Result SX SY) := {
  HasNext r :=
    match r with
    | MergedKV.RetEmpty e => let (b, e') := HasNext e in (b, MergedKV.RetEmpty e')
    | MergedKV.RetWrapped w => let (b, w') := HasNext w in (b, MergedKV.RetWrapped w')
    | MergedKV.RetX x0 => let (b, x1) := HasNext x0 in (b, MergedKV.RetX x1)
    | MergedKV.RetIter m => let (b, m') := HasNext m in (b, MergedKV.RetIter m')
    end;
  Next r :=
    match r with
    | MergedKV.RetEmpty e => let (a, e') := Next e in (a, MergedKV.RetEmpty e')
    | MergedKV.RetWrapped w => let (a, w') := Next w in (a, MergedKV.RetWrapped w')
    | MergedKV.RetX x0 => let (a, x1) := Next x0 in (a, MergedKV.RetX x1)
    | MergedKV.RetIter m => let (a, m') := Next m in (a, MergedKV.RetIter m')
    end;
  asCloser r :=
    match r with
    | MergedKV.RetEmpty e => option_map (@MergedKV.RetEmpty _ _) (asCloser e)
    | MergedKV.RetWrapped w => option_map (@MergedKV.RetWrapped _ _) (asCloser w)
    | MergedKV.RetX x0 => option_map (@MergedKV.RetX _ _) (asCloser x0)
    | MergedKV.RetIter m => option_map (@MergedKV.RetIter _ _) (asCloser m)
    end
}.

(** ** Base streams that own a resource *)

(** Modelled from the spec: a base stream that owns a resource and exposes
    [Close] (storage cursors are supplied from outside this package); it
    counts the [Close] calls it receives. *)
Record Cursor (E : Type) : Type := mkCursor {
  remaining : list (E * option error);
  closed : nat
}.

#[export] Instance Cursor_Stream {E} `{Zero E} : Stream E (Cursor E) := {
  HasNext s := (match remaining s with [] => false | _ :: _ => true end, s);
  Next s :=
    match remaining s with
    | [] => ((zero, None), s)
    | r :: rest => (r, mkCursor rest (closed s))
    end;
  asCloser s := Some (mkCursor (remaining s) (S (closed s)))
}.

(** ** Sequences of calls *)

Inductive Op : Type := OpHasNext | OpNext.

Inductive Reply (E : Type) : Type :=
  | ReplyHasNext (b : bool)
  | ReplyNext (a : E) (e : option error).

Definition call {E St} `{Stream E St} (op : Op) (s : St) : Reply E * St :=
  match op with
  | OpHasNext => let (b, s') := HasNext s in (ReplyHasNext E b, s')
  | OpNext => let '((a, e), s') := Next s in (ReplyNext a e, s')
  end.

Fixpoint run {E St} `{Stream E St} (ops : list Op) (s : St) : list (Reply E) * St :=
  match ops with
  | [] => ([], s)
  | op :: ops' =>
      let (r, s1) := call op s in
      let (rs, s2) := run ops' s1 in
      (r :: rs, s2)
  end.

(** [Reaches s s']: some sequence of [HasNext] and [Next] calls takes the
    stream from state [s] to state [s']. *)
Inductive Reaches {E St} `{Stream E St} : St -> St -> Prop :=
  | Reaches_here : forall s, Reaches s s
  | Reaches_call : forall s s' op,
      Reaches s s' -> Reaches s (snd (call op s')).

(** What a stream with the latched error [e] answers. *)
Definition latchedReply {E} `{Zero E} (e : error) (op : Op) : Reply E :=
  match op with
  | OpHasNext => ReplyHasNext E true
  | OpNext => ReplyNext zero (Some e)
  end.

(** The calls a lookahead makes on a child in state [s]: one [HasNext] and,
    when it reported true, one [Next]. *)
Definition lookaheadCalls {E St} `{Stream E St} (s : St) : list Call :=
  let (b, s1) := HasNext s in
  if b then [CHasNext true; CNext (snd (fst (Next s1)))] else [CHasNext false].

(** The call records of the children of what a constructor returned. *)
Definition UnionKV_calls {SX SY}
    (r : UnionKVIter.Result (Logged SX) (Logged SY)) : list Call * list Call :=
  match r with
  | UnionKVIter.RetEmpty _ => ([], [])
  | UnionKVIter.RetY y0 => ([], calls y0)
  | UnionKVIter.RetX x0 => (calls x0, [])
  | UnionKVIter.RetIter m => (calls (UnionKVIter.x m), calls (UnionKVIter.y m))
  end.

Definition WrapKVS_calls {SY} (r : WrapKVSIter.Result (Logged SY)) : list Call :=
  match r with
  | WrapKVSIter.RetEmpty _ => []
  | WrapKVSIter.RetIter m => calls (WrapKVSIter.y m)
  end.

Definition WrapKV_calls {SX} (r : WrapKVIter.Result (Logged SX)) : list Call :=
  match r with
  | WrapKVIter.RetEmpty _ => []
  | WrapKVIter.RetIter m => calls (WrapKVIter.x m)
  end.

Definition MergeKVS_calls {SX SY}
    (r : MergedKV.Result (Logged SX) (Logged SY)) : list Call * list Call :=
  match r with
  | MergedKV.RetEmpty _ => ([], [])
  | MergedKV.RetWrapped w => ([], WrapKVS_calls w)
  | MergedKV.RetX x0 => (calls x0, [])
  | MergedKV.RetIter m => (calls (MergedKV.x m), calls (MergedKV.y m))
  end.

(** ** Keys, their order, and the sequences the merges emit *)

Definition bytes_lt (a b : bytes) : Prop := bytes_Compare a b < 0.
Definition bytes_le (a b : bytes) : Prop := bytes_Compare a b <= 0.

Definition bytes_eq_dec (a b : bytes) : {a = b} + {a <> b} :=
  list_eq_dec byte_eq_dec a b.

(** Keys strictly ascending: sorted, no key twice. *)
Definition ascending (ks : list bytes) : Prop := StronglySorted bytes_lt ks.

(** Keys ascending with repetitions allowed. *)
Definition nondecreasing (ks : list bytes) : Prop := StronglySorted bytes_le ks.

Definition keys2 (l : list (bytes * bytes)) : list bytes := map fst l.
Definition keys3 (l : list (bytes * bytes * Z)) : list bytes :=
  map (fun p => fst (fst p)) l.

Definition hasKey2 (k : bytes) (p : bytes * bytes) : bool :=
  bytes_Compare (fst p) k =? 0.

(** The number of distinct keys of a list of keys. *)
Definition distinctKeys (ks : list bytes) : nat :=
  length (nodup bytes_eq_dec ks).

(** A pair in triple shape, with the zero step. *)
Definition lift (p : bytes * bytes) : bytes * bytes * Z := (fst p, snd p, 0).

(** What a counter that starts at [limit], is tested against zero before
    every element and decremented (as a Go [int]) after it, lets through. *)
Fixpoint takeLimit {A} (limit : Z) (l : list A) : list A :=
  match l with
  | [] => []
  | a :: l' =>
      if limit =? 0 then [] else a :: takeLimit (int_wrap (limit - 1)) l'
  end.

(** The limit never reaches zero within [n] emissions.  Any negative [int]
    is such a limit for every [n <= 2^63], and so is a positive limit that
    is at least [n]. *)
Definition unconstrained (limit : Z) (n : nat) : Prop :=
  Z.of_nat n <= limit mod 2 ^ 64.

(** The sequence of pairs that [UnionKVIter.Next] emits from the buffered
    and remaining elements [lx] of x and [ly] of y. *)
Fixpoint unionList (lx : list (bytes * bytes)) : list (bytes * bytes) -> list (bytes * bytes) :=
  fix inner (ly : list (bytes * bytes)) : list (bytes * bytes) :=
    match lx, ly with
    | [], _ => ly
    | _, [] => lx
    | px :: lx', py :: ly' =>
        let cmp := bytes_Compare (fst px) (fst py) in
        if cmp <? 0 then px :: unionList lx' ly
        else if cmp =? 0 then px :: unionList lx' ly'
        else py :: inner ly'
    end.

(** The sequence of triples that [MergedKV.Next] emits. *)
Fixpoint mergeList (lx : list (bytes * bytes * Z)) : list (bytes * bytes) -> list (bytes * bytes * Z) :=
  fix inner (ly : list (bytes * bytes)) : list (bytes * bytes * Z) :=
    match lx, ly with
    | [], _ => map lift ly
    | _, [] => lx
    | px :: lx', py :: ly' =>
        let cmp := bytes_Compare (fst (fst px)) (fst py) in
        if cmp <=? 0 then px :: mergeList lx' ly
        else lift py :: inner ly'
    end.

(** A lookahead slot ([has], [k], [v] and the child) that holds the head of
    [l] while the child still yields the tail. *)
Definition holds2 {St} `{KV St} (has : bool) (k v : bytes) (child : St)
    (l : list (bytes * bytes)) : Prop :=
  match l with
  | [] => has = false
  | p :: l' => has = true /\ (k, v) = p /\ Produces child l'
  end.

Definition holds3 {St} `{KVS St} (has : bool) (k v : bytes) (step : Z) (child : St)
    (l : list (bytes * bytes * Z)) : Prop :=
  match l with
  | [] => has = false
  | p :: l' => has = true /\ (k, v, step) = p /\ Produces child l'
  end.

(** The state of a [UnionKVIter] without latched error whose two lookahead
    slots hold [lx] and [ly]. *)
Definition UnionRep {SX SY} `{KV SX} `{KV SY} (m : UnionKVIter.t SX SY)
    (lx ly : list (bytes * bytes)) : Prop :=
  UnionKVIter.err m = None
  /\ holds2 (UnionKVIter.xHasNext m) (UnionKVIter.xNextK m) (UnionKVIter.xNextV m)
       (UnionKVIter.x m) lx
  /\ holds2 (UnionKVIter.yHasNext m) (UnionKVIter.yNextK m) (UnionKVIter.yNextV m)
       (UnionKVIter.y m) ly.

Definition MergedRep {SX SY} `{KVS SX} `{KV SY} (m : MergedKV.t SX SY)
    (lx : list (bytes * bytes * Z)) (ly : list (bytes * bytes)) : Prop :=
  MergedKV.err m = None
  /\ holds3 (MergedKV.xHasNext m) (MergedKV.xNextK m) (MergedKV.xNextV m)
       (MergedKV.xStep m) (MergedKV.x m) lx
  /\ holds2 (MergedKV.yHasNext m) (MergedKV.yNextK m) (MergedKV.yNextV m)
       (MergedKV.y m) ly.

(** ** Sample streams

    The scenario of the specification: x = [(a,1), (b,2), (d,4)] with steps
    10, 20 and 40, and y = [(b,20), (c,30)]. *)
Definition sampleX : list (bytes * bytes) :=
  [(["a"%byte], ["1"%byte]); (["b"%byte], ["2"%byte]); (["d"%byte], ["4"%byte])].

Definition sampleXS : list (bytes * bytes * Z) :=
  [(["a"%byte], ["1"%byte], 10); (["b"%byte], ["2"%byte], 20);
   (["d"%byte], ["4"%byte], 40)].

Definition sampleY : list (bytes * bytes) :=
  [(["b"%byte], ["2"%byte; "0"%byte]); (["c"%byte], ["3"%byte; "0"%byte])].

(** A stream that carries the key a twice, and a one-element stream. *)
Definition sampleRepeated : list (bytes * bytes) :=
  [(["a"%byte], ["1"%byte]); (["a"%byte], ["2"%byte])].

Definition sampleSingle : list (bytes * bytes) :=
  [(["b"%byte], ["3"%byte])].

(** A slice whose second pull fails. *)
Definition sampleFailing : Slice (bytes * bytes) :=
  mkSlice [((["a"%byte], ["1"%byte]), None);
           ((nil_bytes, nil_bytes), Some (Err "read failed"%string));
           ((["d"%byte], ["4"%byte]), None)].

Definition sampleFailingS : Slice (bytes * bytes * Z) :=
  mkSlice [((["a"%byte], ["1"%byte], 10), None);
           ((nil_bytes, nil_bytes, 0), Some (Err "read failed"%string));
           ((["d"%byte], ["4"%byte], 40), None)].

(** A mapping that fails on the key a and returns the length of the value
    otherwise. *)
Definition sampleTransform (k v : bytes) : Z * option error :=
  if bytes_Compare k ["a"%byte] =? 0 then (0, Some (Err "bad key"%string))
  else (Z.of_nat (length v), None).

(** ** Latched errors *)

Definition latchOf (err : option error) : list error :=
  match err with
  | Some e => [e]
  | None => []
  end.

(** The errors that the children of a composite have returned so far are
    the latched one and no other. *)
Definition UnionLatch {SX SY} (m : UnionKVIter.t (Logged SX) (Logged SY)) : Prop :=
  errorsOf (calls (UnionKVIter.x m)) ++ errorsOf (calls (UnionKVIter.y m))
  = latchOf (UnionKVIter.err m).

Definition MergedLatch {SX SY} (m : MergedKV.t (Logged SX) (Logged SY)) : Prop :=
  errorsOf (calls (MergedKV.x m)) ++ errorsOf (calls (MergedKV.y m))
  = latchOf (MergedKV.err m).

Definition WrapKVSLatch {SY} (m : WrapKVSIter.t (Logged SY)) : Prop :=
  errorsOf (calls (WrapKVSIter.y m)) = latchOf (WrapKVSIter.err m).

Definition WrapKVLatch {SX} (m : WrapKVIter.t (Logged SX)) : Prop :=
  errorsOf (calls (WrapKVIter.x m)) = latchOf (WrapKVIter.err m).

(** Whether a call record holds a failed pull. *)
Definition failed (cs : list Call) : bool :=
  match errorsOf cs with
  | [] => false
  | _ :: _ => true
  end.

(** ** Compositions of streams *)

Inductive Shape : Type := PairShape | TripleShape | ScalarShape.

Definition Elem (sh : Shape) : Type :=
  match sh with
  | PairShape => (bytes * bytes)%type
  | TripleShape => (bytes * bytes * Z)%type
  | ScalarShape => Z
  end.

(** How a stream was put together: from a base stream of any implementing
    type, or by one of the constructors of iter_exact.go over streams that
    were put together before. *)
Inductive Composition : Shape -> Type :=
  | Base (sh : Shape) (St : Type) (HS : Stream (Elem sh) St) : Composition sh
  | ByUnionKV (a b : Composition PairShape) : Composition PairShape
  | ByMergeKVS (a : Composition TripleShape) (b : Composition PairShape)
      : Composition TripleShape
  | ByWrapKVS (a : Composition PairShape) : Composition TripleShape
  | ByWrapKV (a : Composition TripleShape) : Composition PairShape
  | ByTransformKV2U64 (a : Composition PairShape) : Composition ScalarShape.

(** The values such a composition can be; base streams are observed. *)
Fixpoint StateOf {sh} (c : Composition sh) : Type :=
  match c with
  | @Base _ St _ => Logged St
  | ByUnionKV a b => UnionKVIter.Result (StateOf a) (StateOf b)
  | ByMergeKVS a b => MergedKV.Result (StateOf a) (StateOf b)
  | ByWrapKVS a => WrapKVSIter.Result (StateOf a)
  | ByWrapKV a => WrapKVIter.Result (StateOf a)
  | ByTransformKV2U64 a => TransformKV2U64Iter.t (StateOf a)
  end.

Fixpoint StreamOf {sh} (c : Composition sh) : Stream (Elem sh) (StateOf c) :=
  match c as c0 in Composition sh0 return Stream (Elem sh0) (StateOf c0) with
  | @Base sh0 St HS => @Logged_Stream (Elem sh0) St HS
  | ByUnionKV a b => @UnionKV_Stream _ _ (StreamOf a) (StreamOf b)
  | ByMergeKVS a b => @MergeKVS_Stream _ _ (StreamOf a) (StreamOf b)
  | ByWrapKVS a => @WrapKVS_Stream _ (StreamOf a)
  | ByWrapKV a => @WrapKV_Stream _ (StreamOf a)
  | ByTransformKV2U64 a => @TransformKV2U64Iter.TransformKV2U64Iter_Stream _ (StreamOf a)
  end.

(** The base streams under a value, left to right: the calls each one has
    received, and whether it exposes [Close]. *)
Fixpoint bases {sh} (c : Composition sh) : StateOf c -> list (list Call * bool) :=
  match c as c0 in Composition sh0 return StateOf c0 -> list (list Call * bool) with
  | @Base sh0 St HS =>
      fun s => [(calls s, match asCloser (inner s) with Some _ => true | None => false end)]
  | ByUnionKV a b =>
      fun r =>
        match r with
        | UnionKVIter.RetEmpty _ => []
        | UnionKVIter.RetY y0 => bases b y0
        | UnionKVIter.RetX x0 => bases a x0
        | UnionKVIter.RetIter m =>
            bases a (UnionKVIter.x m) ++ bases b (UnionKVIter.y m)
        end
  | ByMergeKVS a b =>
      fun r =>
        match r with
        | MergedKV.RetEmpty _ => []
        | MergedKV.RetWrapped (WrapKVSIter.RetEmpty _) => []
        | MergedKV.RetWrapped (WrapKVSIter.RetIter m) => bases b (WrapKVSIter.y m)
        | MergedKV.RetX x0 => bases a x0
        | MergedKV.RetIter m =>
            bases a (MergedKV.x m) ++ bases b (MergedKV.y m)
        end
  | ByWrapKVS a =>
      fun r =>
        match r with
        | WrapKVSIter.RetEmpty _ => []
        | WrapKVSIter.RetIter m => bases a (WrapKVSIter.y m)
        end
  | ByWrapKV a =>
      fun r =>
        match r with
        | WrapKVIter.RetEmpty _ => []
        | WrapKVIter.RetIter m => bases a (WrapKVIter.x m)
        end
  | ByTransformKV2U64 a =>
      fun m => bases a (TransformKV2U64Iter.it m)
  end.

(** The call record of a base stream after one [Close], when it exposes
    one. *)
Definition closedOnce (b : list Call * bool) : list Call :=
  if snd b then fst b ++ [CClose] else fst b.

(** Three cursors under a composite of depth three:
    UnionKV(WrapKV(MergeKVS(a, b)), c). *)
Definition sampleCursor (l : list (bytes * bytes)) : Cursor (bytes * bytes) :=
  mkCursor (map (fun a => (a, None)) l) 0.

Definition sampleCursorS (l : list (bytes * bytes * Z)) : Cursor (bytes * bytes * Z) :=
  mkCursor (map (fun a => (a, None)) l) 0.

Definition sampleDeep :=
  UnionKV
    (Some (WrapKV (Some (MergeKVS (Some (sampleCursorS sampleXS))
                           (Some (sampleCursor sampleY)) (-1)))))
    (Some (sampleCursor sampleSingle)) (-1).

(** ** Many pulls *)

(** The state after [n] calls of [Next], for [n] too large to count in
    unary. *)
Definition afterPulls {E St} `{Stream E St} (n : N) (s : St) : St :=
  N.iter n (fun s0 => snd (Next s0)) s.

(** Two endless streams that hold the same key. *)
Definition sampleEndless : Repeat (bytes * bytes) :=
  mkRepeat (["a"%byte], ["1"%byte]).

(** The union of two endless streams with both lookahead slots filled. *)
Definition endlessUnion (limit : Z)
  : UnionKVIter.t (Repeat (bytes * bytes)) (Repeat (bytes * bytes)) :=
  UnionKVIter.mk sampleEndless sampleEndless true true
    ["a"%byte] ["1"%byte] ["a"%byte] ["1"%byte] limit None.

(** Whether an error is latched. *)
Definition pending (err : option error) : bool :=
  match err with
  | Some _ => true
  | None => false
  end.


(** ** Further notions for the properties of the adapters and merges *)

(** A triple in pair shape: the step is dropped. *)
Definition project (p : bytes * bytes * Z) : bytes * bytes := (fst (fst p), snd (fst p)).

(** A lookahead slot of [WrapKVIter] that holds the head of [l], without its
    step, while the child still yields the tail. *)
Definition holdsProjected {St} `{KVS St} (has : bool) (k v : bytes) (child : St)
    (l : list (bytes * bytes * Z)) : Prop :=
  match l with
  | [] => has = false
  | p :: l' => has = true /\ (k, v) = project p /\ Produces child l'
  end.

(** A stream state that yields the elements of [l] and then fails: the pull
    after the last element of [l] returns the error [e]. *)
Inductive Fails {E St} `{Stream E St} : St -> list E -> error -> Prop :=
  | Fails_now : forall s s1 s2 a e,
      HasNext s = (true, s1) ->
      Next s1 = ((a, Some e), s2) ->
      Fails s [] e
  | Fails_later : forall s s1 s2 a l e,
      HasNext s = (true, s1) ->
      Next s1 = ((a, None), s2) ->
      Fails s2 l e ->
      Fails s (a :: l) e.

(** The values of the mapping over [l] up to the first element it fails on,
    and the error of that element. *)
Fixpoint mapUntilFailure (transform : bytes -> bytes -> Z * option error)
    (l : list (bytes * bytes)) : list Z * option error :=
  match l with
  | [] => ([], None)
  | p :: l' =>
      match transform (fst p) (snd p) with
      | (_, Some e) => ([], Some e)
      | (u, None) =>
          let (us, r) := mapUntilFailure transform l' in (u :: us, r)
      end
  end.

(** A call record made of pulls only: [HasNext] reporting true, then
    [Next], any number of times. *)
Fixpoint pullsOnly (cs : list Call) : bool :=
  match cs with
  | [] => true
  | CHasNext true :: CNext _ :: cs' => pullsOnly cs'
  | _ => false
  end.

(** A call record that follows the protocol of the stream interface: pulls,
    and at most one [HasNext] reporting false, with no call after it. *)
Fixpoint followsProtocol (cs : list Call) : bool :=
  match cs with
  | [] => true
  | [CHasNext false] => true
  | CHasNext true :: CNext _ :: cs' => followsProtocol cs'
  | _ => false
  end.

(** The state of a [UnionKVIter] whose x fails with [e] after the pairs
    [lx] (the first of them in the lookahead slot) while y holds [ly]; once
    [lx] is used up the error is latched. *)
Definition UnionRepFailsX {SX SY} `{KV SX} `{KV SY} (m : UnionKVIter.t SX SY)
    (lx ly : list (bytes * bytes)) (e : error) : Prop :=
  match lx with
  | [] => UnionKVIter.err m = Some e
  | px :: lx' =>
      UnionKVIter.err m = None
      /\ UnionKVIter.xHasNext m = true
      /\ (UnionKVIter.xNextK m, UnionKVIter.xNextV m) = px
      /\ Fails (UnionKVIter.x m) lx' e
      /\ holds2 (UnionKVIter.yHasNext m) (UnionKVIter.yNextK m) (UnionKVIter.yNextV m)
           (UnionKVIter.y m) ly
  end.

(** A lookahead slot and the calls its child has received: while the slot
    is filled the child has only been pulled, and in any case the calls
    follow the protocol. *)
Definition slotCalls (has : bool) (cs : list Call) : Prop :=
  if has then pullsOnly cs = true else followsProtocol cs = true.

Definition UnionProtocol {SX SY} (m : UnionKVIter.t (Logged SX) (Logged SY)) : Prop :=
  slotCalls (UnionKVIter.xHasNext m) (calls (UnionKVIter.x m))
  /\ slotCalls (UnionKVIter.yHasNext m) (calls (UnionKVIter.y m)).

Definition MergedProtocol {SX SY} (m : MergedKV.t (Logged SX) (Logged SY)) : Prop :=
  slotCalls (MergedKV.xHasNext m) (calls (MergedKV.x m))
  /\ slotCalls (MergedKV.yHasNext m) (calls (MergedKV.y m)).

(** * The optimistic store of the consensus layer (package optimistic)

    [optimisticStoreImpl] keeps the blocks that were imported before the
    execution layer validated them.  Every method but [IsOptimistic] runs
    under the write lock of the store from its first access of the map to
    its return; the model takes these bodies as atomic steps on the map
    [optimisticRoots], which is all that is left of the struct.  The map
    holds pointers to nodes; each node is created in
    [AddOptimisticCandidate] and stored under one key only, so the map is
    modelled as a finite map to node values. *)

Module OptimisticStore.
Import stdpp.base stdpp.gmap.

(** Go's [common.Hash], a 32-byte array, read as a number (below 2^256; no
    property below depends on the bound); the zero value [common.Hash{}]
    is 0. *)
Abbreviation Hash := N (only parsing).

Definition zeroHash : Hash := 0%N.

Record opNode : Type := mkOpNode {
  parent : Hash;
  children : list Hash
}.

(** What the store reads of a [cltypes.BeaconBlock]: the result of its
    method [HashSSZ] (a root and an error) and the fields [ParentRoot] and
    [StateRoot]. *)
Record BeaconBlock : Type := mkBeaconBlock {
  HashSSZ : Hash * option error;
  ParentRoot : Hash;
  StateRoot : Hash
}.

Abbreviation optimisticStoreImpl := (gmap N opNode) (only parsing).

Definition NewOptimisticStore : optimisticStoreImpl := ∅.

(** The returned error and the store after the call. *)
Definition AddOptimisticCandidate (impl : optimisticStoreImpl) (block : BeaconBlock)
  : option error * optimisticStoreImpl :=
  let (root, err) := HashSSZ block in
  match err with
  | Some e => (Some e, impl)
  | None =>
      let parentRoot := ParentRoot block in
      match impl !! root with
      | Some _ => (None, impl)
      | None =>
          let blockNode := mkOpNode parentRoot [] in
          let impl := <[root := blockNode]> impl in
          match impl !! parentRoot with
          | Some p =>
              (None, <[parentRoot := mkOpNode (parent p) (children p ++ [root])]> impl)
          | None => (None, impl)
          end
      end
  end.

(** The loop of [ValidateBlock]; [None] when [fuel] iterations did not
    reach the [break]. *)
Fixpoint validateLoop (fuel : nat) (impl : optimisticStoreImpl) (curRoot : Hash)
  : option optimisticStoreImpl :=
  match fuel with
  | O => None
  | S fuel =>
      match impl !! curRoot with
      | Some node => validateLoop fuel (delete curRoot impl) (parent node)
      | None => Some impl
      end
  end.

(** The store after the call; the returned error is always nil. *)
Definition ValidateBlock (fuel : nat) (impl : optimisticStoreImpl) (block : BeaconBlock)
  : option optimisticStoreImpl :=
  validateLoop fuel impl (StateRoot block).

(** The loop of [InvalidateBlock] over the queue [toRemoves]; [None] when
    the queue is not empty after [fuel] iterations. *)
Fixpoint invalidateLoop (fuel : nat) (impl : optimisticStoreImpl) (toRemoves : list Hash)
  : option optimisticStoreImpl :=
  match toRemoves with
  | [] => Some impl
  | curRoot :: toRemoves =>
      match fuel with
      | O => None
      | S fuel =>
          match impl !! curRoot with
          | Some node =>
              invalidateLoop fuel (delete curRoot impl) (toRemoves ++ children node)
          | None => invalidateLoop fuel impl toRemoves
          end
      end
  end.

(** The store after the call; the returned error is always nil. *)
Definition InvalidateBlock (fuel : nat) (impl : optimisticStoreImpl) (block : BeaconBlock)
  : option optimisticStoreImpl :=
  invalidateLoop fuel impl [StateRoot block].

Definition IsOptimistic (impl : optimisticStoreImpl) (root : Hash) : bool :=
  if (root =? zeroHash)%N then false
  else match impl !! root with
       | Some _ => true
       | None => false
       end.

(** The blocks [ValidateBlock] walks over: the block filed under [root],
    and the parent of each block it walks over while that parent is in the
    store. *)
Inductive Ancestor (impl : optimisticStoreImpl) (root : Hash) : Hash -> Prop :=
  | Ancestor_self node : impl !! root = Some node -> Ancestor impl root root
  | Ancestor_parent h node pnode :
      Ancestor impl root h -> impl !! h = Some node ->
      impl !! parent node = Some pnode ->
      Ancestor impl root (parent node).

(** The blocks [InvalidateBlock] reaches: the block filed under [root], and
    every block of the store that a reached block lists as a child. *)
Inductive Descendant (impl : optimisticStoreImpl) (root : Hash) : Hash -> Prop :=
  | Descendant_self node : impl !! root = Some node -> Descendant impl root root
  | Descendant_child h node c cnode :
      Descendant impl root h -> impl !! h = Some node ->
      c ∈ children node -> impl !! c = Some cnode ->
      Descendant impl root c.

(** The iterations [invalidateLoop] has left at most: one for each queued
    root and one for each child listed in the store. *)
Definition pendingWork (impl : optimisticStoreImpl) (toRemoves : list Hash) : nat :=
  (length toRemoves
   + sum_list_with (fun kn => length (children (snd kn))) (map_to_list impl))%nat.

(** What the two loops keep while they run on a store that started as
    [impl0]: entries are only removed, never changed. *)
Definition partOf (m impl0 : gmap N opNode) : Prop :=
  forall h node, m !! h = Some node -> impl0 !! h = Some node.

(** A store with a block b under 2 and its children c under 3 and d under 4;
    c was imported before b. *)
Definition sampleBlock (root parentRoot : N) : BeaconBlock :=
  mkBeaconBlock (root, None) parentRoot root.

Definition sampleStore : optimisticStoreImpl :=
  snd (AddOptimisticCandidate
    (snd (AddOptimisticCandidate
      (snd (AddOptimisticCandidate NewOptimisticStore (sampleBlock 3 2)))
      (sampleBlock 2 1)))
    (sampleBlock 4 2)).

End OptimisticStore.

(** * Properties *)

(** ** The order of keys *)

Lemma to_N_inj (c d : byte) : Byte.to_N c = Byte.to_N d -> c = d.
Proof.
  intros E. pose proof (Byte.of_to_N c) as Hc. rewrite E, Byte.of_to_N in Hc.
  congruence.
Qed.

Lemma bytes_Compare_range (a b : bytes) :
  bytes_Compare a b = -1 \/ bytes_Compare a b = 0 \/ bytes_Compare a b = 1.
Proof.
  revert b. induction a as [|c a IH]; intros [|d b]; simpl; auto.
  destruct (Byte.to_N c ?= Byte.to_N d)%N; auto.
Qed.

Lemma bytes_Compare_refl (a : bytes) : bytes_Compare a a = 0.
Proof.
  induction a as [|c a IH]; simpl; auto. now rewrite N.compare_refl.
Qed.

Lemma bytes_Compare_eq (a b : bytes) : bytes_Compare a b = 0 <-> a = b.
Proof.
  split; [|intros ->; apply bytes_Compare_refl].
  revert b. induction a as [|c a IH]; intros [|d b]; simpl; try lia; auto.
  destruct (N.compare_spec (Byte.to_N c) (Byte.to_N d)) as [E|E|E]; try lia.
  intros Hab. apply to_N_inj in E. f_equal; auto.
Qed.

Lemma bytes_Compare_antisym (a b : bytes) : bytes_Compare b a = - bytes_Compare a b.
Proof.
  revert b. induction a as [|c a IH]; intros [|d b]; simpl; auto.
  rewrite (N.compare_antisym (Byte.to_N c) (Byte.to_N d)).
  destruct (Byte.to_N c ?= Byte.to_N d)%N; simpl; auto.
Qed.

Lemma bytes_Compare_trans (a b c : bytes) :
  bytes_Compare a b <= 0 -> bytes_Compare b c <= 0 ->
  bytes_Compare a c <= 0
  /\ (bytes_Compare a b < 0 \/ bytes_Compare b c < 0 -> bytes_Compare a c < 0).
Proof.
  revert b c. induction a as [|x a IH]; intros [|y b] [|z c]; simpl; try lia.
  destruct (N.compare_spec (Byte.to_N x) (Byte.to_N y)) as [E1|E1|E1];
    destruct (N.compare_spec (Byte.to_N y) (Byte.to_N z)) as [E2|E2|E2];
    destruct (N.compare_spec (Byte.to_N x) (Byte.to_N z)) as [E3|E3|E3];
    try lia; intros; auto.
Qed.

Lemma bytes_lt_trans (a b c : bytes) : bytes_lt a b -> bytes_lt b c -> bytes_lt a c.
Proof.
  unfold bytes_lt. intros. apply (bytes_Compare_trans a b c); lia.
Qed.

Lemma bytes_le_trans (a b c : bytes) : bytes_le a b -> bytes_le b c -> bytes_le a c.
Proof.
  unfold bytes_le. intros. apply (bytes_Compare_trans a b c); lia.
Qed.


Lemma bytes_lt_le (a b : bytes) : bytes_lt a b -> bytes_le a b.
Proof. unfold bytes_lt, bytes_le. lia. Qed.

Lemma bytes_lt_irrefl (a : bytes) : ~ bytes_lt a a.
Proof. unfold bytes_lt. rewrite bytes_Compare_refl. lia. Qed.

Lemma bytes_gt_lt (a b : bytes) : 0 < bytes_Compare a b -> bytes_lt b a.
Proof. unfold bytes_lt. rewrite (bytes_Compare_antisym a b). lia. Qed.

Lemma ascending_nondecreasing (ks : list bytes) : ascending ks -> nondecreasing ks.
Proof.
  induction 1 as [|k ks Hs IH Hall]; constructor; auto.
  eapply Forall_impl; [|exact Hall]. intros; now apply bytes_lt_le.
Qed.

Lemma ascending_NoDup (ks : list bytes) : ascending ks -> NoDup ks.
Proof.
  induction 1 as [|k ks Hs IH Hall]; constructor; auto.
  intros Hin. rewrite Forall_forall in Hall. exact (bytes_lt_irrefl (Hall _ Hin)).
Qed.

(** ** The limit counter *)

Lemma int_wrap_mod (z : Z) : int_wrap z mod 2 ^ 64 = z mod 2 ^ 64.
Proof.
  unfold int_wrap. rewrite Zminus_mod_idemp_l. f_equal. lia.
Qed.

Lemma int_wrap_id (z : Z) : min_int <= z <= max_int -> int_wrap z = z.
Proof.
  unfold int_wrap, min_int, max_int. intros Hz.
  rewrite Z.mod_small; lia.
Qed.

Lemma int_wrap_range (z : Z) : min_int <= int_wrap z <= max_int.
Proof.
  unfold int_wrap, min_int, max_int.
  pose proof (Z.mod_pos_bound (z + 2 ^ 63) (2 ^ 64) ltac:(lia)). lia.
Qed.

Lemma mod_pred (z : Z) : 1 <= z mod 2 ^ 64 -> (z - 1) mod 2 ^ 64 = z mod 2 ^ 64 - 1.
Proof.
  intros Hz. pose proof (Z.mod_pos_bound z (2 ^ 64) ltac:(lia)) as Hb.
  symmetry. apply (Z.mod_unique_pos _ _ (z / 2 ^ 64)); [lia|].
  pose proof (Z.div_mod z (2 ^ 64) ltac:(lia)). lia.
Qed.

Lemma takeLimit_zero {A} (l : list A) : takeLimit 0 l = [].
Proof. destruct l; reflexivity. Qed.

Lemma takeLimit_all {A} (l : list A) (limit : Z) :
  unconstrained limit (length l) -> takeLimit limit l = l.
Proof.
  unfold unconstrained. revert limit.
  induction l as [|a l IH]; intros limit Hl; simpl in *; auto.
  destruct (Z.eqb_spec limit 0) as [->|Hne].
  - rewrite Z.mod_0_l in Hl; lia.
  - f_equal. apply IH. rewrite int_wrap_mod, mod_pred; lia.
Qed.

Lemma takeLimit_length {A} (l : list A) (limit : Z) :
  0 <= limit <= max_int ->
  Z.of_nat (length (takeLimit limit l)) = Z.min limit (Z.of_nat (length l)).
Proof.
  revert limit. induction l as [|a l IH]; intros limit Hl; simpl takeLimit.
  - simpl. lia.
  - destruct (Z.eqb_spec limit 0) as [->|Hne]; [simpl; lia|].
    change (length (a :: takeLimit (int_wrap (limit - 1)) l))
      with (S (length (takeLimit (int_wrap (limit - 1)) l))).
    change (length (a :: l)) with (S (length l)).
    rewrite !Nat2Z.inj_succ, int_wrap_id by (unfold min_int, max_int in *; lia).
    rewrite IH by lia. lia.
Qed.

Lemma takeLimit_prefix {A} (l : list A) (limit : Z) :
  exists rest, l = takeLimit limit l ++ rest.
Proof.
  revert limit. induction l as [|a l IH]; intros limit; simpl.
  - now exists [].
  - destruct (limit =? 0); [now exists (a :: l)|].
    destruct (IH (int_wrap (limit - 1))) as [rest Hr].
    exists rest. simpl. now f_equal.
Qed.

Lemma negative_unconstrained (limit : Z) (n : nat) :
  min_int <= limit < 0 -> Z.of_nat n <= 2 ^ 63 -> unconstrained limit n.
Proof.
  unfold unconstrained, min_int. intros Hl Hn.
  replace (limit mod 2 ^ 64) with (limit + 2 ^ 64); [lia|].
  apply (Z.mod_unique_pos _ _ (-1)); lia.
Qed.

(** ** Streams that produce a list *)

Lemma drain_Produces {E St} `{Stream E St} (s : St) (l : list E) :
  Produces s l ->
  forall fuel, (length l < fuel)%nat ->
  exists s', drain fuel s = Some (l, None, s').
Proof.
  induction 1 as [s s' Hh | s s1 s2 a l Hh Hn Hp IH]; intros fuel Hf.
  - destruct fuel as [|fuel]; [simpl in Hf; lia|].
    simpl. rewrite Hh. eauto.
  - destruct fuel as [|fuel]; [simpl in Hf; lia|].
    simpl. rewrite Hh, Hn.
    destruct (IH fuel) as [s3 Hd]; [simpl in Hf; lia|].
    rewrite Hd. eauto.
Qed.

Lemma Produces_sliceOf {E} `{Zero E} (l : list E) : Produces (sliceOf l) l.
Proof.
  induction l as [|a l IH].
  - now apply Produces_done with (s' := sliceOf []).
  - apply Produces_more with (s1 := sliceOf (a :: l)) (s2 := sliceOf l); auto.
Qed.

Lemma Produces_inv_nil {E St} `{Stream E St} (s : St) :
  Produces s [] -> exists s', HasNext s = (false, s').
Proof. inversion 1; eauto. Qed.

Lemma Produces_inv_cons {E St} `{Stream E St} (s : St) (a : E) (l : list E) :
  Produces s (a :: l) ->
  exists s1 s2, HasNext s = (true, s1) /\ Next s1 = ((a, None), s2) /\ Produces s2 l.
Proof. inversion 1; subst; eauto. Qed.

(** The interface value a constructor returns produces what the object it
    holds produces. *)
Lemma Produces_embed {E St St'} {HS : Stream E St} {HS' : Stream E St'}
    (f : St -> St') :
  (forall s, HasNext (f s) = (fst (HasNext s), f (snd (HasNext s)))) ->
  (forall s, Next (f s) = (fst (Next s), f (snd (Next s)))) ->
  forall s l, Produces s l -> Produces (f s) l.
Proof.
  intros Hh Hn s l. induction 1 as [s s' Eh | s s1 s2 a l Eh En Hp IH].
  - apply Produces_done with (s' := f s'). now rewrite Hh, Eh.
  - apply Produces_more with (s1 := f s1) (s2 := f s2); auto.
    + now rewrite Hh, Eh.
    + now rewrite Hn, En.
Qed.

Ltac embed_tac :=
  apply Produces_embed; intros s; simpl; try reflexivity;
  match goal with |- context [let (_, _) := ?e in _] => destruct e end;
  reflexivity.

Lemma Produces_UnionKV_RetIter {SX SY} `{KV SX} `{KV SY}
    (m : UnionKVIter.t SX SY) (l : list (bytes * bytes)) :
  Produces m l -> Produces (UnionKVIter.RetIter m) l.
Proof. revert m l. embed_tac. Qed.

Lemma Produces_UnionKV_RetX {SX SY} `{KV SX} `{KV SY}
    (x : SX) (l : list (bytes * bytes)) :
  Produces x l -> Produces (UnionKVIter.RetX (SY := SY) x) l.
Proof. revert x l. embed_tac. Qed.

Lemma Produces_UnionKV_RetY {SX SY} `{KV SX} `{KV SY}
    (y : SY) (l : list (bytes * bytes)) :
  Produces y l -> Produces (UnionKVIter.RetY (SX := SX) y) l.
Proof. revert y l. embed_tac. Qed.

Lemma Produces_WrapKVS_RetIter {SY} `{KV SY}
    (m : WrapKVSIter.t SY) (l : list (bytes * bytes * Z)) :
  Produces m l -> Produces (WrapKVSIter.RetIter m) l.
Proof. revert m l. embed_tac. Qed.

Lemma Produces_WrapKV_RetIter {SX} `{KVS SX}
    (m : WrapKVIter.t SX) (l : list (bytes * bytes)) :
  Produces m l -> Produces (WrapKVIter.RetIter m) l.
Proof. revert m l. embed_tac. Qed.

Lemma Produces_MergeKVS_RetIter {SX SY} `{KVS SX} `{KV SY}
    (m : MergedKV.t SX SY) (l : list (bytes * bytes * Z)) :
  Produces m l -> Produces (MergedKV.RetIter m) l.
Proof. revert m l. embed_tac. Qed.

Lemma Produces_MergeKVS_RetX {SX SY} `{KVS SX} `{KV SY}
    (x : SX) (l : list (bytes * bytes * Z)) :
  Produces x l -> Produces (MergedKV.RetX (SY := SY) x) l.
Proof. revert x l. embed_tac. Qed.

Lemma Produces_MergeKVS_RetWrapped {SX SY} `{KVS SX} `{KV SY}
    (w : WrapKVSIter.Result SY) (l : list (bytes * bytes * Z)) :
  Produces w l -> Produces (MergedKV.RetWrapped (SX := SX) w) l.
Proof. revert w l. embed_tac. Qed.

(** ** UnionKVIter emits [unionList], cut by the limit *)

Lemma unionList_nil_l (ly : list (bytes * bytes)) : unionList [] ly = ly.
Proof. destruct ly; reflexivity. Qed.

Lemma unionList_nil_r (lx : list (bytes * bytes)) : unionList lx [] = lx.
Proof. destruct lx; reflexivity. Qed.

Lemma unionList_cons (px py : bytes * bytes) (lx ly : list (bytes * bytes)) :
  unionList (px :: lx) (py :: ly) =
  if bytes_Compare (fst px) (fst py) <? 0 then px :: unionList lx (py :: ly)
  else if bytes_Compare (fst px) (fst py) =? 0 then px :: unionList lx ly
  else py :: unionList (px :: lx) ly.
Proof. reflexivity. Qed.

Arguments unionList : simpl never.

Ltac step_done Hr :=
  repeat split; eauto; try apply Hr;
  try (now rewrite ?unionList_nil_l, ?unionList_nil_r);
  try (simpl; lia).

Section UnionRefinement.
Context {SX SY : Type} `{KV SX} `{KV SY}.

Lemma union_advanceX_rep (m : UnionKVIter.t SX SY) lx ly :
  UnionKVIter.err m = None ->
  Produces (UnionKVIter.x m) lx ->
  holds2 (UnionKVIter.yHasNext m) (UnionKVIter.yNextK m) (UnionKVIter.yNextV m)
    (UnionKVIter.y m) ly ->
  UnionRep (UnionKVIter.advanceX m) lx ly
  /\ UnionKVIter.limit (UnionKVIter.advanceX m) = UnionKVIter.limit m.
Proof.
  intros He Hp Hy. unfold UnionKVIter.advanceX, UnionRep. rewrite He.
  destruct lx as [|[k v] lx].
  - apply Produces_inv_nil in Hp. destruct Hp as [s' Hh]. rewrite Hh. simpl. repeat split; auto.
  - apply Produces_inv_cons in Hp. destruct Hp as (s1 & s2 & Hh & Hn & Hp).
    rewrite Hh, Hn. simpl. repeat split; auto.
Qed.

Lemma union_advanceY_rep (m : UnionKVIter.t SX SY) lx ly :
  UnionKVIter.err m = None ->
  Produces (UnionKVIter.y m) ly ->
  holds2 (UnionKVIter.xHasNext m) (UnionKVIter.xNextK m) (UnionKVIter.xNextV m)
    (UnionKVIter.x m) lx ->
  UnionRep (UnionKVIter.advanceY m) lx ly
  /\ UnionKVIter.limit (UnionKVIter.advanceY m) = UnionKVIter.limit m.
Proof.
  intros He Hp Hx. unfold UnionKVIter.advanceY, UnionRep. rewrite He.
  destruct ly as [|[k v] ly].
  - apply Produces_inv_nil in Hp. destruct Hp as [s' Hh]. rewrite Hh. simpl. repeat split; auto.
  - apply Produces_inv_cons in Hp. destruct Hp as (s1 & s2 & Hh & Hn & Hp).
    rewrite Hh, Hn. simpl. repeat split; auto.
Qed.

Lemma UnionKV_rep (x : SX) (y : SY) (limit : Z) lx ly :
  Produces x lx -> Produces y ly ->
  exists m, UnionKV (Some x) (Some y) limit = UnionKVIter.RetIter m
            /\ UnionRep m lx ly /\ UnionKVIter.limit m = limit.
Proof.
  intros Hx Hy. eexists. split; [reflexivity|].
  destruct (@union_advanceX_rep (UnionKVIter.new x y limit) (lx) ([]))
    as [(He & Hhx & _) Hl]; simpl; auto.
  destruct (@union_advanceY_rep (UnionKVIter.advanceX (UnionKVIter.new x y limit))
              (lx) (ly)) as [Hr Hl']; auto.
  - unfold UnionKVIter.advanceX. simpl.
    destruct (HasNext x) as [[] x1]; [destruct (Next x1) as [[[k v] e] x2]|]; simpl; auto.
  - split; auto. rewrite Hl', Hl. reflexivity.
Qed.

Lemma union_Next_step (m : UnionKVIter.t SX SY) lx ly :
  UnionRep m lx ly ->
  (0 < length lx + length ly)%nat ->
  exists a lx' ly' m',
    unionList lx ly = a :: unionList lx' ly'
    /\ UnionKVIter.Next m = ((a, None), m')
    /\ UnionRep m' lx' ly'
    /\ UnionKVIter.limit m' = int_wrap (UnionKVIter.limit m - 1)
    /\ (length lx' + length ly' < length lx + length ly)%nat.
Proof.
  intros (He & Hx & Hy) Hlen. unfold UnionKVIter.Next. rewrite He.
  destruct lx as [|[kx vx] lx], ly as [|[ky vy] ly]; simpl in Hlen; try lia.
  - (* only y holds an element *)
    simpl in Hx. destruct Hy as (Ey & Eb & Hp). simpl. rewrite Hx, Ey. simpl.
    inversion Eb; subst.
    destruct (@union_advanceY_rep (UnionKVIter.decLimit m) ([]) (ly))
      as [Hr Hl]; simpl; auto.
    exists (UnionKVIter.yNextK m, UnionKVIter.yNextV m), [], ly.
    eexists. rewrite He. step_done Hr.
  - (* only x holds an element *)
    destruct Hx as (Ex & Eb & Hp). simpl in Hy. simpl. rewrite Ex, Hy. simpl.
    inversion Eb; subst.
    destruct (@union_advanceX_rep (UnionKVIter.decLimit m) (lx) ([]))
      as [Hr Hl]; simpl; auto.
    exists (UnionKVIter.xNextK m, UnionKVIter.xNextV m), lx, [].
    eexists. rewrite He. step_done Hr.
  - (* both hold an element *)
    pose proof Hx as (Ex & Ebx & Hpx). pose proof Hy as (Ey & Eby & Hpy).
    simpl. rewrite Ex, Ey. simpl. inversion Ebx; inversion Eby; subst.
    rewrite unionList_cons. simpl fst.
    destruct (bytes_Compare (UnionKVIter.xNextK m) (UnionKVIter.yNextK m) <? 0).
    + destruct (@union_advanceX_rep (UnionKVIter.decLimit m) (lx)
                  ((UnionKVIter.yNextK m, UnionKVIter.yNextV m) :: ly))
        as [Hr Hl]; simpl; auto.
      do 3 eexists. eexists. rewrite He. step_done Hr.
    + destruct (bytes_Compare (UnionKVIter.xNextK m) (UnionKVIter.yNextK m) =? 0).
      * destruct (@union_advanceX_rep (UnionKVIter.decLimit m) (lx)
                    ((UnionKVIter.yNextK m, UnionKVIter.yNextV m) :: ly))
          as [(He1 & Hx1 & Hy1) Hl1]; simpl; auto.
        destruct Hy1 as (_ & _ & Hpy1).
        destruct (@union_advanceY_rep
                    (UnionKVIter.advanceX (UnionKVIter.decLimit m)) lx ly) as [Hr Hl]; auto.
        do 3 eexists. eexists. rewrite He. step_done Hr.
        now rewrite Hl, Hl1.
      * destruct (@union_advanceY_rep (UnionKVIter.decLimit m)
                    ((UnionKVIter.xNextK m, UnionKVIter.xNextV m) :: lx)
                    (ly)) as [Hr Hl]; simpl; auto.
        do 3 eexists. eexists. rewrite He. step_done Hr.
Qed.

Lemma UnionRep_Produces (n : nat) :
  forall (m : UnionKVIter.t SX SY) lx ly,
    (length lx + length ly <= n)%nat ->
    UnionRep m lx ly ->
    Produces m (takeLimit (UnionKVIter.limit m) (unionList lx ly)).
Proof.
  induction n as [|n IH]; intros m lx ly Hn Hr.
  - destruct lx, ly; simpl in Hn; try lia.
    destruct Hr as (He & Hx & Hy). simpl in Hx, Hy.
    apply Produces_done with (s' := m).
    simpl. unfold UnionKVIter.HasNext. rewrite He, Hx, Hy.
    now rewrite !andb_false_r.
  - destruct (Nat.eq_dec (length lx + length ly) 0) as [E0|E0].
    + apply (IH m lx ly); [lia|auto].
    + destruct (union_Next_step Hr) as (a & lx' & ly' & m' & Eu & En & Hr' & El & Hlt);
        [lia|].
      rewrite Eu. simpl takeLimit.
      assert (Hhas : UnionKVIter.xHasNext m || UnionKVIter.yHasNext m = true).
      { destruct Hr as (_ & Hx & Hy).
        destruct lx, ly; simpl in *; try lia;
          [destruct Hy as [-> _] | destruct Hx as [-> _] | destruct Hx as [-> _]];
          auto using orb_true_r. }
      destruct (Z.eqb_spec (UnionKVIter.limit m) 0) as [Ez|Ez].
      * apply Produces_done with (s' := m).
        simpl. unfold UnionKVIter.HasNext.
        destruct Hr as (-> & _). rewrite Ez. simpl. reflexivity.
      * apply Produces_more with (s1 := m) (s2 := m').
        -- simpl. unfold UnionKVIter.HasNext.
           destruct Hr as (-> & _).
           apply Z.eqb_neq in Ez. rewrite Ez. simpl.
           rewrite <- Hhas. reflexivity.
        -- exact En.
        -- rewrite <- El. apply IH; [lia|auto].
Qed.

(** The union of two streams that produce [lx] and [ly] produces
    [unionList lx ly], cut by the limit. *)
Lemma UnionKV_Produces (x : SX) (y : SY) (limit : Z) lx ly :
  Produces x lx -> Produces y ly ->
  Produces (UnionKV (Some x) (Some y) limit) (takeLimit limit (unionList lx ly)).
Proof.
  intros Hx Hy.
  destruct (UnionKV_rep limit Hx Hy) as (m & -> & Hr & El).
  apply Produces_UnionKV_RetIter. rewrite <- El.
  now apply (UnionRep_Produces (n := length lx + length ly)).
Qed.

End UnionRefinement.

(** ** MergedKV emits [mergeList], cut by the limit *)

Lemma mergeList_nil_l (ly : list (bytes * bytes)) : mergeList [] ly = map lift ly.
Proof. destruct ly; reflexivity. Qed.

Lemma mergeList_nil_r (lx : list (bytes * bytes * Z)) : mergeList lx [] = lx.
Proof. destruct lx; reflexivity. Qed.

Lemma mergeList_cons (px : bytes * bytes * Z) (py : bytes * bytes) lx ly :
  mergeList (px :: lx) (py :: ly) =
  if bytes_Compare (fst (fst px)) (fst py) <=? 0 then px :: mergeList lx (py :: ly)
  else lift py :: mergeList (px :: lx) ly.
Proof. reflexivity. Qed.

Arguments mergeList : simpl never.

Ltac merge_step_done Hr :=
  repeat split; eauto; try apply Hr;
  try (now rewrite ?mergeList_nil_l, ?mergeList_nil_r);
  try (simpl; lia).

Section MergedRefinement.
Context {SX SY : Type} `{KVS SX} `{KV SY}.

Lemma merged_advanceX_rep (m : MergedKV.t SX SY) lx ly :
  MergedKV.err m = None ->
  Produces (MergedKV.x m) lx ->
  holds2 (MergedKV.yHasNext m) (MergedKV.yNextK m) (MergedKV.yNextV m)
    (MergedKV.y m) ly ->
  MergedRep (MergedKV.advanceX m) lx ly
  /\ MergedKV.limit (MergedKV.advanceX m) = MergedKV.limit m.
Proof.
  intros He Hp Hy. unfold MergedKV.advanceX, MergedRep. rewrite He.
  destruct lx as [|[[k v] st] lx].
  - apply Produces_inv_nil in Hp. destruct Hp as [s' Hh]. rewrite Hh. simpl.
    repeat split; auto.
  - apply Produces_inv_cons in Hp. destruct Hp as (s1 & s2 & Hh & Hn & Hp).
    rewrite Hh, Hn. simpl. repeat split; auto.
Qed.

Lemma merged_advanceY_rep (m : MergedKV.t SX SY) lx ly :
  MergedKV.err m = None ->
  Produces (MergedKV.y m) ly ->
  holds3 (MergedKV.xHasNext m) (MergedKV.xNextK m) (MergedKV.xNextV m)
    (MergedKV.xStep m) (MergedKV.x m) lx ->
  MergedRep (MergedKV.advanceY m) lx ly
  /\ MergedKV.limit (MergedKV.advanceY m) = MergedKV.limit m.
Proof.
  intros He Hp Hx. unfold MergedKV.advanceY, MergedRep. rewrite He.
  destruct ly as [|[k v] ly].
  - apply Produces_inv_nil in Hp. destruct Hp as [s' Hh]. rewrite Hh. simpl.
    repeat split; auto.
  - apply Produces_inv_cons in Hp. destruct Hp as (s1 & s2 & Hh & Hn & Hp).
    rewrite Hh, Hn. simpl. repeat split; auto.
Qed.

Lemma MergeKVS_rep (x : SX) (y : SY) (limit : Z) lx ly :
  Produces x lx -> Produces y ly ->
  exists m, MergeKVS (Some x) (Some y) limit = MergedKV.RetIter m
            /\ MergedRep m lx ly /\ MergedKV.limit m = limit.
Proof.
  intros Hx Hy. eexists. split; [reflexivity|].
  destruct (@merged_advanceX_rep (MergedKV.new x y limit) lx [])
    as [(He & Hhx & _) Hl]; simpl; auto.
  destruct (@merged_advanceY_rep (MergedKV.advanceX (MergedKV.new x y limit)) lx ly)
    as [Hr Hl']; auto.
  - unfold MergedKV.advanceX. simpl.
    destruct (HasNext x) as [[] x1]; [destruct (Next x1) as [[[[k v] st] e] x2]|];
      simpl; auto.
  - split; auto. rewrite Hl', Hl. reflexivity.
Qed.

Lemma merged_Next_step (m : MergedKV.t SX SY) lx ly :
  MergedRep m lx ly ->
  (0 < length lx + length ly)%nat ->
  exists a lx' ly' m',
    mergeList lx ly = a :: mergeList lx' ly'
    /\ MergedKV.Next m = ((a, None), m')
    /\ MergedRep m' lx' ly'
    /\ MergedKV.limit m' = int_wrap (MergedKV.limit m - 1)
    /\ (length lx' + length ly' < length lx + length ly)%nat.
Proof.
  intros (He & Hx & Hy) Hlen. unfold MergedKV.Next. rewrite He.
  destruct lx as [|[[kx vx] sx] lx], ly as [|[ky vy] ly]; simpl in Hlen; try lia.
  - (* only y holds an element *)
    simpl in Hx. destruct Hy as (Ey & Eb & Hp). simpl. rewrite Hx, Ey. simpl.
    inversion Eb; subst.
    destruct (@merged_advanceY_rep (MergedKV.decLimit m) [] ly)
      as [Hr Hl]; simpl; auto.
    exists (lift (MergedKV.yNextK m, MergedKV.yNextV m)), [], ly.
    eexists. rewrite He. merge_step_done Hr.
  - (* only x holds an element *)
    destruct Hx as (Ex & Eb & Hp). simpl in Hy. simpl. rewrite Ex, Hy. simpl.
    inversion Eb; subst.
    destruct (@merged_advanceX_rep (MergedKV.decLimit m) lx [])
      as [Hr Hl]; simpl; auto.
    exists (MergedKV.xNextK m, MergedKV.xNextV m, MergedKV.xStep m), lx, [].
    eexists. rewrite He. merge_step_done Hr.
  - (* both hold an element *)
    pose proof Hx as (Ex & Ebx & Hpx). pose proof Hy as (Ey & Eby & Hpy).
    simpl. rewrite Ex, Ey. simpl. inversion Ebx; inversion Eby; subst.
    rewrite mergeList_cons. simpl fst.
    destruct (bytes_Compare (MergedKV.xNextK m) (MergedKV.yNextK m) <=? 0).
    + destruct (@merged_advanceX_rep (MergedKV.decLimit m) lx
                  ((MergedKV.yNextK m, MergedKV.yNextV m) :: ly))
        as [Hr Hl]; simpl; auto.
      do 3 eexists. eexists. rewrite He. merge_step_done Hr.
    + destruct (@merged_advanceY_rep (MergedKV.decLimit m)
                  ((MergedKV.xNextK m, MergedKV.xNextV m, MergedKV.xStep m) :: lx) ly)
        as [Hr Hl]; simpl; auto.
      exists (lift (MergedKV.yNextK m, MergedKV.yNextV m)).
      do 2 eexists. eexists. rewrite He. merge_step_done Hr.
Qed.

Lemma MergedRep_Produces (n : nat) :
  forall (m : MergedKV.t SX SY) lx ly,
    (length lx + length ly <= n)%nat ->
    MergedRep m lx ly ->
    Produces m (takeLimit (MergedKV.limit m) (mergeList lx ly)).
Proof.
  induction n as [|n IH]; intros m lx ly Hn Hr.
  - destruct lx, ly; simpl in Hn; try lia.
    destruct Hr as (He & Hx & Hy). simpl in Hx, Hy.
    apply Produces_done with (s' := m).
    simpl. unfold MergedKV.HasNext. rewrite He, Hx, Hy.
    now rewrite !andb_false_r.
  - destruct (Nat.eq_dec (length lx + length ly) 0) as [E0|E0].
    + apply (IH m lx ly); [lia|auto].
    + destruct (merged_Next_step Hr) as (a & lx' & ly' & m' & Eu & En & Hr' & El & Hlt);
        [lia|].
      rewrite Eu. simpl takeLimit.
      assert (Hhas : MergedKV.xHasNext m || MergedKV.yHasNext m = true).
      { destruct Hr as (_ & Hx & Hy).
        destruct lx, ly; simpl in *; try lia;
          [destruct Hy as [-> _] | destruct Hx as [-> _] | destruct Hx as [-> _]];
          auto using orb_true_r. }
      destruct (Z.eqb_spec (MergedKV.limit m) 0) as [Ez|Ez].
      * apply Produces_done with (s' := m).
        simpl. unfold MergedKV.HasNext.
        destruct Hr as (-> & _). rewrite Ez. simpl. reflexivity.
      * apply Produces_more with (s1 := m) (s2 := m').
        -- simpl. unfold MergedKV.HasNext.
           destruct Hr as (-> & _).
           apply Z.eqb_neq in Ez. rewrite Ez. simpl.
           rewrite <- Hhas. reflexivity.
        -- exact En.
        -- rewrite <- El. apply IH; [lia|auto].
Qed.

(** The merge of two streams that produce [lx] and [ly] produces
    [mergeList lx ly], cut by the limit. *)
Lemma MergeKVS_Produces (x : SX) (y : SY) (limit : Z) lx ly :
  Produces x lx -> Produces y ly ->
  Produces (MergeKVS (Some x) (Some y) limit) (takeLimit limit (mergeList lx ly)).
Proof.
  intros Hx Hy.
  destruct (MergeKVS_rep limit Hx Hy) as (m & -> & Hr & El).
  apply Produces_MergeKVS_RetIter. rewrite <- El.
  now apply (MergedRep_Produces (n := length lx + length ly)).
Qed.

End MergedRefinement.

(** ** WrapKVSIter lifts what its child produces *)

Section WrapRefinement.
Context {SY : Type} `{KV SY}.

Lemma wrapKVS_advance_rep (m : WrapKVSIter.t SY) ly :
  WrapKVSIter.err m = None ->
  Produces (WrapKVSIter.y m) ly ->
  WrapKVSIter.err (WrapKVSIter.advance m) = None
  /\ holds2 (WrapKVSIter.yHasNext (WrapKVSIter.advance m))
       (WrapKVSIter.yNextK (WrapKVSIter.advance m))
       (WrapKVSIter.yNextV (WrapKVSIter.advance m))
       (WrapKVSIter.y (WrapKVSIter.advance m)) ly.
Proof.
  intros He Hp. unfold WrapKVSIter.advance. rewrite He.
  destruct ly as [|[k v] ly].
  - apply Produces_inv_nil in Hp. destruct Hp as [s' Hh]. rewrite Hh. simpl. auto.
  - apply Produces_inv_cons in Hp. destruct Hp as (s1 & s2 & Hh & Hn & Hp).
    rewrite Hh, Hn. simpl. auto.
Qed.

Lemma WrapKVSIter_Produces ly :
  forall m : WrapKVSIter.t SY,
    WrapKVSIter.err m = None ->
    holds2 (WrapKVSIter.yHasNext m) (WrapKVSIter.yNextK m) (WrapKVSIter.yNextV m)
      (WrapKVSIter.y m) ly ->
    Produces m (map lift ly).
Proof.
  induction ly as [|[k v] ly IH]; intros m He Hy; simpl in Hy.
  - apply Produces_done with (s' := m). simpl. unfold WrapKVSIter.HasNext.
    now rewrite He, Hy.
  - destruct Hy as (Eh & Eb & Hp). inversion Eb; subst.
    destruct (wrapKVS_advance_rep m He Hp) as [He' Hy'].
    apply Produces_more with (s1 := m) (s2 := WrapKVSIter.advance m).
    + simpl. unfold WrapKVSIter.HasNext. now rewrite He, Eh.
    + simpl. unfold WrapKVSIter.Next. now rewrite He.
    + now apply IH.
Qed.

Lemma WrapKVS_Produces (y : SY) ly :
  Produces y ly -> Produces (WrapKVS (Some y)) (map lift ly).
Proof.
  intros Hp. apply Produces_WrapKVS_RetIter.
  destruct (@wrapKVS_advance_rep (WrapKVSIter.new y) ly) as [He Hy]; auto.
  now apply WrapKVSIter_Produces.
Qed.

End WrapRefinement.

(** ** The emitted sequences as lists *)

Lemma In_unionList_l (a : bytes * bytes) lx ly :
  In a lx -> In a (unionList lx ly).
Proof.
  revert ly. induction lx as [|px lx IHx]; intros ly; [easy|].
  induction ly as [|py ly IHy]; [now rewrite unionList_nil_r|].
  rewrite unionList_cons. intros Hin.
  destruct (_ <? 0); [|destruct (_ =? 0)].
  - destruct Hin as [->|Hin]; [now left | right; now apply IHx].
  - destruct Hin as [->|Hin]; [now left | right; now apply IHx].
  - right. now apply IHy.
Qed.

Lemma In_unionList (a : bytes * bytes) lx ly :
  In a (unionList lx ly) -> In a lx \/ In a ly.
Proof.
  revert ly. induction lx as [|px lx IHx]; intros ly.
  - rewrite unionList_nil_l. auto.
  - induction ly as [|py ly IHy]; [rewrite unionList_nil_r; auto|].
    rewrite unionList_cons.
    destruct (_ <? 0); [|destruct (_ =? 0)]; simpl; intros [<-|Hin]; auto.
    + apply IHx in Hin. simpl in Hin. tauto.
    + apply IHx in Hin. tauto.
    + apply IHy in Hin. simpl in Hin. tauto.
Qed.

Lemma In_keys_unionList_r (k : bytes) lx ly :
  In k (keys2 ly) -> In k (keys2 (unionList lx ly)).
Proof.
  revert ly. induction lx as [|px lx IHx]; intros ly.
  - now rewrite unionList_nil_l.
  - induction ly as [|py ly IHy]; [easy|].
    rewrite unionList_cons.
    destruct (_ <? 0) eqn:Elt; [|destruct (Z.eqb_spec (bytes_Compare (fst px) (fst py)) 0) as [Eeq|Eeq]];
      simpl; intros Hin.
    + right. now apply IHx.
    + apply bytes_Compare_eq in Eeq. destruct Hin as [<-|Hin]; [now left|].
      right. now apply IHx.
    + destruct Hin as [<-|Hin]; [now left|]. right. now apply IHy.
Qed.

Lemma length_unionList lx ly :
  (length (unionList lx ly) <= length lx + length ly)%nat.
Proof.
  revert ly. induction lx as [|px lx IHx]; intros ly.
  - rewrite unionList_nil_l. simpl. lia.
  - induction ly as [|py ly IHy]; [rewrite unionList_nil_r; simpl; lia|].
    rewrite unionList_cons.
    destruct (_ <? 0); [|destruct (_ =? 0)]; simpl.
    + specialize (IHx (py :: ly)). simpl in IHx. lia.
    + specialize (IHx ly). lia.
    + simpl in IHy. lia.
Qed.

Lemma length_mergeList lx ly :
  length (mergeList lx ly) = (length lx + length ly)%nat.
Proof.
  revert ly. induction lx as [|px lx IHx]; intros ly.
  - rewrite mergeList_nil_l. now rewrite length_map.
  - induction ly as [|py ly IHy]; [rewrite mergeList_nil_r; simpl; lia|].
    rewrite mergeList_cons.
    destruct (_ <=? 0); simpl.
    + rewrite IHx. simpl. lia.
    + rewrite IHy. simpl. lia.
Qed.

(** Sortedness, for the strict and for the non-strict order at once. *)
Section Sortedness.
Variable R : bytes -> bytes -> Prop.
Hypothesis R_trans : forall a b c, R a b -> R b c -> R a c.
Hypothesis R_lt : forall a b, bytes_Compare a b < 0 -> R a b.

Lemma Forall_keys_unionList (P : bytes -> Prop) lx ly :
  Forall P (keys2 lx) -> Forall P (keys2 ly) -> Forall P (keys2 (unionList lx ly)).
Proof.
  intros Hx Hy. rewrite Forall_forall in *. intros k Hin.
  apply in_map_iff in Hin. destruct Hin as (a & <- & Hin).
  apply In_unionList in Hin. destruct Hin as [Hin|Hin];
    [apply Hx | apply Hy]; now apply in_map.
Qed.

Lemma Forall_R_head (k k' : bytes) (ks : list bytes) :
  R k k' -> Forall (R k') ks -> Forall (R k) ks.
Proof.
  intros Hk. apply Forall_impl. intros a. now apply R_trans.
Qed.

Lemma sorted_unionList lx ly :
  StronglySorted R (keys2 lx) -> StronglySorted R (keys2 ly) ->
  StronglySorted R (keys2 (unionList lx ly)).
Proof.
  revert ly. induction lx as [|px lx IHx]; intros ly Hx Hy.
  - now rewrite unionList_nil_l.
  - induction ly as [|py ly IHy]; [now rewrite unionList_nil_r|].
    rewrite unionList_cons.
    simpl in Hx, Hy. apply StronglySorted_inv in Hx, Hy.
    destruct Hx as [Hsx Hax], Hy as [Hsy Hay].
    destruct (Z.ltb_spec (bytes_Compare (fst px) (fst py)) 0) as [Elt|Elt];
      [|destruct (Z.eqb_spec (bytes_Compare (fst px) (fst py)) 0) as [Eeq|Eeq]].
    + simpl. constructor.
      * apply IHx; auto. simpl. now constructor.
      * apply Forall_keys_unionList; auto. simpl. constructor; auto.
        apply Forall_R_head with (k' := fst py); auto.
    + simpl. constructor.
      * apply IHx; auto.
      * apply Forall_keys_unionList; auto.
        apply bytes_Compare_eq in Eeq. now rewrite Eeq.
    + assert (Hyx : R (fst py) (fst px)).
      { apply R_lt. rewrite (bytes_Compare_antisym (fst px) (fst py)). lia. }
      simpl. constructor.
      * apply IHy; auto.
      * apply Forall_keys_unionList; auto. simpl. constructor; auto.
        apply Forall_R_head with (k' := fst px); auto.
Qed.

End Sortedness.

Lemma In_keys_mergeList (k : bytes) lx ly :
  In k (keys3 (mergeList lx ly)) -> In k (keys3 lx) \/ In k (keys2 ly).
Proof.
  revert ly. induction lx as [|px lx IHx]; intros ly.
  - rewrite mergeList_nil_l. unfold keys3, keys2. rewrite map_map. simpl. auto.
  - induction ly as [|py ly IHy]; [rewrite mergeList_nil_r; auto|].
    rewrite mergeList_cons.
    destruct (_ <=? 0); simpl; intros [<-|Hin]; auto.
    + apply IHx in Hin. simpl in Hin. tauto.
    + apply IHy in Hin. simpl in Hin. tauto.
Qed.

Lemma Forall_keys_mergeList (P : bytes -> Prop) lx ly :
  Forall P (keys3 lx) -> Forall P (keys2 ly) -> Forall P (keys3 (mergeList lx ly)).
Proof.
  intros Hx Hy. rewrite Forall_forall in *. intros k Hin.
  apply In_keys_mergeList in Hin. destruct Hin; auto.
Qed.

Lemma sorted_mergeList lx ly :
  nondecreasing (keys3 lx) -> nondecreasing (keys2 ly) ->
  nondecreasing (keys3 (mergeList lx ly)).
Proof.
  unfold nondecreasing.
  revert ly. induction lx as [|px lx IHx]; intros ly Hx Hy.
  - rewrite mergeList_nil_l. unfold keys3, keys2 in *. now rewrite map_map.
  - induction ly as [|py ly IHy]; [now rewrite mergeList_nil_r|].
    rewrite mergeList_cons.
    simpl in Hx, Hy. apply StronglySorted_inv in Hx, Hy.
    destruct Hx as [Hsx Hax], Hy as [Hsy Hay].
    destruct (Z.leb_spec (bytes_Compare (fst (fst px)) (fst py)) 0) as [Ele|Egt].
    + simpl. constructor.
      * apply IHx; auto. simpl. now constructor.
      * apply Forall_keys_mergeList; auto. simpl. constructor; auto.
        eapply Forall_impl; [|exact Hay]. intros a. now apply bytes_le_trans.
    + assert (Hyx : bytes_le (fst py) (fst (fst px))).
      { apply bytes_lt_le. now apply bytes_gt_lt. }
      simpl. constructor.
      * apply IHy; auto.
      * apply Forall_keys_mergeList; auto. simpl. constructor; auto.
        eapply Forall_impl; [|exact Hax]. intros a. now apply bytes_le_trans.
Qed.




(** A key that occurs once among the keys selects its pair. *)
Lemma filter_hasKey2_absent (k : bytes) (l : list (bytes * bytes)) :
  ~ In k (keys2 l) -> filter (hasKey2 k) l = [].
Proof.
  induction l as [|a l IH]; simpl; intros Hn; auto.
  unfold hasKey2 at 1.
  destruct (Z.eqb_spec (bytes_Compare (fst a) k) 0) as [E|E].
  - apply bytes_Compare_eq in E. tauto.
  - apply IH. tauto.
Qed.

Lemma filter_hasKey2_unique (k v : bytes) (l : list (bytes * bytes)) :
  NoDup (keys2 l) -> In (k, v) l -> filter (hasKey2 k) l = [(k, v)].
Proof.
  induction l as [|a l IH]; simpl; intros Hnd Hin; [easy|].
  apply NoDup_cons_iff in Hnd. destruct Hnd as [Hna Hnd].
  unfold hasKey2 at 1.
  destruct Hin as [->|Hin].
  - simpl. rewrite bytes_Compare_refl. simpl. f_equal.
    now apply filter_hasKey2_absent.
  - destruct (Z.eqb_spec (bytes_Compare (fst a) k) 0) as [E|E]; [|now apply IH].
    apply bytes_Compare_eq in E. exfalso. apply Hna. rewrite E.
    change k with (fst (k, v)). now apply in_map.
Qed.

Lemma length_unionList_distinct lx ly :
  ascending (keys2 lx) -> ascending (keys2 ly) ->
  length (unionList lx ly) = distinctKeys (keys2 lx ++ keys2 ly).
Proof.
  intros Hx Hy. unfold distinctKeys.
  rewrite <- (length_map fst (unionList lx ly)).
  apply Nat.le_antisymm; apply NoDup_incl_length.
  - apply ascending_NoDup.
    apply (sorted_unionList bytes_lt_trans (fun a b H => H)); auto.
  - intros k Hin. apply nodup_In, in_app_iff.
    apply in_map_iff in Hin. destruct Hin as (a & <- & Hin).
    apply In_unionList in Hin. destruct Hin; [left|right]; now apply in_map.
  - apply NoDup_nodup.
  - intros k Hin. apply nodup_In, in_app_iff in Hin. destruct Hin as [Hin|Hin].
    + apply in_map_iff in Hin. destruct Hin as (a & <- & Hin).
      apply in_map. now apply In_unionList_l.
    + now apply In_keys_unionList_r.
Qed.

Lemma length_takeLimit_le {A} (limit : Z) (l : list A) :
  (length (takeLimit limit l) <= length l)%nat.
Proof.
  destruct (takeLimit_prefix l limit) as [rest E].
  rewrite E at 2. rewrite length_app. lia.
Qed.

Lemma sorted_prefix (R : bytes -> bytes -> Prop) (l1 l2 : list bytes) :
  StronglySorted R (l1 ++ l2) -> StronglySorted R l1.
Proof.
  induction l1 as [|a l1 IH]; simpl; intros Hs; [constructor|].
  apply StronglySorted_inv in Hs. destruct Hs as [Hs Hall].
  constructor; auto. apply Forall_app in Hall. tauto.
Qed.

Lemma sorted_takeLimit {A} (R : bytes -> bytes -> Prop) (f : A -> bytes)
    (limit : Z) (l : list A) :
  StronglySorted R (map f l) -> StronglySorted R (map f (takeLimit limit l)).
Proof.
  destruct (takeLimit_prefix l limit) as [rest E].
  rewrite E at 1. rewrite map_app. apply sorted_prefix.
Qed.

(** The consumer loop on a union and on a merge. *)
Lemma UnionKV_drain {SX SY} `{KV SX} `{KV SY} (x : SX) (y : SY) (limit : Z) lx ly :
  Produces x lx -> Produces y ly ->
  exists s',
    drain (S (length lx + length ly)) (UnionKV (Some x) (Some y) limit)
    = Some (takeLimit limit (unionList lx ly), None, s').
Proof.
  intros Hx Hy. apply drain_Produces; [now apply UnionKV_Produces|].
  pose proof (length_takeLimit_le limit (unionList lx ly)).
  pose proof (length_unionList lx ly). lia.
Qed.

Lemma MergeKVS_drain {SX SY} `{KVS SX} `{KV SY} (x : SX) (y : SY) (limit : Z) lx ly :
  Produces x lx -> Produces y ly ->
  exists s',
    drain (S (length lx + length ly)) (MergeKVS (Some x) (Some y) limit)
    = Some (takeLimit limit (mergeList lx ly), None, s').
Proof.
  intros Hx Hy. apply drain_Produces; [now apply MergeKVS_Produces|].
  pose proof (length_takeLimit_le limit (mergeList lx ly)).
  pose proof (length_mergeList lx ly). lia.
Qed.

(** ** Union and merge of sorted streams *)

(** The scenario of the specification, run through the consumer loop. *)
Example scenario_union :
  exists s',
    drain 6 (UnionKV (Some (sliceOf sampleX)) (Some (sliceOf sampleY)) (-1))
    = Some ([(["a"%byte], ["1"%byte]); (["b"%byte], ["2"%byte]);
             (["c"%byte], ["3"%byte; "0"%byte]); (["d"%byte], ["4"%byte])],
            None, s').
Proof. eexists. reflexivity. Qed.

Example scenario_merge :
  exists s',
    drain 6 (MergeKVS (Some (sliceOf sampleXS)) (Some (sliceOf sampleY)) (-1))
    = Some ([(["a"%byte], ["1"%byte], 10); (["b"%byte], ["2"%byte], 20);
             (["b"%byte], ["2"%byte; "0"%byte], 0);
             (["c"%byte], ["3"%byte; "0"%byte], 0); (["d"%byte], ["4"%byte], 40)],
            None, s').
Proof. eexists. reflexivity. Qed.

Ltac sorted_tac :=
  repeat first [ apply SSorted_nil | apply SSorted_cons
               | apply Forall_nil | apply Forall_cons
               | reflexivity | discriminate ].







(** C3. For input streams sorted ascending by key, the keys that
    UnionKV(x, y, limit) and MergeKVS(x, y, limit) emit are sorted ascending,
    whatever the limit: with repetitions allowed in the inputs the outputs
    are ascending with repetitions allowed, and with strictly ascending
    inputs the output of UnionKV is strictly ascending (that of MergeKVS may
    repeat a key).  Sortedness of the inputs is assumed, not checked. *)
Theorem merge_outputs_sorted {SX SY SX3 SY3} `{KV SX} `{KV SY} `{KVS SX3} `{KV SY3}
    (x : SX) (y : SY) (x3 : SX3) (y3 : SY3)
    (lx ly ly3 : list (bytes * bytes)) (lx3 : list (bytes * bytes * Z))
    (limit : Z) :
  Produces x lx -> Produces y ly -> Produces x3 lx3 -> Produces y3 ly3 ->
  nondecreasing (keys2 lx) -> nondecreasing (keys2 ly) ->
  nondecreasing (keys3 lx3) -> nondecreasing (keys2 ly3) ->
  (exists out s',
      drain (S (length lx + length ly)) (UnionKV (Some x) (Some y) limit)
      = Some (out, None, s')
      /\ nondecreasing (keys2 out)
      /\ (ascending (keys2 lx) -> ascending (keys2 ly) -> ascending (keys2 out)))
  /\ (exists out s',
      drain (S (length lx3 + length ly3)) (MergeKVS (Some x3) (Some y3) limit)
      = Some (out, None, s')
      /\ nondecreasing (keys3 out)).
Proof.
  intros Hx Hy Hx3 Hy3 Sx Sy Sx3 Sy3. split.
  - destruct (UnionKV_drain limit Hx Hy) as [s' Hd].
    exists (takeLimit limit (unionList lx ly)), s'. split; [exact Hd|]. split.
    + apply sorted_takeLimit.
      apply (sorted_unionList bytes_le_trans bytes_lt_le); auto.
    + intros Ax Ay. apply sorted_takeLimit.
      apply (sorted_unionList bytes_lt_trans (fun a b H => H)); auto.
  - destruct (MergeKVS_drain limit Hx3 Hy3) as [s' Hd].
    exists (takeLimit limit (mergeList lx3 ly3)), s'. split; [exact Hd|].
    apply sorted_takeLimit. now apply sorted_mergeList.
Qed.

Lemma merge_outputs_sorted_witness :
  (exists out s',
      drain 6 (UnionKV (Some (sliceOf sampleX)) (Some (sliceOf sampleY)) 3)
      = Some (out, None, s')
      /\ nondecreasing (keys2 out)
      /\ (ascending (keys2 sampleX) -> ascending (keys2 sampleY) ->
          ascending (keys2 out)))
  /\ (exists out s',
      drain 6 (MergeKVS (Some (sliceOf sampleXS)) (Some (sliceOf sampleY)) 3)
      = Some (out, None, s')
      /\ nondecreasing (keys3 out)).
Proof.
  apply (@merge_outputs_sorted _ _ _ _ _ _ _ _
           (sliceOf sampleX) (sliceOf sampleY) (sliceOf sampleXS) (sliceOf sampleY)
           sampleX sampleY sampleY sampleXS 3).
  - apply Produces_sliceOf.
  - apply Produces_sliceOf.
  - apply Produces_sliceOf.
  - apply Produces_sliceOf.
  - unfold nondecreasing, bytes_le. simpl. sorted_tac.
  - unfold nondecreasing, bytes_le. simpl. sorted_tac.
  - unfold nondecreasing, bytes_le. simpl. sorted_tac.
  - unfold nondecreasing, bytes_le. simpl. sorted_tac.
Defined.

(** ** The limit *)

Lemma UnionKVIter_limit_zero {SX SY} `{KV SX} `{KV SY} (m : UnionKVIter.t SX SY) :
  UnionKVIter.err m = None -> UnionKVIter.limit m = 0 ->
  UnionKVIter.HasNext m = (false, m).
Proof.
  intros He Hl. unfold UnionKVIter.HasNext. now rewrite He, Hl.
Qed.

Lemma MergedKV_limit_zero {SX SY} `{KVS SX} `{KV SY} (m : MergedKV.t SX SY) :
  MergedKV.err m = None -> MergedKV.limit m = 0 ->
  MergedKV.HasNext m = (false, m).
Proof.
  intros He Hl. unfold MergedKV.HasNext. now rewrite He, Hl.
Qed.

(** Two error-free streams, the first of which carries the key a twice:
    three pairs come out under limit 5, for two distinct keys. *)
Lemma UnionKV_count_with_repeated_key :
  exists out s',
    drain 4 (UnionKV (Some (sliceOf sampleRepeated)) (Some (sliceOf sampleSingle)) 5)
    = Some (out, None, s')
    /\ length out = 3%nat
    /\ Z.min 5 (Z.of_nat (distinctKeys (keys2 sampleRepeated ++ keys2 sampleSingle))) = 2.
Proof.
  eexists. eexists. split; [vm_compute; reflexivity|]. split; reflexivity.
Qed.

(** C4, amended.  For a limit L > 0 and error-free inputs, MergeKVS(x, y, L)
    emits min(L, entries of x plus entries of y) triples, and UnionKV(x, y, L)
    emits min(L, number of distinct keys of x and y) pairs when the keys of
    each input are strictly ascending.  A stream without latched error whose
    limit is zero reports exhaustion whatever its lookahead holds, and L = 0
    at construction makes the stream report exhaustion at once. *)
Theorem limit_caps_output {SX SY SX3 SY3} `{KV SX} `{KV SY} `{KVS SX3} `{KV SY3}
    (x : SX) (y : SY) (x3 : SX3) (y3 : SY3)
    (lx ly ly3 : list (bytes * bytes)) (lx3 : list (bytes * bytes * Z))
    (L : Z) :
  0 < L <= max_int ->
  Produces x lx -> Produces y ly -> Produces x3 lx3 -> Produces y3 ly3 ->
  (ascending (keys2 lx) -> ascending (keys2 ly) ->
   exists out s',
     drain (S (length lx + length ly)) (UnionKV (Some x) (Some y) L)
     = Some (out, None, s')
     /\ Z.of_nat (length out)
        = Z.min L (Z.of_nat (distinctKeys (keys2 lx ++ keys2 ly))))
  /\ (exists out s',
     drain (S (length lx3 + length ly3)) (MergeKVS (Some x3) (Some y3) L)
     = Some (out, None, s')
     /\ Z.of_nat (length out) = Z.min L (Z.of_nat (length lx3 + length ly3)))
  /\ (forall m : UnionKVIter.t SX SY,
        UnionKVIter.err m = None -> UnionKVIter.limit m = 0 ->
        UnionKVIter.HasNext m = (false, m))
  /\ (forall m : MergedKV.t SX3 SY3,
        MergedKV.err m = None -> MergedKV.limit m = 0 ->
        MergedKV.HasNext m = (false, m))
  /\ fst (HasNext (UnionKV (Some x) (Some y) 0)) = false
  /\ fst (HasNext (MergeKVS (Some x3) (Some y3) 0)) = false.
Proof.
  intros HL Hx Hy Hx3 Hy3. repeat split.
  - intros Ax Ay. destruct (UnionKV_drain L Hx Hy) as [s' Hd].
    exists (takeLimit L (unionList lx ly)), s'. split; [exact Hd|].
    rewrite takeLimit_length by lia. now rewrite length_unionList_distinct.
  - destruct (MergeKVS_drain L Hx3 Hy3) as [s' Hd].
    exists (takeLimit L (mergeList lx3 ly3)), s'. split; [exact Hd|].
    rewrite takeLimit_length by lia. now rewrite length_mergeList.
  - apply UnionKVIter_limit_zero.
  - apply MergedKV_limit_zero.
  - destruct (UnionKV_rep 0 Hx Hy) as (m & -> & (He & _) & El).
    simpl. rewrite He, El. reflexivity.
  - destruct (MergeKVS_rep 0 Hx3 Hy3) as (m & -> & (He & _) & El).
    simpl. rewrite He, El. reflexivity.
Qed.

Lemma limit_caps_output_witness :
  (ascending (keys2 sampleX) -> ascending (keys2 sampleY) ->
   exists out s',
     drain 6 (UnionKV (Some (sliceOf sampleX)) (Some (sliceOf sampleY)) 3)
     = Some (out, None, s')
     /\ Z.of_nat (length out)
        = Z.min 3 (Z.of_nat (distinctKeys (keys2 sampleX ++ keys2 sampleY))))
  /\ (exists out s',
     drain 6 (MergeKVS (Some (sliceOf sampleXS)) (Some (sliceOf sampleY)) 3)
     = Some (out, None, s')
     /\ Z.of_nat (length out) = Z.min 3 (Z.of_nat (3 + 2)))
  /\ (forall m : UnionKVIter.t (Slice (bytes * bytes)) (Slice (bytes * bytes)),
        UnionKVIter.err m = None -> UnionKVIter.limit m = 0 ->
        UnionKVIter.HasNext m = (false, m))
  /\ (forall m : MergedKV.t (Slice (bytes * bytes * Z)) (Slice (bytes * bytes)),
        MergedKV.err m = None -> MergedKV.limit m = 0 ->
        MergedKV.HasNext m = (false, m))
  /\ fst (HasNext (UnionKV (Some (sliceOf sampleX)) (Some (sliceOf sampleY)) 0)) = false
  /\ fst (HasNext (MergeKVS (Some (sliceOf sampleXS)) (Some (sliceOf sampleY)) 0)) = false.
Proof.
  apply (@limit_caps_output _ _ _ _ _ _ _ _
           (sliceOf sampleX) (sliceOf sampleY) (sliceOf sampleXS) (sliceOf sampleY)
           sampleX sampleY sampleY sampleXS 3).
  - unfold max_int. lia.
  - apply Produces_sliceOf.
  - apply Produces_sliceOf.
  - apply Produces_sliceOf.
  - apply Produces_sliceOf.
Defined.

(** ** An absent side *)

(** With y absent and limit 1, all three pairs of x come out. *)
Lemma UnionKV_absent_side_not_truncated :
  exists out s',
    drain 4 (UnionKV (Some (sliceOf sampleX)) (@None (Slice (bytes * bytes))) 1)
    = Some (out, None, s')
    /\ length out = 3%nat
    /\ out <> firstn 1 sampleX.
Proof.
  eexists. eexists. split; [vm_compute; reflexivity|]. split; [reflexivity|].
  discriminate.
Qed.

(** C5, amended.  With one side absent the constructors hand back the other
    side as it is, and the limit plays no part: UnionKV(x, nil, n) is x and
    yields all of x, UnionKV(nil, y, n) is y; MergeKVS(nil, y, n) yields all
    of y in triple shape with step zero, MergeKVS(x, nil, n) is x; with both
    sides absent the result is empty. *)
Theorem absent_side_identity {SX SY SX3} `{KV SX} `{KV SY} `{KVS SX3}
    (x : SX) (y : SY) (x3 : SX3)
    (lx ly : list (bytes * bytes)) (lx3 : list (bytes * bytes * Z)) (n : Z) :
  Produces x lx -> Produces y ly -> Produces x3 lx3 ->
  (UnionKV (Some x) (@None SY) n = UnionKVIter.RetX x
   /\ exists s', drain (S (length lx)) (UnionKV (Some x) (@None SY) n)
                 = Some (lx, None, s'))
  /\ (UnionKV (@None SX) (Some y) n = UnionKVIter.RetY y
   /\ exists s', drain (S (length ly)) (UnionKV (@None SX) (Some y) n)
                 = Some (ly, None, s'))
  /\ (exists s', drain 1 (UnionKV (@None SX) (@None SY) n) = Some ([], None, s'))
  /\ (exists s', drain (S (length ly)) (MergeKVS (@None SX3) (Some y) n)
                 = Some (map lift ly, None, s'))
  /\ (MergeKVS (Some x3) (@None SY) n = MergedKV.RetX x3
   /\ exists s', drain (S (length lx3)) (MergeKVS (Some x3) (@None SY) n)
                 = Some (lx3, None, s'))
  /\ (exists s', drain 1 (MergeKVS (@None SX3) (@None SY) n) = Some ([], None, s')).
Proof.
  intros Hx Hy Hx3. repeat split.
  - apply drain_Produces; [|lia]. now apply Produces_UnionKV_RetX.
  - apply drain_Produces; [|lia]. now apply Produces_UnionKV_RetY.
  - eexists. reflexivity.
  - apply drain_Produces; [|rewrite length_map; lia].
    apply Produces_MergeKVS_RetWrapped. now apply WrapKVS_Produces.
  - apply drain_Produces; [|lia]. now apply Produces_MergeKVS_RetX.
  - eexists. reflexivity.
Qed.

Lemma absent_side_identity_witness :
  exists s',
    drain 4 (UnionKV (Some (sliceOf sampleX)) (@None (Slice (bytes * bytes))) 1)
    = Some (sampleX, None, s').
Proof.
  apply (@absent_side_identity _ (Slice (bytes * bytes)) _ _ _ _
           (sliceOf sampleX) (sliceOf sampleY) (sliceOf sampleXS)
           sampleX sampleY sampleXS 1).
  - apply Produces_sliceOf.
  - apply Produces_sliceOf.
  - apply Produces_sliceOf.
Defined.

(** ** Latched errors *)

Lemma errorsOf_app (a b : list Call) : errorsOf (a ++ b) = errorsOf a ++ errorsOf b.
Proof.
  induction a as [|c a IH]; simpl; auto.
  destruct c as [r|[e|]|]; simpl; now rewrite ?IH.
Qed.

Lemma run_fixed {E St} `{Stream E St} (s : St) (f : Op -> Reply E) :
  (forall op, call op s = (f op, s)) ->
  forall ops, run ops s = (map f ops, s).
Proof.
  intros Hc. induction ops as [|op ops IH]; simpl; auto.
  now rewrite Hc, IH.
Qed.

Lemma Reaches_invariant {E St} `{Stream E St} (P : St -> Prop) :
  (forall s op, P s -> P (snd (call op s))) ->
  forall s s', Reaches s s' -> P s -> P s'.
Proof.
  intros Hstep s s'. induction 1; auto.
Qed.

Lemma call_embed {E St St'} {HS : Stream E St} {HS' : Stream E St'} (f : St -> St') :
  (forall s, HasNext (f s) = (fst (HasNext s), f (snd (HasNext s)))) ->
  (forall s, Next (f s) = (fst (Next s), f (snd (Next s)))) ->
  forall op s, call op (f s) = (fst (call op s), f (snd (call op s))).
Proof.
  intros Hh Hn [|] s; unfold call.
  - rewrite Hh. now destruct (HasNext s).
  - rewrite Hn. now destruct (Next s) as [[a e] s'].
Qed.

Lemma Reaches_embed {E St St'} {HS : Stream E St} {HS' : Stream E St'} (f : St -> St') :
  (forall op s, call op (f s) = (fst (call op s), f (snd (call op s)))) ->
  forall s r, Reaches (f s) r -> exists s', r = f s' /\ Reaches s s'.
Proof.
  intros Hc s r Hr. remember (f s) as r0 eqn:E0.
  induction Hr as [r0|r0 r1 op Hr IH]; subst.
  - exists s. split; [reflexivity | constructor].
  - destruct (IH eq_refl) as (s' & -> & Hs').
    exists (snd (call op s')). rewrite Hc. split; [reflexivity|].
    now constructor.
Qed.

Lemma run_embed {E St St'} {HS : Stream E St} {HS' : Stream E St'} (f : St -> St') :
  (forall op s, call op (f s) = (fst (call op s), f (snd (call op s)))) ->
  forall ops s, run ops (f s) = (fst (run ops s), f (snd (run ops s))).
Proof.
  intros Hc. induction ops as [|op ops IH]; intros s; simpl; auto.
  rewrite Hc. destruct (call op s) as [r s1]. simpl. rewrite IH.
  now destruct (run ops s1).
Qed.

Ltac embed_call :=
  apply call_embed; intros s; simpl; try reflexivity;
  match goal with |- context [let (_, _) := ?e in _] => destruct e end;
  reflexivity.

Lemma call_UnionKV_RetIter {SX SY} `{KV SX} `{KV SY} op (m : UnionKVIter.t SX SY) :
  call op (UnionKVIter.RetIter m)
  = (fst (call op m), UnionKVIter.RetIter (snd (call op m))).
Proof. revert op m. embed_call. Qed.

Lemma call_MergeKVS_RetIter {SX SY} `{KVS SX} `{KV SY} op (m : MergedKV.t SX SY) :
  call op (MergedKV.RetIter m)
  = (fst (call op m), MergedKV.RetIter (snd (call op m))).
Proof. revert op m. embed_call. Qed.

Lemma call_WrapKVS_RetIter {SY} `{KV SY} op (m : WrapKVSIter.t SY) :
  call op (WrapKVSIter.RetIter m)
  = (fst (call op m), WrapKVSIter.RetIter (snd (call op m))).
Proof. revert op m. embed_call. Qed.

Lemma call_WrapKV_RetIter {SX} `{KVS SX} op (m : WrapKVIter.t SX) :
  call op (WrapKVIter.RetIter m)
  = (fst (call op m), WrapKVIter.RetIter (snd (call op m))).
Proof. revert op m. embed_call. Qed.

(** Once the error field is set, every call answers with it and leaves the
    whole state, children included, as it is. *)
Lemma UnionKVIter_latched {SX SY} `{KV SX} `{KV SY} (m : UnionKVIter.t SX SY) e op :
  UnionKVIter.err m = Some e -> call op m = (latchedReply e op, m).
Proof.
  intros He. destruct op; unfold call; simpl.
  - unfold UnionKVIter.HasNext. now rewrite He.
  - unfold UnionKVIter.Next. now rewrite He.
Qed.

Lemma MergedKV_latched {SX SY} `{KVS SX} `{KV SY} (m : MergedKV.t SX SY) e op :
  MergedKV.err m = Some e -> call op m = (latchedReply e op, m).
Proof.
  intros He. destruct op; unfold call; simpl.
  - unfold MergedKV.HasNext. now rewrite He.
  - unfold MergedKV.Next. now rewrite He.
Qed.

Lemma WrapKVSIter_latched {SY} `{KV SY} (m : WrapKVSIter.t SY) e op :
  WrapKVSIter.err m = Some e -> call op m = (latchedReply e op, m).
Proof.
  intros He. destruct op; unfold call; simpl.
  - unfold WrapKVSIter.HasNext. now rewrite He.
  - unfold WrapKVSIter.Next. now rewrite He.
Qed.

Lemma WrapKVIter_latched {SX} `{KVS SX} (m : WrapKVIter.t SX) e op :
  WrapKVIter.err m = Some e -> call op m = (latchedReply e op, m).
Proof.
  intros He. destruct op; unfold call; simpl.
  - unfold WrapKVIter.HasNext. now rewrite He.
  - unfold WrapKVIter.Next. now rewrite He.
Qed.

Lemma Logged_HasNext {E St} `{Stream E St} (l : Logged St) :
  HasNext l
  = (fst (HasNext (inner l)),
     mkLogged (snd (HasNext (inner l)))
       (calls l ++ [CHasNext (fst (HasNext (inner l)))])).
Proof. simpl. now destruct (HasNext (inner l)). Qed.

Lemma Logged_Next {E St} `{Stream E St} (l : Logged St) :
  Next l
  = (fst (Next (inner l)),
     mkLogged (snd (Next (inner l)))
       (calls l ++ [CNext (snd (fst (Next (inner l))))])).
Proof. simpl. now destruct (Next (inner l)) as [[a e] s]. Qed.

Ltac latch_advance He :=
  intros Hinv; try rewrite He in Hinv; simpl in Hinv;
  try (apply app_eq_nil in Hinv; destruct Hinv as [Hx0 Hy0]);
  rewrite Logged_HasNext;
  match goal with
  | |- context [HasNext (inner ?c)] => destruct (HasNext (inner c)) as [[] ?s1]
  end; simpl fst; simpl snd; cbv iota;
  [ rewrite Logged_Next; simpl inner;
    match goal with
    | |- context [Next ?s] => destruct (Next s) as [[?a ?e] ?s2]
    end;
    repeat match goal with p : (_ * _)%type |- _ => destruct p end
  | ];
  simpl; rewrite ?errorsOf_app; simpl;
  repeat match goal with
    | H : errorsOf _ = [] |- _ => rewrite H
    end;
  simpl;
  try match goal with
    | |- context [match ?e with Some _ => _ | None => _ end] => destruct e
    end;
  auto.

Section LatchInvariants.
Context {SX SY SX3 : Type} `{KV SX} `{KV SY} `{KVS SX3}.

Lemma UnionLatch_advanceX (m : UnionKVIter.t (Logged SX) (Logged SY)) :
  UnionLatch m -> UnionLatch (UnionKVIter.advanceX m).
Proof.
  unfold UnionLatch, UnionKVIter.advanceX.
  destruct (UnionKVIter.err m) eqn:He; [intros Hinv; now rewrite He|]. latch_advance He.
Qed.

Lemma UnionLatch_advanceY (m : UnionKVIter.t (Logged SX) (Logged SY)) :
  UnionLatch m -> UnionLatch (UnionKVIter.advanceY m).
Proof.
  unfold UnionLatch, UnionKVIter.advanceY.
  destruct (UnionKVIter.err m) eqn:He; [intros Hinv; now rewrite He|]. latch_advance He.
Qed.

Lemma UnionLatch_call (m : UnionKVIter.t (Logged SX) (Logged SY)) op :
  UnionLatch m -> UnionLatch (snd (call op m)).
Proof.
  intros Hinv. destruct op; unfold call; simpl; [exact Hinv|].
  unfold UnionKVIter.Next.
  destruct (UnionKVIter.err m) eqn:He; [exact Hinv|].
  assert (Hd : UnionLatch (UnionKVIter.decLimit m)) by exact Hinv.
  repeat match goal with
    | |- context [if ?b then _ else _] => destruct b
    end; simpl;
    auto using UnionLatch_advanceX, UnionLatch_advanceY.
Qed.

Lemma UnionLatch_init (x : SX) (y : SY) (limit : Z) :
  UnionLatch (UnionKVIter.advanceY
                (UnionKVIter.advanceX (UnionKVIter.new (observe x) (observe y) limit))).
Proof.
  apply UnionLatch_advanceY, UnionLatch_advanceX. reflexivity.
Qed.

Lemma MergedLatch_advanceX (m : MergedKV.t (Logged SX3) (Logged SY)) :
  MergedLatch m -> MergedLatch (MergedKV.advanceX m).
Proof.
  unfold MergedLatch, MergedKV.advanceX.
  destruct (MergedKV.err m) eqn:He; [intros Hinv; now rewrite He|]. latch_advance He.
Qed.

Lemma MergedLatch_advanceY (m : MergedKV.t (Logged SX3) (Logged SY)) :
  MergedLatch m -> MergedLatch (MergedKV.advanceY m).
Proof.
  unfold MergedLatch, MergedKV.advanceY.
  destruct (MergedKV.err m) eqn:He; [intros Hinv; now rewrite He|]. latch_advance He.
Qed.

Lemma MergedLatch_call (m : MergedKV.t (Logged SX3) (Logged SY)) op :
  MergedLatch m -> MergedLatch (snd (call op m)).
Proof.
  intros Hinv. destruct op; unfold call; simpl; [exact Hinv|].
  unfold MergedKV.Next.
  destruct (MergedKV.err m) eqn:He; [exact Hinv|].
  assert (Hd : MergedLatch (MergedKV.decLimit m)) by exact Hinv.
  repeat match goal with
    | |- context [if ?b then _ else _] => destruct b
    end; simpl;
    auto using MergedLatch_advanceX, MergedLatch_advanceY.
Qed.

Lemma MergedLatch_init (x : SX3) (y : SY) (limit : Z) :
  MergedLatch (MergedKV.advanceY
                 (MergedKV.advanceX (MergedKV.new (observe x) (observe y) limit))).
Proof.
  apply MergedLatch_advanceY, MergedLatch_advanceX. reflexivity.
Qed.

Lemma WrapKVSLatch_advance (m : WrapKVSIter.t (Logged SY)) :
  WrapKVSLatch m -> WrapKVSLatch (WrapKVSIter.advance m).
Proof.
  unfold WrapKVSLatch, WrapKVSIter.advance.
  destruct (WrapKVSIter.err m) eqn:He; [intros Hinv; now rewrite He|]. latch_advance He.
Qed.

Lemma WrapKVSLatch_call (m : WrapKVSIter.t (Logged SY)) op :
  WrapKVSLatch m -> WrapKVSLatch (snd (call op m)).
Proof.
  intros Hinv. destruct op; unfold call; simpl; [exact Hinv|].
  unfold WrapKVSIter.Next.
  destruct (WrapKVSIter.err m) eqn:He; [exact Hinv|].
  simpl. now apply WrapKVSLatch_advance.
Qed.

Lemma WrapKVLatch_advance (m : WrapKVIter.t (Logged SX3)) :
  WrapKVLatch m -> WrapKVLatch (WrapKVIter.advance m).
Proof.
  unfold WrapKVLatch, WrapKVIter.advance.
  destruct (WrapKVIter.err m) eqn:He; [intros Hinv; now rewrite He|]. latch_advance He.
Qed.

Lemma WrapKVLatch_call (m : WrapKVIter.t (Logged SX3)) op :
  WrapKVLatch m -> WrapKVLatch (snd (call op m)).
Proof.
  intros Hinv. destruct op; unfold call; simpl; [exact Hinv|].
  unfold WrapKVIter.Next.
  destruct (WrapKVIter.err m) eqn:He; [exact Hinv|].
  simpl. now apply WrapKVLatch_advance.
Qed.

End LatchInvariants.

Lemma In_latchOf (err : option error) (e : error) :
  In e (latchOf err) -> err = Some e.
Proof.
  destruct err as [e'|]; simpl; [intros [->|[]]; reflexivity | intros []].
Qed.

(** C6.  For the streams built by UnionKV, MergeKVS, WrapKVS and WrapKV over
    present children: in every state that calls of HasNext and Next can
    reach, once a pull of a child has returned an error e, every further
    Next returns e with zero values (nil key, nil value, step zero), every
    further HasNext reports true, and the state stays as it is -- the
    children, and the record of the calls made on them, included: no child
    receives another HasNext or Next. *)
Theorem child_error_is_latched (e : error) (ops : list Op) :
  (forall SX SY (HX : KV SX) (HY : KV SY) (x : SX) (y : SY) (limit : Z) r,
      Reaches (UnionKV (Some (observe x)) (Some (observe y)) limit) r ->
      In e (errorsOf (fst (UnionKV_calls r)) ++ errorsOf (snd (UnionKV_calls r))) ->
      run ops r = (map (latchedReply e) ops, r))
  /\ (forall SX SY (HX : KVS SX) (HY : KV SY) (x : SX) (y : SY) (limit : Z) r,
      Reaches (MergeKVS (Some (observe x)) (Some (observe y)) limit) r ->
      In e (errorsOf (fst (MergeKVS_calls r)) ++ errorsOf (snd (MergeKVS_calls r))) ->
      run ops r = (map (latchedReply e) ops, r))
  /\ (forall SY (HY : KV SY) (y : SY) r,
      Reaches (WrapKVS (Some (observe y))) r ->
      In e (errorsOf (WrapKVS_calls r)) ->
      run ops r = (map (latchedReply e) ops, r))
  /\ (forall SX (HX : KVS SX) (x : SX) r,
      Reaches (WrapKV (Some (observe x))) r ->
      In e (errorsOf (WrapKV_calls r)) ->
      run ops r = (map (latchedReply e) ops, r)).
Proof.
  repeat split.
  - intros SX SY HX HY x y limit r Hr Hin.
    apply (Reaches_embed (@UnionKVIter.RetIter _ _) (@call_UnionKV_RetIter _ _ _ _)) in Hr.
    destruct Hr as (m & -> & Hr).
    apply (Reaches_invariant (@UnionLatch SX SY) (fun s op => @UnionLatch_call _ _ _ _ s op)) in Hr;
      [|apply UnionLatch_init].
    simpl in Hin. rewrite Hr in Hin. apply In_latchOf in Hin.
    rewrite (run_embed (@UnionKVIter.RetIter _ _) (@call_UnionKV_RetIter _ _ _ _)).
    now rewrite (@run_fixed _ _ _ m (latchedReply e) (fun op => @UnionKVIter_latched _ _ _ _ m e op Hin)).
  - intros SX SY HX HY x y limit r Hr Hin.
    apply (Reaches_embed (@MergedKV.RetIter _ _) (@call_MergeKVS_RetIter _ _ _ _)) in Hr.
    destruct Hr as (m & -> & Hr).
    apply (Reaches_invariant (@MergedLatch SX SY) (fun s op => @MergedLatch_call _ _ _ _ s op)) in Hr;
      [|apply MergedLatch_init].
    simpl in Hin. rewrite Hr in Hin. apply In_latchOf in Hin.
    rewrite (run_embed (@MergedKV.RetIter _ _) (@call_MergeKVS_RetIter _ _ _ _)).
    now rewrite (@run_fixed _ _ _ m (latchedReply e) (fun op => @MergedKV_latched _ _ _ _ m e op Hin)).
  - intros SY HY y r Hr Hin.
    apply (Reaches_embed (@WrapKVSIter.RetIter _) (@call_WrapKVS_RetIter _ _)) in Hr.
    destruct Hr as (m & -> & Hr).
    apply (Reaches_invariant (@WrapKVSLatch SY) (fun s op => @WrapKVSLatch_call _ _ s op)) in Hr;
      [|apply WrapKVSLatch_advance; reflexivity].
    simpl in Hin. rewrite Hr in Hin. apply In_latchOf in Hin.
    rewrite (run_embed (@WrapKVSIter.RetIter _) (@call_WrapKVS_RetIter _ _)).
    now rewrite (@run_fixed _ _ _ m (latchedReply e) (fun op => @WrapKVSIter_latched _ _ m e op Hin)).
  - intros SX HX x r Hr Hin.
    apply (Reaches_embed (@WrapKVIter.RetIter _) (@call_WrapKV_RetIter _ _)) in Hr.
    destruct Hr as (m & -> & Hr).
    apply (Reaches_invariant (@WrapKVLatch SX) (fun s op => @WrapKVLatch_call _ _ s op)) in Hr;
      [|apply WrapKVLatch_advance; reflexivity].
    simpl in Hin. rewrite Hr in Hin. apply In_latchOf in Hin.
    rewrite (run_embed (@WrapKVIter.RetIter _) (@call_WrapKV_RetIter _ _)).
    now rewrite (@run_fixed _ _ _ m (latchedReply e) (fun op => @WrapKVIter_latched _ _ m e op Hin)).
Qed.

Lemma child_error_is_latched_witness :
  run [OpNext; OpHasNext; OpNext]
    (snd (call OpNext
            (UnionKV (Some (observe sampleFailing)) (Some (observe (sliceOf sampleY)))
               (-1))))
  = (map (latchedReply (Err "read failed")) [OpNext; OpHasNext; OpNext],
     snd (call OpNext
            (UnionKV (Some (observe sampleFailing)) (Some (observe (sliceOf sampleY)))
               (-1)))).
Proof.
  apply (proj1 (child_error_is_latched (Err "read failed") [OpNext; OpHasNext; OpNext])
           _ _ _ _ sampleFailing (sliceOf sampleY) (-1)).
  - apply Reaches_call, Reaches_here.
  - vm_compute. auto.
Defined.

(** ** The transform wrapper *)

(** The mapping fails on the first element; the second Next pulls the child
    again and succeeds. *)
Lemma TransformKV2U64_failure_not_latched :
  exists t',
    pulls 2 (TransformKV2U64 (observe (sliceOf sampleX)) sampleTransform)
    = ([(0, Some (Err "bad key")); (1, None)], t')
    /\ calls (TransformKV2U64Iter.it t') = [CNext None; CNext None]
    /\ fst (HasNext t') = true.
Proof.
  eexists. split; [vm_compute; reflexivity|]. split; reflexivity.
Qed.

(** C7, amended.  The transform wrapper keeps no error of its own.  Each
    Next pulls one element from the child and returns what the mapping
    returns for it, a failure of the mapping included, whatever the mapping
    returned for earlier elements; HasNext reports what the child reports.
    An error of the child is passed on with value zero. *)
Theorem TransformKV2U64_maps_every_pull {St} `{KV St}
    (child : St) (l : list (bytes * bytes))
    (transform : bytes -> bytes -> Z * option error) :
  Produces child l ->
  (exists t',
      run (flat_map (fun _ => [OpHasNext; OpNext]) l) (TransformKV2U64 child transform)
      = (flat_map (fun p => [ReplyHasNext Z true;
                             ReplyNext (fst (transform (fst p) (snd p)))
                                       (snd (transform (fst p) (snd p)))]) l,
         t')
      /\ fst (HasNext t') = false)
  /\ (forall (c c' : St) k v e,
        Next c = ((k, v), Some e, c') ->
        Next (TransformKV2U64 c transform) = ((0, Some e), TransformKV2U64 c' transform)).
Proof.
  intros Hp. split.
  - induction Hp as [s s' Hh | s s1 s2 [k v] l Hh Hn Hp IH].
    + exists (TransformKV2U64 s transform). split; [reflexivity|].
      simpl. unfold TransformKV2U64Iter.HasNext. simpl. now rewrite Hh.
    + destruct IH as (t' & Hrun & Hend). exists t'. split; [|exact Hend].
      simpl. unfold TransformKV2U64Iter.HasNext, TransformKV2U64Iter.Next. simpl.
      rewrite Hh. simpl. rewrite Hn.
      unfold TransformKV2U64 in Hrun.
      destruct (transform k v) as [a e]. simpl. now rewrite Hrun.
  - intros c c' k v e Hn. simpl. unfold TransformKV2U64Iter.Next. simpl.
    now rewrite Hn.
Qed.

Lemma TransformKV2U64_maps_every_pull_witness :
  exists t',
    run [OpHasNext; OpNext; OpHasNext; OpNext; OpHasNext; OpNext]
      (TransformKV2U64 (sliceOf sampleX) sampleTransform)
    = ([ReplyHasNext Z true; ReplyNext 0 (Some (Err "bad key"));
        ReplyHasNext Z true; ReplyNext 1 None;
        ReplyHasNext Z true; ReplyNext 1 None], t')
    /\ fst (HasNext t') = false.
Proof.
  apply (@TransformKV2U64_maps_every_pull _ _ (sliceOf sampleX) sampleX sampleTransform).
  apply Produces_sliceOf.
Defined.

(** ** Construction *)

(** Building a union pulls the first pair of each child. *)
Lemma UnionKV_constructor_pulls :
  UnionKV (Some (observe (sliceOf sampleX))) (Some (observe (sliceOf sampleY))) (-1)
  = UnionKVIter.RetIter
      (UnionKVIter.mk
         (mkLogged (sliceOf (tl sampleX)) [CHasNext true; CNext None])
         (mkLogged (sliceOf (tl sampleY)) [CHasNext true; CNext None])
         true true ["a"%byte] ["1"%byte] ["b"%byte] ["2"%byte; "0"%byte] (-1) None).
Proof. reflexivity. Qed.

Create HintDb lookahead.
#[local] Hint Unfold lookaheadCalls failed
  UnionKV UnionKVIter.advanceX UnionKVIter.advanceY
  MergeKVS MergedKV.advanceX MergedKV.advanceY
  WrapKVS WrapKVSIter.advance WrapKV WrapKVIter.advance : lookahead.

Ltac known_calls :=
  repeat match goal with
    | E : HasNext _ = _ |- _ => rewrite E
    | E : Next _ = _ |- _ => rewrite E
    end.

Ltac lookahead_cases :=
  repeat (cbn; autounfold with lookahead; cbn; known_calls; cbn;
          match goal with
          | |- context [HasNext ?s] =>
              is_var s; destruct (HasNext s) as [[] ?] eqn:?
          | |- context [Next ?s] =>
              is_var s; destruct (Next s) as [[? [?|]] ?] eqn:?
          end;
          repeat match goal with p : (_ * _)%type |- _ => destruct p end);
  cbn; autounfold with lookahead; cbn; known_calls; cbn;
  try reflexivity.

(** C8, amended.  The constructors fill the lookahead at once: UnionKV and
    MergeKVS over two present children, WrapKVS and WrapKV call HasNext once
    on each child and, when it reported true, Next once -- x before y, and
    y not at all when the pull of x failed -- and make no other call.  With
    an absent side UnionKV, and MergeKVS with y absent, hand back the
    present child untouched; MergeKVS with x absent wraps y by WrapKVS. *)
Theorem constructors_fill_lookahead {SX SY SX3} `{KV SX} `{KV SY} `{KVS SX3}
    (x : SX) (y : SY) (x3 : SX3) (limit : Z) :
  UnionKV_calls (UnionKV (Some (observe x)) (Some (observe y)) limit)
  = (lookaheadCalls x, if failed (lookaheadCalls x) then [] else lookaheadCalls y)
  /\ UnionKV (Some (observe x)) (@None (Logged SY)) limit = UnionKVIter.RetX (observe x)
  /\ UnionKV (@None (Logged SX)) (Some (observe y)) limit = UnionKVIter.RetY (observe y)
  /\ MergeKVS_calls (MergeKVS (Some (observe x3)) (Some (observe y)) limit)
     = (lookaheadCalls x3, if failed (lookaheadCalls x3) then [] else lookaheadCalls y)
  /\ MergeKVS (Some (observe x3)) (@None (Logged SY)) limit = MergedKV.RetX (observe x3)
  /\ MergeKVS_calls (MergeKVS (@None (Logged SX3)) (Some (observe y)) limit)
     = ([], lookaheadCalls y)
  /\ WrapKVS_calls (WrapKVS (Some (observe y))) = lookaheadCalls y
  /\ WrapKV_calls (WrapKV (Some (observe x3))) = lookaheadCalls x3.
Proof.
  repeat split.
  all: lookahead_cases.
Qed.

(** ** Close *)

Lemma closeIfCloser_Logged {E St} `{Stream E St} (s : Logged St) :
  calls (closeIfCloser s)
  = closedOnce (calls s, match asCloser (inner s) with Some _ => true | None => false end).
Proof.
  unfold closeIfCloser, closedOnce. simpl.
  now destruct (asCloser (inner s)).
Qed.

(** C9.  Close on a stream put together by UnionKV, MergeKVS, WrapKVS,
    WrapKV and TransformKV2U64, to any depth, reaches every base stream
    under it: a base stream that exposes Close receives exactly one Close
    call, a base stream that does not is left as it is, and the call never
    fails. *)
Theorem Close_reaches_every_base_once (sh : Shape) (c : Composition sh)
    (s : StateOf c) :
  map fst (bases c (closeIfCloser (H := StreamOf c) s))
  = map closedOnce (bases c s).
Proof.
  induction c as [sh St HS | a IHa b IHb | a IHa b IHb | a IHa | a IHa | a IHa].
  - simpl bases. simpl map. f_equal.
    apply (closeIfCloser_Logged (H := HS)).
  - destruct s as [e | y0 | x0 | m]; unfold closeIfCloser; simpl.
    + reflexivity.
    + specialize (IHb y0). unfold closeIfCloser in IHb.
      now destruct (asCloser y0).
    + specialize (IHa x0). unfold closeIfCloser in IHa.
      now destruct (asCloser x0).
    + rewrite !map_app. f_equal; [apply IHa | apply IHb].
  - destruct s as [e | [e | w] | x0 | m]; unfold closeIfCloser; simpl.
    + reflexivity.
    + reflexivity.
    + apply IHb.
    + specialize (IHa x0). unfold closeIfCloser in IHa.
      now destruct (asCloser x0).
    + rewrite !map_app. f_equal; [apply IHa | apply IHb].
  - destruct s as [e | m]; unfold closeIfCloser; simpl.
    + reflexivity.
    + apply IHa.
  - destruct s as [e | m]; unfold closeIfCloser; simpl.
    + reflexivity.
    + apply IHa.
  - unfold closeIfCloser; simpl. apply IHa.
Qed.

(** Three cursors under a composite of depth three: each is closed once. *)
Lemma Close_on_deep_composite :
  match closeIfCloser sampleDeep with
  | UnionKVIter.RetIter u =>
      match UnionKVIter.x u with
      | WrapKVIter.RetIter w =>
          match WrapKVIter.x w with
          | MergedKV.RetIter m =>
              [closed (MergedKV.x m); closed (MergedKV.y m); closed (UnionKVIter.y u)]
          | _ => []
          end
      | _ => []
      end
  | _ => []
  end = [1%nat; 1%nat; 1%nat].
Proof. reflexivity. Qed.

(** ** Negative limits *)

Lemma int_wrap_sub (a b : Z) : int_wrap (int_wrap a - b) = int_wrap (a - b).
Proof.
  unfold int_wrap. f_equal.
  replace ((a + 2 ^ 63) mod 2 ^ 64 - 2 ^ 63 - b + 2 ^ 63)
    with ((a + 2 ^ 63) mod 2 ^ 64 - b) by lia.
  rewrite Zminus_mod_idemp_l. f_equal. lia.
Qed.

Lemma int_wrap_nonzero (z : Z) : - 2 ^ 64 < z < 0 -> int_wrap z <> 0.
Proof.
  intros Hz E. pose proof (int_wrap_mod z) as Hm. rewrite E in Hm.
  rewrite Z.mod_0_l in Hm by lia.
  assert (z mod 2 ^ 64 = z + 2 ^ 64); [|lia].
  symmetry. apply (Z.mod_unique_pos _ _ (-1)); lia.
Qed.

Section LimitOfUnion.
Context {SX SY : Type} `{KV SX} `{KV SY}.

Lemma UnionKVIter_limit_advanceX (m : UnionKVIter.t SX SY) :
  UnionKVIter.limit (UnionKVIter.advanceX m) = UnionKVIter.limit m.
Proof.
  unfold UnionKVIter.advanceX. destruct (UnionKVIter.err m); auto.
  destruct (HasNext (UnionKVIter.x m)) as [[] x1]; auto.
  now destruct (Next x1) as [[[k v] e] x2].
Qed.

Lemma UnionKVIter_limit_advanceY (m : UnionKVIter.t SX SY) :
  UnionKVIter.limit (UnionKVIter.advanceY m) = UnionKVIter.limit m.
Proof.
  unfold UnionKVIter.advanceY. destruct (UnionKVIter.err m); auto.
  destruct (HasNext (UnionKVIter.y m)) as [[] y1]; auto.
  now destruct (Next y1) as [[[k v] e] y2].
Qed.

Lemma UnionKVIter_limit_Next (m : UnionKVIter.t SX SY) :
  UnionKVIter.limit (snd (UnionKVIter.Next m)) = UnionKVIter.limit m
  \/ UnionKVIter.limit (snd (UnionKVIter.Next m)) = int_wrap (UnionKVIter.limit m - 1).
Proof.
  unfold UnionKVIter.Next. destruct (UnionKVIter.err m); [now left|]. right.
  repeat match goal with
    | |- context [if ?b then _ else _] => destruct b
    end; simpl;
    rewrite ?UnionKVIter_limit_advanceY, ?UnionKVIter_limit_advanceX; reflexivity.
Qed.

Lemma UnionKVIter_limit_pulls (n : nat) :
  forall m : UnionKVIter.t SX SY,
    min_int <= UnionKVIter.limit m <= max_int ->
    exists j, (j <= n)%nat
              /\ UnionKVIter.limit (snd (pulls n m))
                 = int_wrap (UnionKVIter.limit m - Z.of_nat j).
Proof.
  induction n as [|n IH]; intros m Hr.
  - exists 0%nat. split; [lia|]. simpl. rewrite Z.sub_0_r. now rewrite int_wrap_id.
  - assert (Hs : snd (pulls (S n) m) = snd (pulls n (snd (Next m)))).
    { simpl. destruct (UnionKVIter.Next m) as [r s1]. simpl.
      now destruct (pulls n s1). }
    rewrite Hs. change (Next m) with (UnionKVIter.Next m).
    destruct (UnionKVIter_limit_Next m) as [E|E].
    + destruct (IH (snd (UnionKVIter.Next m))) as (j & Hj & El); [rewrite E; lia|].
      exists j. split; [lia|]. now rewrite El, E.
    + destruct (IH (snd (UnionKVIter.Next m))) as (j & Hj & El).
      { rewrite E. apply int_wrap_range. }
      exists (S j). split; [lia|]. rewrite El, E, int_wrap_sub. f_equal. lia.
Qed.

End LimitOfUnion.

Section LimitOfMerged.
Context {SX SY : Type} `{KVS SX} `{KV SY}.

Lemma MergedKV_limit_advanceX (m : MergedKV.t SX SY) :
  MergedKV.limit (MergedKV.advanceX m) = MergedKV.limit m.
Proof.
  unfold MergedKV.advanceX. destruct (MergedKV.err m); auto.
  destruct (HasNext (MergedKV.x m)) as [[] x1]; auto.
  now destruct (Next x1) as [[[[k v] st] e] x2].
Qed.

Lemma MergedKV_limit_advanceY (m : MergedKV.t SX SY) :
  MergedKV.limit (MergedKV.advanceY m) = MergedKV.limit m.
Proof.
  unfold MergedKV.advanceY. destruct (MergedKV.err m); auto.
  destruct (HasNext (MergedKV.y m)) as [[] y1]; auto.
  now destruct (Next y1) as [[[k v] e] y2].
Qed.

Lemma MergedKV_limit_Next (m : MergedKV.t SX SY) :
  MergedKV.limit (snd (MergedKV.Next m)) = MergedKV.limit m
  \/ MergedKV.limit (snd (MergedKV.Next m)) = int_wrap (MergedKV.limit m - 1).
Proof.
  unfold MergedKV.Next. destruct (MergedKV.err m); [now left|]. right.
  repeat match goal with
    | |- context [if ?b then _ else _] => destruct b
    end; simpl;
    rewrite ?MergedKV_limit_advanceY, ?MergedKV_limit_advanceX; reflexivity.
Qed.

Lemma MergedKV_limit_pulls (n : nat) :
  forall m : MergedKV.t SX SY,
    min_int <= MergedKV.limit m <= max_int ->
    exists j, (j <= n)%nat
              /\ MergedKV.limit (snd (pulls n m))
                 = int_wrap (MergedKV.limit m - Z.of_nat j).
Proof.
  induction n as [|n IH]; intros m Hr.
  - exists 0%nat. split; [lia|]. simpl. rewrite Z.sub_0_r. now rewrite int_wrap_id.
  - assert (Hs : snd (pulls (S n) m) = snd (pulls n (snd (Next m)))).
    { simpl. destruct (MergedKV.Next m) as [r s1]. simpl.
      now destruct (pulls n s1). }
    rewrite Hs. change (Next m) with (MergedKV.Next m).
    destruct (MergedKV_limit_Next m) as [E|E].
    + destruct (IH (snd (MergedKV.Next m))) as (j & Hj & El); [rewrite E; lia|].
      exists j. split; [lia|]. now rewrite El, E.
    + destruct (IH (snd (MergedKV.Next m))) as (j & Hj & El).
      { rewrite E. apply int_wrap_range. }
      exists (S j). split; [lia|]. rewrite El, E, int_wrap_sub. f_equal. lia.
Qed.

End LimitOfMerged.

Lemma endlessUnion_Next (limit : Z) :
  snd (Next (endlessUnion limit)) = endlessUnion (int_wrap (limit - 1)).
Proof. reflexivity. Qed.

Lemma endlessUnion_afterPulls (n : N) (limit : Z) :
  min_int <= limit <= max_int ->
  afterPulls n (endlessUnion limit) = endlessUnion (int_wrap (limit - Z.of_N n)).
Proof.
  intros Hr. unfold afterPulls. induction n as [|n IH] using N.peano_ind.
  - simpl. rewrite Z.sub_0_r. now rewrite int_wrap_id.
  - rewrite N.iter_succ, IH, endlessUnion_Next, int_wrap_sub. do 2 f_equal. lia.
Qed.

Lemma afterPulls_UnionKV_RetIter {SX SY} `{KV SX} `{KV SY} (n : N)
    (m : UnionKVIter.t SX SY) :
  afterPulls n (UnionKVIter.RetIter m) = UnionKVIter.RetIter (afterPulls n m).
Proof.
  unfold afterPulls. induction n as [|n IH] using N.peano_ind; [reflexivity|].
  rewrite !N.iter_succ, IH. simpl.
  now destruct (UnionKVIter.Next _).
Qed.

(** The least int as limit turns into the greatest one at the first pull.
    And limit -1 over two endless streams: after 2^64 - 1 pulls the counter
    is zero and HasNext reports false with both lookahead slots filled. *)
Lemma negative_limit_wraps_round :
  (exists m,
      snd (Next (UnionKV (Some (sliceOf sampleX)) (Some (sliceOf sampleY)) min_int))
      = UnionKVIter.RetIter m
      /\ UnionKVIter.limit m = max_int
      /\ 0 < UnionKVIter.limit m)
  /\ (exists m,
      afterPulls (2 ^ 64 - 1) (UnionKV (Some sampleEndless) (Some sampleEndless) (-1))
      = UnionKVIter.RetIter m
      /\ UnionKVIter.limit m = 0
      /\ UnionKVIter.xHasNext m = true /\ UnionKVIter.yHasNext m = true
      /\ UnionKVIter.err m = None
      /\ fst (HasNext m) = false).
Proof.
  split.
  - eexists. repeat split.
  - exists (endlessUnion 0).
    change (UnionKV (Some sampleEndless) (Some sampleEndless) (-1))
      with (UnionKVIter.RetIter (endlessUnion (-1))).
    rewrite afterPulls_UnionKV_RetIter, endlessUnion_afterPulls
      by (unfold min_int, max_int; lia).
    repeat split.
Qed.

(** C10, amended.  For a strictly negative limit L passed at construction of
    UnionKV or MergeKVS and fewer than 2^64 - |L| calls of Next, the limit
    is not zero, so that HasNext reports availability exactly while an error
    is pending or some side has a buffered element; the limit stays negative
    over the first 2^63 - |L| calls (after them the 64-bit counter wraps
    round to the positive range). *)
Theorem negative_limit_keeps_stream_open {SX SY SX3 SY3}
    `{KV SX} `{KV SY} `{KVS SX3} `{KV SY3} (L : Z) (n : nat) :
  min_int <= L < 0 ->
  Z.of_nat n < 2 ^ 64 + L ->
  (forall (x : SX) (y : SY),
      exists m, UnionKV (Some x) (Some y) L = UnionKVIter.RetIter m
                /\ UnionKVIter.limit m = L)
  /\ (forall m : UnionKVIter.t SX SY,
      UnionKVIter.limit m = L ->
      UnionKVIter.limit (snd (pulls n m)) <> 0
      /\ fst (HasNext (snd (pulls n m)))
         = pending (UnionKVIter.err (snd (pulls n m)))
           || UnionKVIter.xHasNext (snd (pulls n m))
           || UnionKVIter.yHasNext (snd (pulls n m))
      /\ (Z.of_nat n <= L - min_int -> UnionKVIter.limit (snd (pulls n m)) < 0))
  /\ (forall (x : SX3) (y : SY3),
      exists m, MergeKVS (Some x) (Some y) L = MergedKV.RetIter m
                /\ MergedKV.limit m = L)
  /\ (forall m : MergedKV.t SX3 SY3,
      MergedKV.limit m = L ->
      MergedKV.limit (snd (pulls n m)) <> 0
      /\ fst (HasNext (snd (pulls n m)))
         = pending (MergedKV.err (snd (pulls n m)))
           || MergedKV.xHasNext (snd (pulls n m))
           || MergedKV.yHasNext (snd (pulls n m))
      /\ (Z.of_nat n <= L - min_int -> MergedKV.limit (snd (pulls n m)) < 0)).
Proof.
  intros HL Hn. unfold min_int, max_int in *. repeat split.
  - intros x y. eexists. split; [reflexivity|].
    now rewrite UnionKVIter_limit_advanceY, UnionKVIter_limit_advanceX.
  - destruct (UnionKVIter_limit_pulls n m) as (j & Hj & El);
      [unfold min_int, max_int; lia|].
    rewrite El. apply int_wrap_nonzero. lia.
  - destruct (UnionKVIter_limit_pulls n m) as (j & Hj & El);
      [unfold min_int, max_int; lia|].
    assert (Hz : UnionKVIter.limit (snd (pulls n m)) <> 0).
    { rewrite El. apply int_wrap_nonzero. lia. }
    simpl. unfold pending. apply Z.eqb_neq in Hz. rewrite Hz. simpl.
    now destruct (UnionKVIter.err _).
  - intros Hneg.
    destruct (UnionKVIter_limit_pulls n m) as (j & Hj & El);
      [unfold min_int, max_int; lia|].
    rewrite El, int_wrap_id; unfold min_int, max_int; lia.
  - intros x y. eexists. split; [reflexivity|].
    now rewrite MergedKV_limit_advanceY, MergedKV_limit_advanceX.
  - destruct (MergedKV_limit_pulls n m) as (j & Hj & El);
      [unfold min_int, max_int; lia|].
    rewrite El. apply int_wrap_nonzero. lia.
  - destruct (MergedKV_limit_pulls n m) as (j & Hj & El);
      [unfold min_int, max_int; lia|].
    assert (Hz : MergedKV.limit (snd (pulls n m)) <> 0).
    { rewrite El. apply int_wrap_nonzero. lia. }
    simpl. unfold pending. apply Z.eqb_neq in Hz. rewrite Hz. simpl.
    now destruct (MergedKV.err _).
  - intros Hneg.
    destruct (MergedKV_limit_pulls n m) as (j & Hj & El);
      [unfold min_int, max_int; lia|].
    rewrite El, int_wrap_id; unfold min_int, max_int; lia.
Qed.

Lemma negative_limit_keeps_stream_open_witness :
  UnionKVIter.limit (snd (pulls 3 (endlessUnion (-1)))) <> 0
  /\ fst (HasNext (snd (pulls 3 (endlessUnion (-1)))))
     = pending (UnionKVIter.err (snd (pulls 3 (endlessUnion (-1)))))
       || UnionKVIter.xHasNext (snd (pulls 3 (endlessUnion (-1))))
       || UnionKVIter.yHasNext (snd (pulls 3 (endlessUnion (-1))))
  /\ (Z.of_nat 3 <= -1 - min_int ->
      UnionKVIter.limit (snd (pulls 3 (endlessUnion (-1)))) < 0).
Proof.
  destruct (@negative_limit_keeps_stream_open
              (Repeat (bytes * bytes)) (Repeat (bytes * bytes))
              (Slice (bytes * bytes * Z)) (Slice (bytes * bytes)) _ _ _ _ (-1) 3%nat)
    as (_ & Hm & _).
  - unfold min_int. lia.
  - lia.
  - apply Hm. reflexivity.
Defined.

(** * Further properties of the adapters and merges *)

(** ** WrapKVIter projects what its child produces *)

Section WrapKVRefinement.
Context {SX : Type} `{KVS SX}.

Lemma wrapKV_advance_rep (m : WrapKVIter.t SX) lx :
  WrapKVIter.err m = None ->
  Produces (WrapKVIter.x m) lx ->
  WrapKVIter.err (WrapKVIter.advance m) = None
  /\ holdsProjected (WrapKVIter.xHasNext (WrapKVIter.advance m))
       (WrapKVIter.xNextK (WrapKVIter.advance m))
       (WrapKVIter.xNextV (WrapKVIter.advance m))
       (WrapKVIter.x (WrapKVIter.advance m)) lx.
Proof.
  intros He Hp. unfold WrapKVIter.advance. rewrite He.
  destruct lx as [|[[k v] st] lx].
  - apply Produces_inv_nil in Hp. destruct Hp as [s' Hh]. rewrite Hh. simpl. auto.
  - apply Produces_inv_cons in Hp. destruct Hp as (s1 & s2 & Hh & Hn & Hp).
    rewrite Hh, Hn. simpl. auto.
Qed.

Lemma WrapKVIter_Produces lx :
  forall m : WrapKVIter.t SX,
    WrapKVIter.err m = None ->
    holdsProjected (WrapKVIter.xHasNext m) (WrapKVIter.xNextK m) (WrapKVIter.xNextV m)
      (WrapKVIter.x m) lx ->
    Produces m (map project lx).
Proof.
  induction lx as [|[[k v] st] lx IH]; intros m He Hx; simpl in Hx.
  - apply Produces_done with (s' := m). simpl. unfold WrapKVIter.HasNext.
    now rewrite He, Hx.
  - destruct Hx as (Eh & Eb & Hp). inversion Eb; subst.
    destruct (wrapKV_advance_rep m He Hp) as [He' Hx'].
    apply Produces_more with (s1 := m) (s2 := WrapKVIter.advance m).
    + simpl. unfold WrapKVIter.HasNext. now rewrite He, Eh.
    + simpl. unfold WrapKVIter.Next. now rewrite He.
    + now apply IH.
Qed.

Lemma WrapKV_Produces (x : SX) lx :
  Produces x lx -> Produces (WrapKV (Some x)) (map project lx).
Proof.
  intros Hp. apply Produces_WrapKV_RetIter.
  destruct (@wrapKV_advance_rep (WrapKVIter.new x) lx) as [He Hx]; auto.
  now apply WrapKVIter_Produces.
Qed.

End WrapKVRefinement.

Lemma project_lift (l : list (bytes * bytes)) : map project (map lift l) = l.
Proof.
  rewrite map_map. rewrite <- (map_id l) at 2. apply map_ext. now intros [k v].
Qed.

(** X1.  WrapKV over a triple stream yields the entries of the stream in
    their order, each without its step. *)
Theorem WrapKV_drops_the_step {SX} `{KVS SX} (x : SX)
    (lx : list (bytes * bytes * Z)) :
  Produces x lx ->
  exists s', drain (S (length lx)) (WrapKV (Some x)) = Some (map project lx, None, s').
Proof.
  intros Hp. apply drain_Produces; [now apply WrapKV_Produces|].
  rewrite length_map. lia.
Qed.

Lemma WrapKV_drops_the_step_witness :
  exists s',
    drain 4 (WrapKV (Some (sliceOf sampleXS))) = Some (map project sampleXS, None, s').
Proof.
  apply (@WrapKV_drops_the_step _ _ (sliceOf sampleXS) sampleXS).
  apply Produces_sliceOf.
Defined.

(** X2.  Lifting a pair stream with WrapKVS and projecting it back with
    WrapKV yields the pairs of the stream unchanged; projecting a triple
    stream and lifting it back yields its entries with every step reset to
    zero. *)
Theorem WrapKV_WrapKVS_round_trip {SX SY} `{KVS SX} `{KV SY} (x : SX) (y : SY)
    (lx : list (bytes * bytes * Z)) (ly : list (bytes * bytes)) :
  Produces x lx -> Produces y ly ->
  (exists s', drain (S (length ly)) (WrapKV (Some (WrapKVS (Some y))))
              = Some (ly, None, s'))
  /\ (exists s', drain (S (length lx)) (WrapKVS (Some (WrapKV (Some x))))
                 = Some (map (fun p => (fst (fst p), snd (fst p), 0)) lx, None, s')).
Proof.
  intros Hx Hy. split.
  - apply drain_Produces; [|lia].
    rewrite <- (project_lift ly).
    now apply WrapKV_Produces, WrapKVS_Produces.
  - apply drain_Produces; [|rewrite length_map; lia].
    replace (map (fun p : bytes * bytes * Z => (fst (fst p), snd (fst p), 0)) lx)
      with (map lift (map project lx)) by (rewrite map_map; reflexivity).
    now apply WrapKVS_Produces, WrapKV_Produces.
Qed.

Lemma WrapKV_WrapKVS_round_trip_witness :
  exists s',
    drain 3 (WrapKV (Some (WrapKVS (Some (sliceOf sampleY))))) = Some (sampleY, None, s').
Proof.
  apply (@WrapKV_WrapKVS_round_trip _ _ _ _ (sliceOf sampleXS) (sliceOf sampleY)
           sampleXS sampleY).
  - apply Produces_sliceOf.
  - apply Produces_sliceOf.
Defined.

(** ** What the merges keep and what they drop *)

Lemma Permutation_mergeList lx ly :
  Permutation (mergeList lx ly) (lx ++ map lift ly).
Proof.
  revert ly. induction lx as [|px lx IHx]; intros ly.
  - rewrite mergeList_nil_l. reflexivity.
  - induction ly as [|py ly IHy].
    + rewrite mergeList_nil_r, app_nil_r. reflexivity.
    + rewrite mergeList_cons. destruct (_ <=? 0).
      * simpl. apply perm_skip. apply IHx.
      * simpl map. etransitivity; [apply perm_skip, IHy|].
        apply (Permutation_middle (px :: lx) (map lift ly) (lift py)).
Qed.

(** X3.  Under a limit that does not cut the output, MergeKVS delivers
    every entry of x and every pair of y (in triple shape with step zero)
    and nothing else, each as often as the inputs hold it -- whether or not
    the inputs are sorted. *)
Theorem MergeKVS_keeps_every_entry {SX SY} `{KVS SX} `{KV SY}
    (x : SX) (y : SY) (lx : list (bytes * bytes * Z)) (ly : list (bytes * bytes))
    (limit : Z) :
  Produces x lx -> Produces y ly ->
  unconstrained limit (length lx + length ly) ->
  exists out s',
    drain (S (length lx + length ly)) (MergeKVS (Some x) (Some y) limit)
    = Some (out, None, s')
    /\ Permutation out (lx ++ map lift ly).
Proof.
  intros Hx Hy Hl. destruct (MergeKVS_drain limit Hx Hy) as [s' Hd].
  exists (mergeList lx ly), s'. split; [|apply Permutation_mergeList].
  rewrite Hd, takeLimit_all; [reflexivity|].
  unfold unconstrained in *. now rewrite length_mergeList.
Qed.

Lemma MergeKVS_keeps_every_entry_witness :
  exists out s',
    drain 6 (MergeKVS (Some (sliceOf sampleXS)) (Some (sliceOf sampleY)) (-1))
    = Some (out, None, s')
    /\ Permutation out (sampleXS ++ map lift sampleY).
Proof.
  apply (@MergeKVS_keeps_every_entry _ _ _ _ (sliceOf sampleXS) (sliceOf sampleY)
           sampleXS sampleY (-1)).
  - apply Produces_sliceOf.
  - apply Produces_sliceOf.
  - unfold unconstrained. vm_compute. discriminate.
Defined.

Lemma In_unionList_r (a : bytes * bytes) lx ly :
  In a ly -> ~ In (fst a) (keys2 lx) -> In a (unionList lx ly).
Proof.
  revert ly. induction lx as [|px lx IHx]; intros ly.
  - now rewrite unionList_nil_l.
  - induction ly as [|py ly IHy]; [easy|].
    rewrite unionList_cons. intros Hin Hk. simpl in Hk.
    destruct (_ <? 0);
      [|destruct (Z.eqb_spec (bytes_Compare (fst px) (fst py)) 0) as [Eeq|Eeq]].
    + right. apply IHx; tauto.
    + apply bytes_Compare_eq in Eeq. destruct Hin as [<-|Hin]; [tauto|].
      right. apply IHx; tauto.
    + destruct Hin as [<-|Hin]; [now left|]. right. apply IHy; auto.
Qed.

(** X4.  Whatever the order of the inputs, and under a limit that does not
    cut the output, UnionKV delivers only pairs that an input holds, every
    pair of x, and every pair of y whose key x does not hold; the keys
    delivered are the keys of x together with the keys of y. *)
Theorem UnionKV_delivers_inputs {SX SY} `{KV SX} `{KV SY}
    (x : SX) (y : SY) (lx ly : list (bytes * bytes)) (limit : Z) :
  Produces x lx -> Produces y ly ->
  unconstrained limit (length lx + length ly) ->
  exists out s',
    drain (S (length lx + length ly)) (UnionKV (Some x) (Some y) limit)
    = Some (out, None, s')
    /\ (forall a, In a out -> In a lx \/ In a ly)
    /\ (forall a, In a lx -> In a out)
    /\ (forall a, In a ly -> ~ In (fst a) (keys2 lx) -> In a out)
    /\ (forall k, In k (keys2 out) <-> In k (keys2 lx) \/ In k (keys2 ly)).
Proof.
  intros Hx Hy Hl. destruct (UnionKV_drain limit Hx Hy) as [s' Hd].
  exists (unionList lx ly), s'. split.
  { rewrite Hd, takeLimit_all; [reflexivity|].
    unfold unconstrained in *. pose proof (length_unionList lx ly). lia. }
  split; [|split; [|split]].
  - intros a Hin. now apply In_unionList.
  - intros a Hin. now apply In_unionList_l.
  - intros a Hin Hk. now apply In_unionList_r.
  - intros k. split.
    + intros Hin. apply in_map_iff in Hin. destruct Hin as (a & <- & Hin).
      apply In_unionList in Hin. destruct Hin; [left|right]; now apply in_map.
    + intros [Hin|Hin].
      * apply in_map_iff in Hin. destruct Hin as (a & <- & Hin).
        apply in_map. now apply In_unionList_l.
      * now apply In_keys_unionList_r.
Qed.

Lemma UnionKV_delivers_inputs_witness :
  exists out s',
    drain 6 (UnionKV (Some (sliceOf sampleX)) (Some (sliceOf sampleY)) (-1))
    = Some (out, None, s')
    /\ (forall a, In a out -> In a sampleX \/ In a sampleY)
    /\ (forall a, In a sampleX -> In a out)
    /\ (forall a, In a sampleY -> ~ In (fst a) (keys2 sampleX) -> In a out)
    /\ (forall k, In k (keys2 out) <-> In k (keys2 sampleX) \/ In k (keys2 sampleY)).
Proof.
  apply (@UnionKV_delivers_inputs _ _ _ _ (sliceOf sampleX) (sliceOf sampleY)
           sampleX sampleY (-1)).
  - apply Produces_sliceOf.
  - apply Produces_sliceOf.
  - unfold unconstrained. vm_compute. discriminate.
Defined.

(** X5.  For inputs with strictly ascending keys, and under a limit that
    does not cut the output, the union is x laid over y: a pair is delivered
    exactly when x holds it, or y holds it and x does not hold its key. *)
Theorem UnionKV_is_x_over_y {SX SY} `{KV SX} `{KV SY}
    (x : SX) (y : SY) (lx ly : list (bytes * bytes)) (limit : Z) :
  Produces x lx -> Produces y ly ->
  ascending (keys2 lx) -> ascending (keys2 ly) ->
  unconstrained limit (length lx + length ly) ->
  exists out s',
    drain (S (length lx + length ly)) (UnionKV (Some x) (Some y) limit)
    = Some (out, None, s')
    /\ forall a, In a out <-> In a lx \/ (In a ly /\ ~ In (fst a) (keys2 lx)).
Proof.
  intros Hx Hy Sx Sy Hl. destruct (UnionKV_drain limit Hx Hy) as [s' Hd].
  exists (unionList lx ly), s'. split.
  { rewrite Hd, takeLimit_all; [reflexivity|].
    unfold unconstrained in *. pose proof (length_unionList lx ly). lia. }
  assert (Hnd : NoDup (keys2 (unionList lx ly))).
  { apply ascending_NoDup.
    apply (sorted_unionList bytes_lt_trans (fun a b H => H)); auto. }
  intros [k v]. split.
  - intros Hin. destruct (@In_unionList (k, v) lx ly Hin) as [Hl'|Hr]; [now left|].
    destruct (in_dec bytes_eq_dec k (keys2 lx)) as [Hk|Hk]; [|right; now split].
    left. apply in_map_iff in Hk. destruct Hk as ([k' vx] & Ek & Hinx).
    simpl in Ek. subst k'.
    pose proof (@filter_hasKey2_unique k vx (unionList lx ly) Hnd
                  (@In_unionList_l (k, vx) lx ly Hinx)) as Hf.
    assert (Hv : In (k, v) (filter (hasKey2 k) (unionList lx ly))).
    { apply filter_In. split; [exact Hin|].
      unfold hasKey2. simpl. now rewrite bytes_Compare_refl. }
    rewrite Hf in Hv. destruct Hv as [Hv|[]]. now rewrite <- Hv.
  - intros [Hin|[Hin Hk]]; [now apply In_unionList_l | now apply In_unionList_r].
Qed.

Lemma UnionKV_is_x_over_y_witness :
  exists out s',
    drain 6 (UnionKV (Some (sliceOf sampleX)) (Some (sliceOf sampleY)) (-1))
    = Some (out, None, s')
    /\ forall a, In a out <-> In a sampleX \/ (In a sampleY /\ ~ In (fst a) (keys2 sampleX)).
Proof.
  apply (@UnionKV_is_x_over_y _ _ _ _ (sliceOf sampleX) (sliceOf sampleY)
           sampleX sampleY (-1)).
  - apply Produces_sliceOf.
  - apply Produces_sliceOf.
  - unfold ascending, bytes_lt. simpl. sorted_tac.
  - unfold ascending, bytes_lt. simpl. sorted_tac.
  - unfold unconstrained. vm_compute. discriminate.
Defined.

(** ** The limit as a cut *)

Lemma takeLimit_firstn {A} (l : list A) (limit : Z) :
  0 <= limit <= max_int -> takeLimit limit l = firstn (Z.to_nat limit) l.
Proof.
  revert limit. induction l as [|a l IH]; intros limit Hl; simpl takeLimit.
  - now rewrite firstn_nil.
  - destruct (Z.eqb_spec limit 0) as [->|Hne]; [reflexivity|].
    rewrite int_wrap_id by (unfold min_int, max_int in *; lia).
    rewrite IH by lia.
    replace (Z.to_nat limit) with (S (Z.to_nat (limit - 1))) by lia.
    reflexivity.
Qed.

(** X6.  A limit L >= 0 only cuts the tail: the output of UnionKV and of
    MergeKVS under L is the first L elements of their output under a limit
    that does not cut (nothing for L = 0). *)
Theorem limit_cuts_a_prefix {SX SY SX3 SY3} `{KV SX} `{KV SY} `{KVS SX3} `{KV SY3}
    (x : SX) (y : SY) (x3 : SX3) (y3 : SY3)
    (lx ly ly3 : list (bytes * bytes)) (lx3 : list (bytes * bytes * Z))
    (L U : Z) :
  0 <= L <= max_int ->
  unconstrained U (length lx + length ly) ->
  unconstrained U (length lx3 + length ly3) ->
  Produces x lx -> Produces y ly -> Produces x3 lx3 -> Produces y3 ly3 ->
  (exists full out s1 s2,
      drain (S (length lx + length ly)) (UnionKV (Some x) (Some y) U)
      = Some (full, None, s1)
      /\ drain (S (length lx + length ly)) (UnionKV (Some x) (Some y) L)
         = Some (out, None, s2)
      /\ out = firstn (Z.to_nat L) full)
  /\ (exists full out s1 s2,
      drain (S (length lx3 + length ly3)) (MergeKVS (Some x3) (Some y3) U)
      = Some (full, None, s1)
      /\ drain (S (length lx3 + length ly3)) (MergeKVS (Some x3) (Some y3) L)
         = Some (out, None, s2)
      /\ out = firstn (Z.to_nat L) full).
Proof.
  intros HL HU HU3 Hx Hy Hx3 Hy3. split.
  - destruct (UnionKV_drain U Hx Hy) as [s1 Hd1].
    destruct (UnionKV_drain L Hx Hy) as [s2 Hd2].
    exists (unionList lx ly), (takeLimit L (unionList lx ly)), s1, s2.
    split; [|split; [exact Hd2 | now apply takeLimit_firstn]].
    rewrite Hd1, takeLimit_all; [reflexivity|].
    unfold unconstrained in *. pose proof (length_unionList lx ly). lia.
  - destruct (MergeKVS_drain U Hx3 Hy3) as [s1 Hd1].
    destruct (MergeKVS_drain L Hx3 Hy3) as [s2 Hd2].
    exists (mergeList lx3 ly3), (takeLimit L (mergeList lx3 ly3)), s1, s2.
    split; [|split; [exact Hd2 | now apply takeLimit_firstn]].
    rewrite Hd1, takeLimit_all; [reflexivity|].
    unfold unconstrained in *. now rewrite length_mergeList.
Qed.

Lemma limit_cuts_a_prefix_witness :
  exists full out s1 s2,
    drain 6 (UnionKV (Some (sliceOf sampleX)) (Some (sliceOf sampleY)) (-1))
    = Some (full, None, s1)
    /\ drain 6 (UnionKV (Some (sliceOf sampleX)) (Some (sliceOf sampleY)) 2)
       = Some (out, None, s2)
    /\ out = firstn (Z.to_nat 2) full.
Proof.
  apply (@limit_cuts_a_prefix _ _ _ _ _ _ _ _
           (sliceOf sampleX) (sliceOf sampleY) (sliceOf sampleXS) (sliceOf sampleY)
           sampleX sampleY sampleY sampleXS 2 (-1)).
  - unfold max_int. lia.
  - unfold unconstrained. vm_compute. discriminate.
  - unfold unconstrained. vm_compute. discriminate.
  - apply Produces_sliceOf.
  - apply Produces_sliceOf.
  - apply Produces_sliceOf.
  - apply Produces_sliceOf.
Defined.

(** X7.  A side that is present but has nothing to yield is not an absent
    side: the limit applies.  UnionKV and MergeKVS over x and an exhausted y
    yield the first L elements of x, and over an exhausted x and y the first
    L pairs of y (in triple shape with step zero for MergeKVS). *)
Theorem exhausted_side_keeps_the_limit {SX SY SX3} `{KV SX} `{KV SY} `{KVS SX3}
    (x ex : SX) (y ey : SY) (x3 ex3 : SX3)
    (lx ly : list (bytes * bytes)) (lx3 : list (bytes * bytes * Z)) (L : Z) :
  0 <= L <= max_int ->
  Produces x lx -> Produces y ly -> Produces x3 lx3 ->
  Produces ex [] -> Produces ey [] -> Produces ex3 [] ->
  (exists s', drain (S (length lx)) (UnionKV (Some x) (Some ey) L)
              = Some (firstn (Z.to_nat L) lx, None, s'))
  /\ (exists s', drain (S (length ly)) (UnionKV (Some ex) (Some y) L)
                 = Some (firstn (Z.to_nat L) ly, None, s'))
  /\ (exists s', drain (S (length lx3)) (MergeKVS (Some x3) (Some ey) L)
                 = Some (firstn (Z.to_nat L) lx3, None, s'))
  /\ (exists s', drain (S (length ly)) (MergeKVS (Some ex3) (Some y) L)
                 = Some (firstn (Z.to_nat L) (map lift ly), None, s')).
Proof.
  intros HL Hx Hy Hx3 Hex Hey Hex3. repeat split.
  - destruct (UnionKV_drain L Hx Hey) as [s' Hd]. exists s'.
    rewrite unionList_nil_r, takeLimit_firstn in Hd by exact HL.
    simpl in Hd. now rewrite Nat.add_0_r in Hd.
  - destruct (UnionKV_drain L Hex Hy) as [s' Hd]. exists s'.
    rewrite unionList_nil_l, takeLimit_firstn in Hd by exact HL. exact Hd.
  - destruct (MergeKVS_drain L Hx3 Hey) as [s' Hd]. exists s'.
    rewrite mergeList_nil_r, takeLimit_firstn in Hd by exact HL.
    simpl in Hd. now rewrite Nat.add_0_r in Hd.
  - destruct (MergeKVS_drain L Hex3 Hy) as [s' Hd]. exists s'.
    rewrite mergeList_nil_l, takeLimit_firstn in Hd by exact HL. exact Hd.
Qed.

Lemma exhausted_side_keeps_the_limit_witness :
  exists s',
    drain 4 (UnionKV (Some (sliceOf sampleX)) (Some (sliceOf (@nil (bytes * bytes)))) 1)
    = Some (firstn (Z.to_nat 1) sampleX, None, s').
Proof.
  apply (@exhausted_side_keeps_the_limit _ _ _ _ _ _
           (sliceOf sampleX) (sliceOf []) (sliceOf sampleY) (sliceOf [])
           (sliceOf sampleXS) (sliceOf [])
           sampleX sampleY sampleXS 1).
  - unfold max_int. lia.
  - apply Produces_sliceOf.
  - apply Produces_sliceOf.
  - apply Produces_sliceOf.
  - apply (Produces_sliceOf []).
  - apply (Produces_sliceOf []).
  - apply (Produces_sliceOf []).
Defined.

Lemma unionList_same (l : list (bytes * bytes)) : unionList l l = l.
Proof.
  induction l as [|p l IH]; [reflexivity|].
  rewrite unionList_cons, bytes_Compare_refl. simpl. now rewrite IH.
Qed.

(** X8.  The union of two streams that yield the same pairs yields those
    pairs once, under a limit that does not cut the output. *)
Theorem UnionKV_of_equal_streams {SX SY} `{KV SX} `{KV SY}
    (x : SX) (y : SY) (l : list (bytes * bytes)) (limit : Z) :
  Produces x l -> Produces y l ->
  unconstrained limit (length l + length l) ->
  exists s',
    drain (S (length l + length l)) (UnionKV (Some x) (Some y) limit)
    = Some (l, None, s').
Proof.
  intros Hx Hy Hl. destruct (UnionKV_drain limit Hx Hy) as [s' Hd].
  exists s'. rewrite Hd, unionList_same, takeLimit_all; [reflexivity|].
  unfold unconstrained in *. lia.
Qed.

Lemma UnionKV_of_equal_streams_witness :
  exists s',
    drain 7 (UnionKV (Some (sliceOf sampleX)) (Some (sliceOf sampleX)) (-1))
    = Some (sampleX, None, s').
Proof.
  apply (@UnionKV_of_equal_streams _ _ _ _ (sliceOf sampleX) (sliceOf sampleX)
           sampleX (-1)).
  - apply Produces_sliceOf.
  - apply Produces_sliceOf.
  - unfold unconstrained. vm_compute. discriminate.
Defined.

(** ** Failures under the consumer loop *)

Lemma drain_embed {E St St'} {HS : Stream E St} {HS' : Stream E St'} (f : St -> St') :
  (forall s, HasNext (f s) = (fst (HasNext s), f (snd (HasNext s)))) ->
  (forall s, Next (f s) = (fst (Next s), f (snd (Next s)))) ->
  forall fuel s,
    drain fuel (f s)
    = match drain fuel s with
      | Some (l, r, s') => Some (l, r, f s')
      | None => None
      end.
Proof.
  intros Hh Hn. induction fuel as [|fuel IH]; intros s; [reflexivity|].
  simpl. rewrite Hh. destruct (HasNext s) as [[] s1]; simpl; [|reflexivity].
  rewrite Hn. destruct (Next s1) as [[a [e|]] s2]; simpl; [reflexivity|].
  rewrite IH. now destruct (drain fuel s2) as [[[l r] s3]|].
Qed.

Ltac embed_drain :=
  apply drain_embed; intros s; simpl; try reflexivity;
  match goal with |- context [let (_, _) := ?e in _] => destruct e end;
  reflexivity.

Lemma drain_WrapKVS_RetIter {SY} `{KV SY} fuel (m : WrapKVSIter.t SY) :
  drain fuel (WrapKVSIter.RetIter m)
  = match drain fuel m with
    | Some (l, r, s') => Some (l, r, WrapKVSIter.RetIter s')
    | None => None
    end.
Proof. revert fuel m. embed_drain. Qed.

Lemma drain_WrapKV_RetIter {SX} `{KVS SX} fuel (m : WrapKVIter.t SX) :
  drain fuel (WrapKVIter.RetIter m)
  = match drain fuel m with
    | Some (l, r, s') => Some (l, r, WrapKVIter.RetIter s')
    | None => None
    end.
Proof. revert fuel m. embed_drain. Qed.

Section FailingChild.
Context {SX SY : Type} `{KVS SX} `{KV SY}.

Lemma Fails_inv_nil {E St} `{Stream E St} (s : St) e :
  Fails s [] e ->
  exists s1 s2 a, HasNext s = (true, s1) /\ Next s1 = ((a, Some e), s2).
Proof. inversion 1; subst; eauto. Qed.

Lemma Fails_inv_cons {E St} `{Stream E St} (s : St) a l e :
  Fails s (a :: l) e ->
  exists s1 s2, HasNext s = (true, s1) /\ Next s1 = ((a, None), s2) /\ Fails s2 l e.
Proof. inversion 1; subst; eauto. Qed.

Lemma wrapKVS_advance_fails (m : WrapKVSIter.t SY) l e :
  WrapKVSIter.err m = None ->
  Fails (WrapKVSIter.y m) l e ->
  match l with
  | [] => WrapKVSIter.err (WrapKVSIter.advance m) = Some e
  | p :: l' =>
      WrapKVSIter.err (WrapKVSIter.advance m) = None
      /\ WrapKVSIter.yHasNext (WrapKVSIter.advance m) = true
      /\ (WrapKVSIter.yNextK (WrapKVSIter.advance m),
          WrapKVSIter.yNextV (WrapKVSIter.advance m)) = p
      /\ Fails (WrapKVSIter.y (WrapKVSIter.advance m)) l' e
  end.
Proof.
  intros He Hf. unfold WrapKVSIter.advance. rewrite He.
  destruct l as [|[k v] l].
  - apply Fails_inv_nil in Hf. destruct Hf as (s1 & s2 & [k v] & Hh & Hn).
    now rewrite Hh, Hn.
  - apply Fails_inv_cons in Hf. destruct Hf as (s1 & s2 & Hh & Hn & Hf).
    rewrite Hh, Hn. simpl. auto.
Qed.

Lemma WrapKVSIter_drain_step (m : WrapKVSIter.t SY) fuel :
  WrapKVSIter.err m = None -> WrapKVSIter.yHasNext m = true ->
  drain (S fuel) m
  = match drain fuel (WrapKVSIter.advance m) with
    | Some (l, r, s3) =>
        Some ((WrapKVSIter.yNextK m, WrapKVSIter.yNextV m, 0) :: l, r, s3)
    | None => None
    end.
Proof.
  intros He Eh. simpl. unfold WrapKVSIter.HasNext, WrapKVSIter.Next.
  now rewrite He, Eh.
Qed.

Lemma WrapKVSIter_drain_latched (m : WrapKVSIter.t SY) fuel e :
  WrapKVSIter.err m = Some e ->
  drain (S fuel) m = Some ([], Some e, m).
Proof.
  intros He. simpl. unfold WrapKVSIter.HasNext, WrapKVSIter.Next.
  now rewrite He.
Qed.

Lemma WrapKVSIter_drain_fails l e :
  forall m : WrapKVSIter.t SY,
    WrapKVSIter.err m = None ->
    Fails (WrapKVSIter.y m) l e ->
    exists m', drain (S (length l)) (WrapKVSIter.advance m)
               = Some (map lift l, Some e, m').
Proof.
  induction l as [|[k v] l IH]; intros m He Hf;
    pose proof (wrapKVS_advance_fails m He Hf) as Ha; cbv beta iota in Ha.
  - exists (WrapKVSIter.advance m). now apply WrapKVSIter_drain_latched.
  - destruct Ha as (He' & Eh & Eb & Hf'). inversion Eb as [[Ek Ev]].
    destruct (IH (WrapKVSIter.advance m) He' Hf') as [m' Hd].
    exists m'. simpl length.
    rewrite WrapKVSIter_drain_step, Hd by assumption. reflexivity.
Qed.

Lemma wrapKV_advance_fails (m : WrapKVIter.t SX) l e :
  WrapKVIter.err m = None ->
  Fails (WrapKVIter.x m) l e ->
  match l with
  | [] => WrapKVIter.err (WrapKVIter.advance m) = Some e
  | p :: l' =>
      WrapKVIter.err (WrapKVIter.advance m) = None
      /\ WrapKVIter.xHasNext (WrapKVIter.advance m) = true
      /\ (WrapKVIter.xNextK (WrapKVIter.advance m),
          WrapKVIter.xNextV (WrapKVIter.advance m)) = project p
      /\ Fails (WrapKVIter.x (WrapKVIter.advance m)) l' e
  end.
Proof.
  intros He Hf. unfold WrapKVIter.advance. rewrite He.
  destruct l as [|[[k v] st] l].
  - apply Fails_inv_nil in Hf. destruct Hf as (s1 & s2 & [[k v] st] & Hh & Hn).
    now rewrite Hh, Hn.
  - apply Fails_inv_cons in Hf. destruct Hf as (s1 & s2 & Hh & Hn & Hf).
    rewrite Hh, Hn. simpl. auto.
Qed.

Lemma WrapKVIter_drain_step (m : WrapKVIter.t SX) fuel :
  WrapKVIter.err m = None -> WrapKVIter.xHasNext m = true ->
  drain (S fuel) m
  = match drain fuel (WrapKVIter.advance m) with
    | Some (l, r, s3) =>
        Some ((WrapKVIter.xNextK m, WrapKVIter.xNextV m) :: l, r, s3)
    | None => None
    end.
Proof.
  intros He Eh. simpl. unfold WrapKVIter.HasNext, WrapKVIter.Next.
  now rewrite He, Eh.
Qed.

Lemma WrapKVIter_drain_latched (m : WrapKVIter.t SX) fuel e :
  WrapKVIter.err m = Some e ->
  drain (S fuel) m = Some ([], Some e, m).
Proof.
  intros He. simpl. unfold WrapKVIter.HasNext, WrapKVIter.Next.
  now rewrite He.
Qed.

Lemma WrapKVIter_drain_fails l e :
  forall m : WrapKVIter.t SX,
    WrapKVIter.err m = None ->
    Fails (WrapKVIter.x m) l e ->
    exists m', drain (S (length l)) (WrapKVIter.advance m)
               = Some (map project l, Some e, m').
Proof.
  induction l as [|[[k v] st] l IH]; intros m He Hf;
    pose proof (wrapKV_advance_fails m He Hf) as Ha; cbv beta iota in Ha.
  - exists (WrapKVIter.advance m). now apply WrapKVIter_drain_latched.
  - destruct Ha as (He' & Eh & Eb & Hf'). inversion Eb as [[Ek Ev]].
    destruct (IH (WrapKVIter.advance m) He' Hf') as [m' Hd].
    exists m'. simpl length.
    rewrite WrapKVIter_drain_step, Hd by assumption. reflexivity.
Qed.

End FailingChild.

Lemma Fails_mkSlice {E} `{Zero E} (l : list E) (a : E) (e : error)
    (rest : list (E * option error)) :
  Fails (mkSlice (map (fun b => (b, None)) l ++ (a, Some e) :: rest)) l e.
Proof.
  induction l as [|b l IH]; simpl.
  - eapply Fails_now; reflexivity.
  - eapply Fails_later; [reflexivity | reflexivity | exact IH].
Qed.

(** X9.  When the stream under WrapKVS or WrapKV fails after some
    elements, the consumer loop receives exactly those elements, in order
    and in the shape of the adapter, and then the error of the stream: the
    lookahead neither drops an element before the error nor delivers the
    error early. *)
Theorem adapters_deliver_then_fail {SX SY} `{KVS SX} `{KV SY} (x : SX) (y : SY)
    (lx : list (bytes * bytes * Z)) (ly : list (bytes * bytes)) (ex ey : error) :
  Fails x lx ex -> Fails y ly ey ->
  (exists s', drain (S (length ly)) (WrapKVS (Some y))
              = Some (map lift ly, Some ey, s'))
  /\ (exists s', drain (S (length lx)) (WrapKV (Some x))
                 = Some (map project lx, Some ex, s')).
Proof.
  intros Hx Hy. split.
  - destruct (@WrapKVSIter_drain_fails _ _ ly ey (WrapKVSIter.new y) eq_refl Hy)
      as [m' Hd].
    exists (WrapKVSIter.RetIter m'). unfold WrapKVS.
    now rewrite drain_WrapKVS_RetIter, Hd.
  - destruct (@WrapKVIter_drain_fails _ _ lx ex (WrapKVIter.new x) eq_refl Hx)
      as [m' Hd].
    exists (WrapKVIter.RetIter m'). unfold WrapKV.
    now rewrite drain_WrapKV_RetIter, Hd.
Qed.

Lemma adapters_deliver_then_fail_witness :
  exists s',
    drain 2 (WrapKVS (Some sampleFailing))
    = Some (map lift [(["a"%byte], ["1"%byte])], Some (Err "read failed"), s').
Proof.
  apply (@adapters_deliver_then_fail _ _ _ _ sampleFailingS sampleFailing
           [(["a"%byte], ["1"%byte], 10)] [(["a"%byte], ["1"%byte])]
           (Err "read failed") (Err "read failed")).
  - apply (Fails_mkSlice [(["a"%byte], ["1"%byte], 10)]).
  - apply (Fails_mkSlice [(["a"%byte], ["1"%byte])]).
Defined.

Section TransformDrain.
Context {St : Type} `{KV St}.
Variable transform : bytes -> bytes -> Z * option error.

Lemma TransformKV2U64_drain_end (c c' : St) fuel :
  HasNext c = (false, c') ->
  drain (S fuel) (TransformKV2U64 c transform)
  = Some ([], None, TransformKV2U64 c' transform).
Proof.
  intros Hh. simpl. unfold TransformKV2U64Iter.HasNext. simpl. now rewrite Hh.
Qed.

Lemma TransformKV2U64_drain_child_error (c c1 c2 : St) fuel k v e :
  HasNext c = (true, c1) -> Next c1 = ((k, v), Some e, c2) ->
  drain (S fuel) (TransformKV2U64 c transform)
  = Some ([], Some e, TransformKV2U64 c2 transform).
Proof.
  intros Hh Hn. simpl. unfold TransformKV2U64Iter.HasNext, TransformKV2U64Iter.Next.
  simpl. rewrite Hh. simpl. now rewrite Hn.
Qed.

Lemma TransformKV2U64_drain_step (c c1 c2 : St) fuel k v :
  HasNext c = (true, c1) -> Next c1 = ((k, v), None, c2) ->
  drain (S fuel) (TransformKV2U64 c transform)
  = match transform k v with
    | (u, Some e) => Some ([], Some e, TransformKV2U64 c2 transform)
    | (u, None) =>
        match drain fuel (TransformKV2U64 c2 transform) with
        | Some (l, r, s3) => Some (u :: l, r, s3)
        | None => None
        end
    end.
Proof.
  intros Hh Hn. simpl. unfold TransformKV2U64Iter.HasNext, TransformKV2U64Iter.Next.
  simpl. rewrite Hh. simpl. rewrite Hn.
  now destruct (transform k v) as [u [e|]].
Qed.

Lemma TransformKV2U64_drain_Produces (c : St) l :
  Produces c l ->
  exists t',
    drain (S (length l)) (TransformKV2U64 c transform)
    = Some (fst (mapUntilFailure transform l), snd (mapUntilFailure transform l), t').
Proof.
  induction 1 as [s s' Hh | s s1 s2 [k v] l Hh Hn Hp IH].
  - exists (TransformKV2U64 s' transform).
    exact (@TransformKV2U64_drain_end s s' 0 Hh).
  - destruct IH as [t' IH]. simpl length.
    rewrite (@TransformKV2U64_drain_step s s1 s2 _ k v Hh Hn).
    simpl mapUntilFailure.
    destruct (transform k v) as [u [e|]]; [eexists; reflexivity|].
    rewrite IH. exists t'. now destruct (mapUntilFailure transform l).
Qed.

Lemma TransformKV2U64_drain_Fails (c : St) l e :
  Fails c l e ->
  exists t',
    drain (S (length l)) (TransformKV2U64 c transform)
    = Some (fst (mapUntilFailure transform l),
            Some (match snd (mapUntilFailure transform l) with
                  | Some e' => e'
                  | None => e
                  end), t').
Proof.
  induction 1 as [s s1 s2 [k v] e Hh Hn | s s1 s2 [k v] l e Hh Hn Hp IH].
  - exists (TransformKV2U64 s2 transform).
    exact (@TransformKV2U64_drain_child_error s s1 s2 0 k v e Hh Hn).
  - destruct IH as [t' IH]. simpl length.
    rewrite (@TransformKV2U64_drain_step s s1 s2 _ k v Hh Hn).
    simpl mapUntilFailure.
    destruct (transform k v) as [u [e'|]]; [eexists; reflexivity|].
    rewrite IH. exists t'. now destruct (mapUntilFailure transform l).
Qed.

End TransformDrain.

(** X10.  The consumer loop over TransformKV2U64 receives the values of the
    mapping in the order of the child, up to the first failure, and that
    failure as its error: the error of the first element the mapping fails
    on, or else the error of the child when the child fails. *)
Theorem TransformKV2U64_stops_at_first_failure {St St'} `{KV St} `{KV St'}
    (child : St) (failing : St') (l l' : list (bytes * bytes)) (e : error)
    (transform : bytes -> bytes -> Z * option error) :
  Produces child l -> Fails failing l' e ->
  (exists t',
      drain (S (length l)) (TransformKV2U64 child transform)
      = Some (fst (mapUntilFailure transform l),
              snd (mapUntilFailure transform l), t'))
  /\ (exists t',
      drain (S (length l')) (TransformKV2U64 failing transform)
      = Some (fst (mapUntilFailure transform l'),
              Some (match snd (mapUntilFailure transform l') with
                    | Some e' => e'
                    | None => e
                    end), t')).
Proof.
  intros Hp Hf. split.
  - now apply TransformKV2U64_drain_Produces.
  - now apply TransformKV2U64_drain_Fails.
Qed.

Lemma TransformKV2U64_stops_at_first_failure_witness :
  exists t',
    drain 3 (TransformKV2U64 (sliceOf sampleY) sampleTransform)
    = Some (fst (mapUntilFailure sampleTransform sampleY),
            snd (mapUntilFailure sampleTransform sampleY), t').
Proof.
  apply (@TransformKV2U64_stops_at_first_failure _ _ _ _
           (sliceOf sampleY) sampleFailing sampleY [(["a"%byte], ["1"%byte])]
           (Err "read failed") sampleTransform).
  - apply Produces_sliceOf.
  - apply (Fails_mkSlice [(["a"%byte], ["1"%byte])]).
Defined.

(** ** A union whose first stream fails *)

Lemma drain_step_ok {E St} `{Stream E St} (s s1 s2 : St) (a : E) fuel :
  HasNext s = (true, s1) -> Next s1 = ((a, None), s2) ->
  drain (S fuel) s
  = match drain fuel s2 with
    | Some (l, r, s3) => Some (a :: l, r, s3)
    | None => None
    end.
Proof. intros Hh Hn. simpl. now rewrite Hh, Hn. Qed.

Lemma drain_step_error {E St} `{Stream E St} (s s1 s2 : St) (a : E) e fuel :
  HasNext s = (true, s1) -> Next s1 = ((a, Some e), s2) ->
  drain (S fuel) s = Some ([], Some e, s2).
Proof. intros Hh Hn. simpl. now rewrite Hh, Hn. Qed.

Lemma drain_UnionKV_RetIter {SX SY} `{KV SX} `{KV SY} fuel (m : UnionKVIter.t SX SY) :
  drain fuel (UnionKVIter.RetIter m)
  = match drain fuel m with
    | Some (l, r, s') => Some (l, r, UnionKVIter.RetIter s')
    | None => None
    end.
Proof. revert fuel m. embed_drain. Qed.

Ltac failsX_done :=
  split; [reflexivity|]; split; [assumption|];
  repeat split; auto;
  try (now rewrite ?unionList_nil_r);
  try (now rewrite ?UnionKVIter_limit_advanceY, ?UnionKVIter_limit_advanceX);
  try (simpl; lia);
  try (simpl; intros b [Hb|Hb]; [subst b; left; reflexivity | right; exact Hb]; fail);
  try (simpl; intros b [->|Hb]; auto; fail);
  try (simpl; tauto);
  try (simpl; auto; fail).

Section UnionFailingX.
Context {SX SY : Type} `{KV SX} `{KV SY}.

Lemma union_advanceX_failsX (m : UnionKVIter.t SX SY) lx ly e :
  UnionKVIter.err m = None ->
  Fails (UnionKVIter.x m) lx e ->
  holds2 (UnionKVIter.yHasNext m) (UnionKVIter.yNextK m) (UnionKVIter.yNextV m)
    (UnionKVIter.y m) ly ->
  UnionRepFailsX (UnionKVIter.advanceX m) lx ly e.
Proof.
  intros He Hf Hy. unfold UnionKVIter.advanceX, UnionRepFailsX. rewrite He.
  destruct lx as [|[k v] lx].
  - apply Fails_inv_nil in Hf. destruct Hf as (s1 & s2 & [k v] & Hh & Hn).
    now rewrite Hh, Hn.
  - apply Fails_inv_cons in Hf. destruct Hf as (s1 & s2 & Hh & Hn & Hf).
    rewrite Hh, Hn. simpl. repeat split; auto.
Qed.

Lemma union_advanceY_failsX (m : UnionKVIter.t SX SY) px lx ly ly' e :
  UnionRepFailsX m (px :: lx) ly' e ->
  Produces (UnionKVIter.y m) ly ->
  UnionRepFailsX (UnionKVIter.advanceY m) (px :: lx) ly e.
Proof.
  intros (He & Eh & Eb & Hf & _) Hp. unfold UnionKVIter.advanceY, UnionRepFailsX.
  rewrite He. destruct ly as [|[k v] ly].
  - apply Produces_inv_nil in Hp. destruct Hp as [s' Hh]. rewrite Hh. simpl.
    repeat split; auto.
  - apply Produces_inv_cons in Hp. destruct Hp as (s1 & s2 & Hh & Hn & Hp).
    rewrite Hh, Hn. simpl. repeat split; auto.
Qed.

Lemma union_advanceY_latched (m : UnionKVIter.t SX SY) e :
  UnionKVIter.err m = Some e -> UnionKVIter.advanceY m = m.
Proof. intros He. unfold UnionKVIter.advanceY. now rewrite He. Qed.

Lemma union_Next_failsX (m : UnionKVIter.t SX SY) px lx ly e :
  UnionRepFailsX m (px :: lx) ly e ->
  exists a lx2 ly2 m2,
    UnionKVIter.Next m = ((a, None), m2)
    /\ UnionRepFailsX m2 lx2 ly2 e
    /\ unionList (px :: lx) ly = a :: unionList lx2 ly2
    /\ UnionKVIter.limit m2 = int_wrap (UnionKVIter.limit m - 1)
    /\ (length lx2 + length ly2 < length (px :: lx) + length ly)%nat
    /\ (forall b, In b (px :: lx) -> b = a \/ In b lx2)
    /\ (forall b, In b ly2 -> In b ly).
Proof.
  intros Hr. pose proof Hr as (He & Eh & Eb & Hf & Hy). subst px.
  pose (px := (UnionKVIter.xNextK m, UnionKVIter.xNextV m)).
  unfold UnionKVIter.Next. rewrite He.
  change (UnionKVIter.xHasNext (UnionKVIter.decLimit m)) with (UnionKVIter.xHasNext m).
  change (UnionKVIter.yHasNext (UnionKVIter.decLimit m)) with (UnionKVIter.yHasNext m).
  change (UnionKVIter.xNextK (UnionKVIter.decLimit m)) with (UnionKVIter.xNextK m).
  change (UnionKVIter.xNextV (UnionKVIter.decLimit m)) with (UnionKVIter.xNextV m).
  change (UnionKVIter.yNextK (UnionKVIter.decLimit m)) with (UnionKVIter.yNextK m).
  change (UnionKVIter.yNextV (UnionKVIter.decLimit m)) with (UnionKVIter.yNextV m).
  change (UnionKVIter.err (UnionKVIter.decLimit m)) with (UnionKVIter.err m).
  rewrite Eh, He.
  destruct ly as [|[ky vy] ly].
  - (* y is exhausted *)
    simpl in Hy. rewrite Hy. simpl.
    assert (Hrep : UnionRepFailsX (UnionKVIter.advanceX (UnionKVIter.decLimit m)) lx [] e)
      by (apply union_advanceX_failsX; simpl; auto).
    exists px, lx, [], (UnionKVIter.advanceX (UnionKVIter.decLimit m)).
    failsX_done.
  - destruct Hy as (Ey & Eby & Hpy). inversion Eby as [[Eky Evy]].
    rewrite Ey. simpl. rewrite unionList_cons.
    simpl fst. rewrite ?Eky, ?Evy.
    destruct (bytes_Compare (UnionKVIter.xNextK m) ky <? 0).
    + assert (Hrep : UnionRepFailsX (UnionKVIter.advanceX (UnionKVIter.decLimit m))
                       lx ((ky, vy) :: ly) e)
        by (apply union_advanceX_failsX; simpl; auto).
      exists px, lx, ((ky, vy) :: ly), (UnionKVIter.advanceX (UnionKVIter.decLimit m)).
      failsX_done.
    + destruct (bytes_Compare (UnionKVIter.xNextK m) ky =? 0).
      * pose proof (@union_advanceX_failsX (UnionKVIter.decLimit m) lx
                      ((ky, vy) :: ly) e He Hf
                      (conj Ey (conj Eby Hpy))) as Hx.
        assert (Hrep : UnionRepFailsX
                         (UnionKVIter.advanceY
                            (UnionKVIter.advanceX (UnionKVIter.decLimit m)))
                         lx ly e).
        { destruct lx as [|px' lx'].
          - simpl in Hx. rewrite (union_advanceY_latched _ Hx). exact Hx.
          - apply union_advanceY_failsX with (ly' := (ky, vy) :: ly); [exact Hx|].
            unfold UnionKVIter.advanceX. simpl. rewrite He.
            destruct (HasNext (UnionKVIter.x m)) as [[] x1];
              [destruct (Next x1) as [[[k v] e0] x2]|]; simpl; auto. }
        exists px, lx, ly,
          (UnionKVIter.advanceY (UnionKVIter.advanceX (UnionKVIter.decLimit m))).
        failsX_done.
      * assert (Hrep : UnionRepFailsX (UnionKVIter.advanceY (UnionKVIter.decLimit m))
                         (px :: lx) ly e)
          by (apply union_advanceY_failsX with (ly' := (ky, vy) :: ly); auto).
        exists (ky, vy), (px :: lx), ly, (UnionKVIter.advanceY (UnionKVIter.decLimit m)).
        failsX_done.
Qed.

Lemma UnionRepFailsX_drain (n : nat) :
  forall (m : UnionKVIter.t SX SY) lx ly e,
    (length lx + length ly <= n)%nat ->
    UnionRepFailsX m lx ly e ->
    unconstrained (UnionKVIter.limit m) (length lx + length ly) ->
    exists out rest m',
      drain (S n) m = Some (out, Some e, m')
      /\ unionList lx ly = out ++ rest
      /\ (forall a, In a lx -> In a out)
      /\ (forall a, In a rest -> In a ly).
Proof.
  induction n as [|n IH]; intros m lx ly e Hn Hr Hl.
  - destruct lx, ly; simpl in Hn; try lia. simpl in Hr.
    exists [], [], m. repeat split; auto.
    apply drain_step_error with (s1 := m) (a := (nil_bytes, nil_bytes)); simpl.
    + unfold UnionKVIter.HasNext. now rewrite Hr.
    + unfold UnionKVIter.Next. now rewrite Hr.
  - destruct lx as [|px lx].
    + simpl in Hr. exists [], ly, m. rewrite unionList_nil_l. repeat split; auto.
      apply drain_step_error with (s1 := m) (a := (nil_bytes, nil_bytes)); simpl.
      * unfold UnionKVIter.HasNext. now rewrite Hr.
      * unfold UnionKVIter.Next. now rewrite Hr.
    + destruct (union_Next_failsX Hr)
        as (a & lx2 & ly2 & m2 & En & Hr2 & Eu & El & Hlt & Hx2 & Hy2).
      assert (Hz : UnionKVIter.limit m <> 0).
      { unfold unconstrained in Hl. simpl length in Hl. intros E0. rewrite E0 in Hl.
        rewrite Z.mod_0_l in Hl; lia. }
      destruct (IH m2 lx2 ly2 e) as (out & rest & m' & Hd & Eo & Hxo & Hro);
        [lia | exact Hr2 | |].
      { unfold unconstrained in *. rewrite El, int_wrap_mod, mod_pred; lia. }
      exists (a :: out), rest, m'. repeat split.
      * rewrite (@drain_step_ok _ _ _ m m m2 a (S n)); [now rewrite Hd| |exact En].
        simpl. unfold UnionKVIter.HasNext.
        destruct Hr as (-> & -> & _). apply Z.eqb_neq in Hz. now rewrite Hz.
      * rewrite Eu, Eo. reflexivity.
      * intros b Hb. destruct (Hx2 b Hb) as [->|Hb2]; [now left|right; auto].
      * intros b Hb. auto.
Qed.

End UnionFailingX.

(** X11.  When x fails after some pairs and y does not fail, the union
    under a limit that does not cut delivers a prefix of what it delivers
    when x simply ends after those pairs, and then the error of x.  The
    prefix holds every pair x yielded before it failed; what is withheld are
    pairs of y only. *)
Theorem UnionKV_with_failing_x {SX SX' SY} `{KV SX} `{KV SX'} `{KV SY}
    (x : SX) (x' : SX') (y : SY) (lx ly : list (bytes * bytes)) (e : error)
    (limit : Z) :
  Fails x lx e -> Produces x' lx -> Produces y ly ->
  unconstrained limit (length lx + length ly) ->
  exists out rest s1 s2,
    drain (S (length lx + length ly)) (UnionKV (Some x) (Some y) limit)
    = Some (out, Some e, s1)
    /\ drain (S (length lx + length ly)) (UnionKV (Some x') (Some y) limit)
       = Some (out ++ rest, None, s2)
    /\ (forall a, In a lx -> In a out)
    /\ (forall a, In a rest -> In a ly).
Proof.
  intros Hf Hx' Hy Hl.
  destruct (UnionKV_drain limit Hx' Hy) as [s2 Hd2].
  rewrite takeLimit_all in Hd2
    by (unfold unconstrained in *; pose proof (length_unionList lx ly); lia).
  pose proof (@union_advanceX_failsX _ _ _ _ (UnionKVIter.new x y limit) lx [] e
                eq_refl Hf eq_refl) as Hx.
  assert (Hr : UnionRepFailsX
                 (UnionKVIter.advanceY (UnionKVIter.advanceX (UnionKVIter.new x y limit)))
                 lx ly e).
  { destruct lx as [|px lx'].
    - simpl in Hx. rewrite (union_advanceY_latched _ Hx). exact Hx.
    - apply union_advanceY_failsX with (ly' := []); [exact Hx|].
      unfold UnionKVIter.advanceX. simpl.
      destruct (HasNext x) as [[] x1];
        [destruct (Next x1) as [[[k v] e0] x2]|]; simpl; auto. }
  destruct (@UnionRepFailsX_drain _ _ _ _ (length lx + length ly) _ lx ly e
              (le_n _) Hr) as (out & rest & m' & Hd & Eo & Hxo & Hro).
  { now rewrite UnionKVIter_limit_advanceY, UnionKVIter_limit_advanceX. }
  exists out, rest, (UnionKVIter.RetIter m'), s2. repeat split; auto.
  - unfold UnionKV. now rewrite drain_UnionKV_RetIter, Hd.
  - now rewrite <- Eo.
Qed.

Lemma UnionKV_with_failing_x_witness :
  exists out rest s1 s2,
    drain 4 (UnionKV (Some sampleFailing) (Some (sliceOf sampleY)) (-1))
    = Some (out, Some (Err "read failed"), s1)
    /\ drain 4 (UnionKV (Some (sliceOf [(["a"%byte], ["1"%byte])]))
                  (Some (sliceOf sampleY)) (-1))
       = Some (out ++ rest, None, s2)
    /\ (forall a, In a [(["a"%byte], ["1"%byte])] -> In a out)
    /\ (forall a, In a rest -> In a sampleY).
Proof.
  apply (@UnionKV_with_failing_x _ _ _ _ _ _ sampleFailing
           (sliceOf [(["a"%byte], ["1"%byte])]) (sliceOf sampleY)
           [(["a"%byte], ["1"%byte])] sampleY (Err "read failed") (-1)).
  - apply (Fails_mkSlice [(["a"%byte], ["1"%byte])]).
  - apply Produces_sliceOf.
  - apply Produces_sliceOf.
  - unfold unconstrained. vm_compute. discriminate.
Defined.

(** ** The calls a composite makes on its children *)

Lemma pullsOnly_facts (n : nat) :
  forall cs, (length cs <= n)%nat -> pullsOnly cs = true ->
    followsProtocol cs = true
    /\ followsProtocol (cs ++ [CHasNext false]) = true
    /\ forall e, pullsOnly (cs ++ [CHasNext true; CNext e]) = true.
Proof.
  induction n as [|n IH]; intros cs Hn Hp.
  - destruct cs; simpl in Hn; [|lia]. repeat split.
  - destruct cs as [|c cs]; [repeat split|].
    destruct c as [[]|e0|]; try discriminate.
    destruct cs as [|c cs]; try discriminate.
    destruct c as [b1|e1|]; try discriminate.
    simpl in Hp, Hn.
    destruct (IH cs) as (H1 & H2 & H3); [lia | exact Hp |].
    repeat split; simpl; auto.
Qed.

Lemma pullsOnly_follows cs : pullsOnly cs = true -> followsProtocol cs = true.
Proof. intros Hp. now apply (@pullsOnly_facts (length cs) cs (le_n _)). Qed.

Lemma pullsOnly_closed cs :
  pullsOnly cs = true -> followsProtocol (cs ++ [CHasNext false]) = true.
Proof. intros Hp. now apply (@pullsOnly_facts (length cs) cs (le_n _)). Qed.

Lemma pullsOnly_pull cs e :
  pullsOnly cs = true -> pullsOnly (cs ++ [CHasNext true; CNext e]) = true.
Proof. intros Hp. now apply (@pullsOnly_facts (length cs) cs (le_n _)). Qed.

Lemma slotCalls_follows has cs : slotCalls has cs -> followsProtocol cs = true.
Proof. destruct has; simpl; auto using pullsOnly_follows. Qed.

(** One lookahead on an observed child that has only been pulled so far. *)
Lemma lookahead_slotCalls {E St} `{Stream E St} (c : Logged St) :
  pullsOnly (calls c) = true ->
  slotCalls (fst (HasNext c))
    (calls (if fst (HasNext c) then snd (Next (snd (HasNext c))) else snd (HasNext c))).
Proof.
  intros Hp. rewrite Logged_HasNext. simpl fst. simpl snd.
  destruct (HasNext (inner c)) as [[] s1]; simpl fst; simpl snd; cbv iota.
  - destruct (Next s1) as [[a e] s2]. simpl. rewrite <- app_assoc.
    now apply pullsOnly_pull.
  - simpl. now apply pullsOnly_closed.
Qed.

Lemma drain_invariant {E St} `{Stream E St} (P : St -> Prop) :
  (forall s, P s -> P (snd (HasNext s))) ->
  (forall s, P s -> fst (HasNext s) = true -> P (snd (Next (snd (HasNext s))))) ->
  forall fuel s out r s', P s -> drain fuel s = Some (out, r, s') -> P s'.
Proof.
  intros Hh Hn. induction fuel as [|fuel IH]; intros s out r s' Hp Hd; [discriminate|].
  simpl in Hd. specialize (Hh s Hp). specialize (Hn s Hp).
  destruct (HasNext s) as [[] s1]; simpl in Hh, Hn.
  - specialize (Hn eq_refl). destruct (Next s1) as [[a [e|]] s2]; simpl in Hn.
    + inversion Hd; subst. exact Hn.
    + destruct (drain fuel s2) as [[[l r0] s3]|] eqn:Ed; [|discriminate].
      inversion Hd; subst. exact (IH s2 l r s' Hn Ed).
  - inversion Hd; subst. exact Hh.
Qed.

Section ProtocolInvariants.
Context {SX SY SX3 : Type} `{KV SX} `{KV SY} `{KVS SX3}.

Lemma UnionProtocol_advanceX (m : UnionKVIter.t (Logged SX) (Logged SY)) :
  pullsOnly (calls (UnionKVIter.x m)) = true ->
  slotCalls (UnionKVIter.xHasNext m) (calls (UnionKVIter.x m)) ->
  slotCalls (UnionKVIter.yHasNext m) (calls (UnionKVIter.y m)) ->
  UnionProtocol (UnionKVIter.advanceX m)
  /\ UnionKVIter.yHasNext (UnionKVIter.advanceX m) = UnionKVIter.yHasNext m
  /\ UnionKVIter.y (UnionKVIter.advanceX m) = UnionKVIter.y m.
Proof.
  intros Hp Hx Hy. unfold UnionProtocol, UnionKVIter.advanceX.
  destruct (UnionKVIter.err m); [repeat split; auto|].
  pose proof (lookahead_slotCalls (UnionKVIter.x m) Hp) as Hs.
  destruct (HasNext (UnionKVIter.x m)) as [[] x1]; cbn [fst snd] in Hs.
  - destruct (Next x1) as [[[k v] e] x2]. simpl in *. repeat split; auto.
  - simpl. repeat split; auto.
Qed.

Lemma UnionProtocol_advanceY (m : UnionKVIter.t (Logged SX) (Logged SY)) :
  pullsOnly (calls (UnionKVIter.y m)) = true ->
  slotCalls (UnionKVIter.xHasNext m) (calls (UnionKVIter.x m)) ->
  slotCalls (UnionKVIter.yHasNext m) (calls (UnionKVIter.y m)) ->
  UnionProtocol (UnionKVIter.advanceY m).
Proof.
  intros Hp Hx Hy. unfold UnionProtocol, UnionKVIter.advanceY.
  destruct (UnionKVIter.err m); [repeat split; auto|].
  pose proof (lookahead_slotCalls (UnionKVIter.y m) Hp) as Hs.
  destruct (HasNext (UnionKVIter.y m)) as [[] y1]; cbn [fst snd] in Hs.
  - destruct (Next y1) as [[[k v] e] y2]. simpl in *. repeat split; auto.
  - simpl. repeat split; auto.
Qed.

Lemma UnionProtocol_Next (m : UnionKVIter.t (Logged SX) (Logged SY)) :
  UnionProtocol m -> fst (UnionKVIter.HasNext m) = true ->
  UnionProtocol (snd (UnionKVIter.Next m)).
Proof.
  intros [Hx Hy] Hh. unfold UnionKVIter.Next, UnionKVIter.HasNext in *.
  destruct (UnionKVIter.err m) eqn:He; [split; assumption|]. simpl in Hh.
  change (UnionKVIter.xHasNext (UnionKVIter.decLimit m)) with (UnionKVIter.xHasNext m).
  change (UnionKVIter.yHasNext (UnionKVIter.decLimit m)) with (UnionKVIter.yHasNext m).
  destruct (UnionKVIter.xHasNext m) eqn:Ex, (UnionKVIter.yHasNext m) eqn:Ey;
    simpl in Hx, Hy; simpl;
    try (rewrite ?andb_false_r in Hh; discriminate).
  - assert (Hax : UnionProtocol (UnionKVIter.advanceX (UnionKVIter.decLimit m))
              /\ UnionKVIter.yHasNext (UnionKVIter.advanceX (UnionKVIter.decLimit m)) = true
              /\ UnionKVIter.y (UnionKVIter.advanceX (UnionKVIter.decLimit m))
                 = UnionKVIter.y m).
    { destruct (@UnionProtocol_advanceX (UnionKVIter.decLimit m))
        as (Hq & Eh & Eyy); simpl; rewrite ?Ex, ?Ey; simpl; auto.
      split; [exact Hq|]. split; [now rewrite Eh | exact Eyy]. }
    destruct Hax as ([Hx' Hy'] & Eh & Eyy).
    destruct (bytes_Compare (UnionKVIter.xNextK m) (UnionKVIter.yNextK m) <? 0);
      [split; assumption|].
    destruct (bytes_Compare (UnionKVIter.xNextK m) (UnionKVIter.yNextK m) =? 0);
      simpl.
    + apply UnionProtocol_advanceY; auto. now rewrite Eyy.
    + apply UnionProtocol_advanceY; simpl; rewrite ?Ex, ?Ey; simpl; auto.
  - apply UnionProtocol_advanceX; simpl; rewrite ?Ex, ?Ey; simpl; auto.
  - apply UnionProtocol_advanceY; simpl; rewrite ?Ex, ?Ey; simpl; auto.
Qed.


Lemma MergedKV_advanceX_y {TX TY} `{KVS TX} `{KV TY} (m : MergedKV.t TX TY) :
  MergedKV.y (MergedKV.advanceX m) = MergedKV.y m.
Proof.
  unfold MergedKV.advanceX. destruct (MergedKV.err m); [reflexivity|].
  destruct (HasNext (MergedKV.x m)) as [[] x1]; [|reflexivity].
  now destruct (Next x1) as [[[[k v] st] e] x2].
Qed.

Lemma MergedProtocol_advanceX (m : MergedKV.t (Logged SX3) (Logged SY)) :
  pullsOnly (calls (MergedKV.x m)) = true ->
  slotCalls (MergedKV.xHasNext m) (calls (MergedKV.x m)) ->
  slotCalls (MergedKV.yHasNext m) (calls (MergedKV.y m)) ->
  MergedProtocol (MergedKV.advanceX m).
Proof.
  intros Hp Hx Hy. unfold MergedProtocol, MergedKV.advanceX.
  destruct (MergedKV.err m); [repeat split; auto|].
  pose proof (lookahead_slotCalls (MergedKV.x m) Hp) as Hs.
  destruct (HasNext (MergedKV.x m)) as [[] x1]; cbn [fst snd] in Hs.
  - destruct (Next x1) as [[[[k v] st] e] x2]. simpl in *. repeat split; auto.
  - simpl. repeat split; auto.
Qed.

Lemma MergedProtocol_advanceY (m : MergedKV.t (Logged SX3) (Logged SY)) :
  pullsOnly (calls (MergedKV.y m)) = true ->
  slotCalls (MergedKV.xHasNext m) (calls (MergedKV.x m)) ->
  slotCalls (MergedKV.yHasNext m) (calls (MergedKV.y m)) ->
  MergedProtocol (MergedKV.advanceY m).
Proof.
  intros Hp Hx Hy. unfold MergedProtocol, MergedKV.advanceY.
  destruct (MergedKV.err m); [repeat split; auto|].
  pose proof (lookahead_slotCalls (MergedKV.y m) Hp) as Hs.
  destruct (HasNext (MergedKV.y m)) as [[] y1]; cbn [fst snd] in Hs.
  - destruct (Next y1) as [[[k v] e] y2]. simpl in *. repeat split; auto.
  - simpl. repeat split; auto.
Qed.

Lemma MergedProtocol_Next (m : MergedKV.t (Logged SX3) (Logged SY)) :
  MergedProtocol m -> fst (MergedKV.HasNext m) = true ->
  MergedProtocol (snd (MergedKV.Next m)).
Proof.
  intros [Hx Hy] Hh. unfold MergedKV.Next, MergedKV.HasNext in *.
  destruct (MergedKV.err m) eqn:He; [split; assumption|]. simpl in Hh.
  change (MergedKV.xHasNext (MergedKV.decLimit m)) with (MergedKV.xHasNext m).
  change (MergedKV.yHasNext (MergedKV.decLimit m)) with (MergedKV.yHasNext m).
  destruct (MergedKV.xHasNext m) eqn:Ex, (MergedKV.yHasNext m) eqn:Ey;
    simpl in Hx, Hy; simpl;
    try (rewrite ?andb_false_r in Hh; discriminate).
  - destruct (bytes_Compare (MergedKV.xNextK m) (MergedKV.yNextK m) <=? 0); simpl.
    + apply MergedProtocol_advanceX; simpl; rewrite ?Ex, ?Ey; simpl; auto.
    + apply MergedProtocol_advanceY; simpl; rewrite ?Ex, ?Ey; simpl; auto.
  - apply MergedProtocol_advanceX; simpl; rewrite ?Ex, ?Ey; simpl; auto.
  - apply MergedProtocol_advanceY; simpl; rewrite ?Ex, ?Ey; simpl; auto.
Qed.

Lemma WrapKVS_advance_slot (m : WrapKVSIter.t (Logged SY)) :
  pullsOnly (calls (WrapKVSIter.y m)) = true ->
  slotCalls (WrapKVSIter.yHasNext m) (calls (WrapKVSIter.y m)) ->
  slotCalls (WrapKVSIter.yHasNext (WrapKVSIter.advance m))
    (calls (WrapKVSIter.y (WrapKVSIter.advance m))).
Proof.
  intros Hp Hy. unfold WrapKVSIter.advance.
  destruct (WrapKVSIter.err m); [exact Hy|].
  pose proof (lookahead_slotCalls (WrapKVSIter.y m) Hp) as Hs.
  destruct (HasNext (WrapKVSIter.y m)) as [[] y1]; cbn [fst snd] in Hs.
  - destruct (Next y1) as [[[k v] e] y2]. exact Hs.
  - exact Hs.
Qed.

Lemma WrapKV_advance_slot (m : WrapKVIter.t (Logged SX3)) :
  pullsOnly (calls (WrapKVIter.x m)) = true ->
  slotCalls (WrapKVIter.xHasNext m) (calls (WrapKVIter.x m)) ->
  slotCalls (WrapKVIter.xHasNext (WrapKVIter.advance m))
    (calls (WrapKVIter.x (WrapKVIter.advance m))).
Proof.
  intros Hp Hx. unfold WrapKVIter.advance.
  destruct (WrapKVIter.err m); [exact Hx|].
  pose proof (lookahead_slotCalls (WrapKVIter.x m) Hp) as Hs.
  destruct (HasNext (WrapKVIter.x m)) as [[] x1]; cbn [fst snd] in Hs.
  - destruct (Next x1) as [[[[k v] st] e] x2]. exact Hs.
  - exact Hs.
Qed.

Lemma UnionProtocol_drain fuel (m m' : UnionKVIter.t (Logged SX) (Logged SY)) out r :
  UnionProtocol m -> drain fuel m = Some (out, r, m') -> UnionProtocol m'.
Proof.
  apply (@drain_invariant _ _ _ UnionProtocol); [auto|].
  intros s Hs Hh. now apply UnionProtocol_Next.
Qed.

Lemma MergedProtocol_drain fuel (m m' : MergedKV.t (Logged SX3) (Logged SY)) out r :
  MergedProtocol m -> drain fuel m = Some (out, r, m') -> MergedProtocol m'.
Proof.
  apply (@drain_invariant _ _ _ MergedProtocol); [auto|].
  intros s Hs Hh. now apply MergedProtocol_Next.
Qed.

Lemma WrapKVS_slot_drain fuel (m m' : WrapKVSIter.t (Logged SY)) out r :
  slotCalls (WrapKVSIter.yHasNext m) (calls (WrapKVSIter.y m)) ->
  drain fuel m = Some (out, r, m') ->
  slotCalls (WrapKVSIter.yHasNext m') (calls (WrapKVSIter.y m')).
Proof.
  apply (@drain_invariant _ _ _
           (fun m => slotCalls (WrapKVSIter.yHasNext m) (calls (WrapKVSIter.y m))));
    [auto|].
  intros s Hs Hh. simpl in *. unfold WrapKVSIter.Next, WrapKVSIter.HasNext in *.
  destruct (WrapKVSIter.err s) eqn:He; [exact Hs|]. simpl in *.
  rewrite Hh in Hs. apply WrapKVS_advance_slot; [exact Hs|now rewrite Hh].
Qed.

Lemma WrapKV_slot_drain fuel (m m' : WrapKVIter.t (Logged SX3)) out r :
  slotCalls (WrapKVIter.xHasNext m) (calls (WrapKVIter.x m)) ->
  drain fuel m = Some (out, r, m') ->
  slotCalls (WrapKVIter.xHasNext m') (calls (WrapKVIter.x m')).
Proof.
  apply (@drain_invariant _ _ _
           (fun m => slotCalls (WrapKVIter.xHasNext m) (calls (WrapKVIter.x m))));
    [auto|].
  intros s Hs Hh. simpl in *. unfold WrapKVIter.Next, WrapKVIter.HasNext in *.
  destruct (WrapKVIter.err s) eqn:He; [exact Hs|]. simpl in *.
  rewrite Hh in Hs. apply WrapKV_advance_slot; [exact Hs|now rewrite Hh].
Qed.

Lemma drain_MergeKVS_RetIter fuel (m : MergedKV.t (Logged SX3) (Logged SY)) :
  drain fuel (MergedKV.RetIter m)
  = match drain fuel m with
    | Some (l, r, s') => Some (l, r, MergedKV.RetIter s')
    | None => None
    end.
Proof. revert fuel m. embed_drain. Qed.

Lemma TransformKV2U64_calls_drain fuel :
  forall (m m' : TransformKV2U64Iter.t (Logged SY)) out r,
    pullsOnly (calls (TransformKV2U64Iter.it m)) = true ->
    drain fuel m = Some (out, r, m') ->
    followsProtocol (calls (TransformKV2U64Iter.it m')) = true.
Proof.
  induction fuel as [|fuel IH]; intros m m' out r Hp Hd; [discriminate|].
  simpl in Hd. unfold TransformKV2U64Iter.HasNext in Hd.
  rewrite Logged_HasNext in Hd.
  destruct (HasNext (inner (TransformKV2U64Iter.it m))) as [[] c1]; simpl in Hd.
  - unfold TransformKV2U64Iter.Next in Hd. simpl in Hd.
    destruct (Next c1) as [[[k v] e] c2]. simpl in Hd.
    assert (Hp2 : pullsOnly
              ((calls (TransformKV2U64Iter.it m) ++ [CHasNext true]) ++ [CNext e])
            = true).
    { rewrite <- app_assoc. now apply pullsOnly_pull. }
    destruct e as [e|]; simpl in Hd.
    + inversion Hd; subst. simpl. now apply pullsOnly_follows.
    + destruct (TransformKV2U64Iter.transform m k v) as [u [e|]]; simpl in Hd.
      * inversion Hd; subst. simpl. now apply pullsOnly_follows.
      * match type of Hd with
        | match drain fuel ?t with _ => _ end = _ =>
            destruct (drain fuel t) as [[[l r0] t']|] eqn:Ed; [|discriminate];
            inversion Hd; subst; eapply IH; [|exact Ed]; exact Hp2
        end.
  - inversion Hd; subst. simpl. now apply pullsOnly_closed.
Qed.

(** X12. Under the consumer loop every composite calls its children by the
    protocol of the stream interface, whatever the children hold and
    whatever the limit is: each child receives [HasNext] and, only after it
    reported true, one [Next]; after a [HasNext] that reported false, or
    after a latched failure, the child is not called again. This holds for
    both children of [UnionKV] and of [MergeKVS], for the child of
    [WrapKVS], of [WrapKV] and of [TransformKV2U64]. *)
Theorem children_called_by_protocol (fuel : nat) :
  (forall (x : SX) (y : SY) limit out r s',
      drain fuel (UnionKV (Some (observe x)) (Some (observe y)) limit)
      = Some (out, r, s') ->
      followsProtocol (fst (UnionKV_calls s')) = true
      /\ followsProtocol (snd (UnionKV_calls s')) = true)
  /\ (forall (x : SX3) (y : SY) limit out r s',
      drain fuel (MergeKVS (Some (observe x)) (Some (observe y)) limit)
      = Some (out, r, s') ->
      followsProtocol (fst (MergeKVS_calls s')) = true
      /\ followsProtocol (snd (MergeKVS_calls s')) = true)
  /\ (forall (y : SY) out r s',
      drain fuel (WrapKVS (Some (observe y))) = Some (out, r, s') ->
      followsProtocol (WrapKVS_calls s') = true)
  /\ (forall (x : SX3) out r s',
      drain fuel (WrapKV (Some (observe x))) = Some (out, r, s') ->
      followsProtocol (WrapKV_calls s') = true)
  /\ (forall (y : SY) f out r s',
      drain fuel (TransformKV2U64 (observe y) f) = Some (out, r, s') ->
      followsProtocol (calls (TransformKV2U64Iter.it s')) = true).
Proof.
  repeat apply conj.
  - intros x y limit out r s' Hd. unfold UnionKV in Hd.
    rewrite drain_UnionKV_RetIter in Hd.
    match type of Hd with
    | match drain fuel ?t with _ => _ end = _ =>
        destruct (drain fuel t) as [[[l r0] m']|] eqn:Ed; [|discriminate];
        assert (Hm : UnionProtocol m')
    end.
    { eapply UnionProtocol_drain; [|exact Ed].
      apply UnionProtocol_advanceY.
      - destruct (@UnionProtocol_advanceX (UnionKVIter.new (observe x) (observe y) limit))
          as (_ & _ & ->); reflexivity.
      - apply UnionProtocol_advanceX; reflexivity.
      - apply UnionProtocol_advanceX; reflexivity. }
    inversion Hd; subst. destruct Hm as [Hx Hy]. simpl.
    split; eapply slotCalls_follows; eassumption.
  - intros x y limit out r s' Hd. unfold MergeKVS in Hd.
    rewrite drain_MergeKVS_RetIter in Hd.
    match type of Hd with
    | match drain fuel ?t with _ => _ end = _ =>
        destruct (drain fuel t) as [[[l r0] m']|] eqn:Ed; [|discriminate];
        assert (Hm : MergedProtocol m')
    end.
    { eapply MergedProtocol_drain; [|exact Ed].
      assert (Hax : MergedProtocol
                (MergedKV.advanceX (MergedKV.new (observe x) (observe y) limit)))
        by (apply MergedProtocol_advanceX; reflexivity).
      assert (Ey : MergedKV.y
                (MergedKV.advanceX (MergedKV.new (observe x) (observe y) limit))
              = observe y).
      { apply MergedKV_advanceX_y. }
      destruct Hax as [Hx Hy].
      apply MergedProtocol_advanceY; auto. now rewrite Ey. }
    inversion Hd; subst. destruct Hm as [Hx Hy]. simpl.
    split; eapply slotCalls_follows; eassumption.
  - intros y out r s' Hd. unfold WrapKVS in Hd.
    rewrite drain_WrapKVS_RetIter in Hd.
    match type of Hd with
    | match drain fuel ?t with _ => _ end = _ =>
        destruct (drain fuel t) as [[[l r0] m']|] eqn:Ed; [|discriminate]
    end.
    inversion Hd; subst. simpl. eapply slotCalls_follows.
    eapply WrapKVS_slot_drain; [|exact Ed].
    apply WrapKVS_advance_slot; reflexivity.
  - intros x out r s' Hd. unfold WrapKV in Hd.
    rewrite drain_WrapKV_RetIter in Hd.
    match type of Hd with
    | match drain fuel ?t with _ => _ end = _ =>
        destruct (drain fuel t) as [[[l r0] m']|] eqn:Ed; [|discriminate]
    end.
    inversion Hd; subst. simpl. eapply slotCalls_follows.
    eapply WrapKV_slot_drain; [|exact Ed].
    apply WrapKV_advance_slot; reflexivity.
  - intros y f out r s' Hd.
    eapply TransformKV2U64_calls_drain; [|exact Hd]. reflexivity.
Qed.

End ProtocolInvariants.

Lemma children_called_by_protocol_witness :
  exists out r s',
    drain 8 (UnionKV (Some (observe sampleFailing)) (Some (observe (sliceOf sampleY))) 2)
    = Some (out, r, s')
    /\ followsProtocol (fst (UnionKV_calls s')) = true
    /\ followsProtocol (snd (UnionKV_calls s')) = true.
Proof.
  eexists _, _, _. split; [vm_compute; reflexivity|].
  eapply (proj1 (@children_called_by_protocol
                   (Slice (bytes * bytes)) (Slice (bytes * bytes))
                   (Slice (bytes * bytes * Z)) _ _ _ 8)
            sampleFailing (sliceOf sampleY) 2).
  vm_compute. reflexivity.
Defined.

(** ** The optimistic store *)

Module OptimisticStoreFacts.
Import stdpp.base stdpp.gmap.
Import OptimisticStore.

Lemma IsOptimistic_true (impl : gmap N opNode) h :
  IsOptimistic impl h = true <-> h <> zeroHash /\ is_Some (impl !! h).
Proof.
  unfold IsOptimistic. destruct (N.eqb h zeroHash) eqn:E.
  - apply N.eqb_eq in E. split; [discriminate|]. intros [Hz _]. now contradict Hz.
  - apply N.eqb_neq in E. destruct (impl !! h) as [n|].
    + split; eauto.
    + split; [discriminate|]. intros [_ [x Hx]]. discriminate.
Qed.

(** The store after a successful import, entry by entry. *)
Lemma AddOptimisticCandidate_lookup (impl : gmap N opNode) block root :
  HashSSZ block = (root, None) -> impl !! root = None ->
  fst (AddOptimisticCandidate impl block) = None
  /\ forall h,
      snd (AddOptimisticCandidate impl block) !! h
      = if decide (h = ParentRoot block) then
          if decide (h = root) then Some (mkOpNode root [root])
          else match impl !! h with
               | Some p => Some (mkOpNode (parent p) (children p ++ [root]))
               | None => None
               end
        else if decide (h = root) then Some (mkOpNode (ParentRoot block) [])
        else impl !! h.
Proof.
  intros Hr Hn. unfold AddOptimisticCandidate. rewrite Hr, Hn.
  destruct (decide (ParentRoot block = root)) as [Epr|Npr].
  - rewrite Epr, lookup_insert_eq. simpl. split; [reflexivity|].
    intros h. destruct (decide (h = root)) as [->|Nh].
    + now rewrite lookup_insert_eq.
    + now rewrite !lookup_insert_ne by congruence.
  - rewrite lookup_insert_ne by congruence.
    destruct (impl !! ParentRoot block) as [p|] eqn:Ep; simpl;
      (split; [reflexivity|]); intros h;
      destruct (decide (h = ParentRoot block)) as [->|Nh].
    + rewrite lookup_insert_eq. rewrite decide_False by congruence. now rewrite Ep.
    + rewrite lookup_insert_ne by congruence.
      destruct (decide (h = root)) as [->|Nr];
        [now rewrite lookup_insert_eq | now rewrite lookup_insert_ne by congruence].
    + rewrite decide_False by congruence.
      rewrite lookup_insert_ne by congruence. now rewrite Ep.
    + destruct (decide (h = root)) as [->|Nr];
        [now rewrite lookup_insert_eq | now rewrite lookup_insert_ne by congruence].
Qed.


Lemma AddOptimisticCandidate_is_Some (impl : gmap N opNode) block root h :
  HashSSZ block = (root, None) ->
  is_Some (snd (AddOptimisticCandidate impl block) !! h)
  <-> is_Some (impl !! h) \/ h = root.
Proof.
  intros Hr. destruct (impl !! root) as [n|] eqn:En.
  - unfold AddOptimisticCandidate. rewrite Hr, En. simpl.
    split; [auto|]. intros [Hs| ->]; [exact Hs|eauto].
  - destruct (AddOptimisticCandidate_lookup impl block Hr En) as [_ Hl].
    rewrite Hl. repeat case_decide; subst.
    + split; eauto.
    + destruct (impl !! ParentRoot block); split; eauto.
      * intros [[x Hx]|Hx]; [discriminate|contradiction].
    + split; eauto.
    + split; [auto|]. intros [Hs|Hs]; [exact Hs|contradiction].
Qed.

Lemma AddOptimisticCandidate_ok (impl : gmap N opNode) block root :
  HashSSZ block = (root, None) -> fst (AddOptimisticCandidate impl block) = None.
Proof.
  intros Hr. unfold AddOptimisticCandidate. rewrite Hr.
  destruct (impl !! root); [reflexivity|].
  now destruct (<[root:=_]> impl !! ParentRoot block).
Qed.



(** X14. Importing the same block a second time changes nothing, whether
    the first import succeeded or failed. *)
Theorem AddOptimisticCandidate_again (impl : gmap N opNode) block :
  AddOptimisticCandidate (snd (AddOptimisticCandidate impl block)) block
  = (fst (AddOptimisticCandidate impl block),
     snd (AddOptimisticCandidate impl block)).
Proof.
  destruct (HashSSZ block) as [root [e|]] eqn:Hr.
  - unfold AddOptimisticCandidate. rewrite Hr. simpl. now rewrite ?Hr.
  - rewrite (AddOptimisticCandidate_ok impl block Hr).
    assert (Hs : is_Some (snd (AddOptimisticCandidate impl block) !! root))
      by (apply (AddOptimisticCandidate_is_Some impl block root Hr); auto).
    destruct Hs as [n Hn].
    generalize dependent (snd (AddOptimisticCandidate impl block)).
    intros impl1 Hn. unfold AddOptimisticCandidate. now rewrite Hr, Hn.
Qed.


Lemma partOf_delete (m impl0 : gmap N opNode) k :
  partOf m impl0 -> partOf (delete k m) impl0.
Proof.
  intros Hp h node Hh. apply lookup_delete_Some in Hh as [_ Hh]. now apply Hp.
Qed.

Lemma validateLoop_walks (impl0 : gmap N opNode) root :
  forall fuel (m : gmap N opNode) cur,
    (size m < fuel)%nat ->
    partOf m impl0 ->
    (forall h, is_Some (impl0 !! h) -> m !! h = None -> Ancestor impl0 root h) ->
    (forall h node, impl0 !! h = Some node -> m !! h = None ->
       is_Some (impl0 !! parent node) ->
       m !! parent node = None \/ parent node = cur) ->
    (m !! root = None \/ cur = root) ->
    (is_Some (m !! cur) -> Ancestor impl0 root cur) ->
    exists m',
      validateLoop fuel m cur = Some m'
      /\ partOf m' impl0
      /\ forall h, is_Some (m' !! h)
                   <-> is_Some (impl0 !! h) /\ ~ Ancestor impl0 root h.
Proof.
  induction fuel as [|fuel IH]; intros m cur Hsz Hpart Hrem Hclo Hroot Hcur;
    [lia|].
  simpl. destruct (m !! cur) as [node|] eqn:Ec.
  - assert (Ec0 : impl0 !! cur = Some node) by now apply Hpart.
    apply IH.
    + rewrite map_size_delete, Ec.
      assert (size m <> 0%nat) by (apply (map_size_ne_0_lookup_2 m cur); eauto).
      destruct (size m); simpl; lia.
    + now apply partOf_delete.
    + intros h Hh Hd. apply lookup_delete_None in Hd as [->|Hd]; eauto.
    + intros h n Hh Hd Hp. apply lookup_delete_None in Hd as [->|Hd].
      * right. congruence.
      * left. destruct (Hclo h n Hh Hd Hp) as [Hm|Hm].
        -- apply lookup_delete_None. now right.
        -- rewrite Hm. apply lookup_delete_eq.
    + left. destruct Hroot as [Hr| ->].
      * apply lookup_delete_None. now right.
      * apply lookup_delete_eq.
    + intros [pn Hpn]. apply lookup_delete_Some in Hpn as [_ Hpn].
      eapply Ancestor_parent; eauto.
  - exists m. split; [reflexivity|]. split; [exact Hpart|].
    assert (Hall : forall h, Ancestor impl0 root h -> m !! h = None).
    { induction 1 as [node Hn|h node pnode Ha IHa Hh Hp].
      - destruct Hroot as [Hr| <-]; assumption.
      - destruct (Hclo h node Hh IHa) as [Hm|Hm]; eauto. now rewrite Hm. }
    intros h. split.
    + intros [n Hn]. split; [eauto|]. intros Ha. apply Hall in Ha. congruence.
    + intros [Hs Hna]. destruct (m !! h) eqn:Eh; [eauto|].
      contradict Hna. now apply Hrem.
Qed.

(** X15. [ValidateBlock] ends within one iteration per entry of the store,
    returns no error, and removes the entry filed under the StateRoot of
    the block together with the chain of its parents that are in the store,
    and nothing else; the entries that stay are unchanged. *)
Theorem ValidateBlock_removes_the_ancestors (impl : gmap N opNode) block fuel :
  (size impl < fuel)%nat ->
  exists impl',
    ValidateBlock fuel impl block = Some impl'
    /\ (forall h node, impl' !! h = Some node -> impl !! h = Some node)
    /\ (forall h, is_Some (impl' !! h)
                  <-> is_Some (impl !! h) /\ ~ Ancestor impl (StateRoot block) h).
Proof.
  intros Hsz. unfold ValidateBlock.
  apply validateLoop_walks; auto.
  - intros h node Hh. exact Hh.
  - intros h [n Hn] Hh. congruence.
  - intros h node Hh Hn. congruence.
  - intros [n Hn]. eapply Ancestor_self; eauto.
Qed.

Lemma ValidateBlock_removes_the_ancestors_witness :
  exists impl',
    ValidateBlock 4 sampleStore (sampleBlock 3 2) = Some impl'
    /\ (forall h node, impl' !! h = Some node -> sampleStore !! h = Some node)
    /\ (forall h, is_Some (impl' !! h)
                  <-> is_Some (sampleStore !! h)
                      /\ ~ Ancestor sampleStore (StateRoot (sampleBlock 3 2)) h).
Proof.
  apply (@ValidateBlock_removes_the_ancestors sampleStore (sampleBlock 3 2) 4).
  vm_compute. lia.
Defined.

Lemma pendingWork_delete (m : gmap N opNode) cur node q :
  m !! cur = Some node ->
  pendingWork m (cur :: q) = S (pendingWork (delete cur m) (q ++ children node)).
Proof.
  intros Hc. unfold pendingWork.
  rewrite <- (map_to_list_delete m cur node Hc). simpl.
  rewrite length_app. lia.
Qed.

Lemma invalidateLoop_walks (impl0 : gmap N opNode) root :
  forall fuel (m : gmap N opNode) q,
    (pendingWork m q <= fuel)%nat ->
    partOf m impl0 ->
    (forall h, is_Some (impl0 !! h) -> m !! h = None -> Descendant impl0 root h) ->
    (forall h node c, impl0 !! h = Some node -> m !! h = None ->
       c ∈ children node -> is_Some (impl0 !! c) ->
       m !! c = None \/ c ∈ q) ->
    (m !! root = None \/ root ∈ q) ->
    (forall c, c ∈ q -> is_Some (m !! c) -> Descendant impl0 root c) ->
    exists m',
      invalidateLoop fuel m q = Some m'
      /\ partOf m' impl0
      /\ forall h, is_Some (m' !! h)
                   <-> is_Some (impl0 !! h) /\ ~ Descendant impl0 root h.
Proof.
  induction fuel as [|fuel IH]; intros m q Hw Hpart Hrem Hclo Hroot Hq;
    (destruct q as [|cur q];
     [ exists m; split; [reflexivity|]; split; [exact Hpart|];
       assert (Hall : forall h, Descendant impl0 root h -> m !! h = None);
       [ induction 1 as [node Hn|h node c cnode Ha IHa Hh Hc Hcn];
         [ destruct Hroot as [Hr|Hr]; [assumption|inversion Hr]
         | destruct (Hclo h node c Hh IHa Hc) as [Hm|Hm];
           [eauto|assumption|inversion Hm] ]
       | intros h; split;
         [ intros [n Hn]; split; [eauto|]; intros Ha; apply Hall in Ha; congruence
         | intros [Hs Hna]; destruct (m !! h) eqn:Eh; [eauto|];
           contradict Hna; now apply Hrem ] ]
     | ]).
  - unfold pendingWork in Hw. simpl in Hw. lia.
  - simpl. destruct (m !! cur) as [node|] eqn:Ec.
    + assert (Ec0 : impl0 !! cur = Some node) by now apply Hpart.
      apply IH.
      * rewrite (@pendingWork_delete m cur node q Ec) in Hw. lia.
      * now apply partOf_delete.
      * intros h Hh Hd. apply lookup_delete_None in Hd as [->|Hd]; eauto.
        apply Hq; [left|eauto].
      * intros h n c Hh Hd Hc Hs. apply lookup_delete_None in Hd as [->|Hd].
        -- right. apply elem_of_app. right. congruence.
        -- destruct (Hclo h n c Hh Hd Hc Hs) as [Hm|Hm].
           ++ left. apply lookup_delete_None. now right.
           ++ apply elem_of_cons in Hm as [->|Hm].
              ** left. apply lookup_delete_eq.
              ** right. apply elem_of_app. now left.
      * destruct Hroot as [Hr|Hr].
        -- left. apply lookup_delete_None. now right.
        -- apply elem_of_cons in Hr as [->|Hr].
           ++ left. apply lookup_delete_eq.
           ++ right. apply elem_of_app. now left.
      * intros c Hc [cn Hcn]. apply lookup_delete_Some in Hcn as [Hne Hcn].
        apply elem_of_app in Hc as [Hc|Hc].
        -- apply Hq; [now right|eauto].
        -- eapply Descendant_child; [apply Hq; [left|eauto]| | |]; eauto.
    + apply IH.
      * unfold pendingWork in *. simpl in Hw. lia.
      * exact Hpart.
      * exact Hrem.
      * intros h n c Hh Hd Hc Hs.
        destruct (Hclo h n c Hh Hd Hc Hs) as [Hm|Hm]; [now left|].
        apply elem_of_cons in Hm as [->|Hm]; auto.
      * destruct Hroot as [Hr|Hr]; [now left|].
        apply elem_of_cons in Hr as [->|Hr]; auto.
      * intros c Hc Hs. apply Hq; [now right|exact Hs].
Qed.

(** X16. [InvalidateBlock] ends within one iteration per queued root and
    per listed child, returns no error, and removes the entry filed under
    the StateRoot of the block together with every entry that can be
    reached from it through the lists of children, and nothing else; the
    entries that stay are unchanged. *)
Theorem InvalidateBlock_removes_the_descendants (impl : gmap N opNode) block fuel :
  (pendingWork impl [StateRoot block] <= fuel)%nat ->
  exists impl',
    InvalidateBlock fuel impl block = Some impl'
    /\ (forall h node, impl' !! h = Some node -> impl !! h = Some node)
    /\ (forall h, is_Some (impl' !! h)
                  <-> is_Some (impl !! h) /\ ~ Descendant impl (StateRoot block) h).
Proof.
  intros Hw. unfold InvalidateBlock.
  apply invalidateLoop_walks; auto.
  - intros h node Hh. exact Hh.
  - intros h [n Hn] Hh. congruence.
  - intros h node c Hh Hn. congruence.
  - right. left.
  - intros c Hc [n Hn]. apply list_elem_of_singleton in Hc as ->.
    eapply Descendant_self; eauto.
Qed.

Lemma InvalidateBlock_removes_the_descendants_witness :
  exists impl',
    InvalidateBlock 2 sampleStore (sampleBlock 2 1) = Some impl'
    /\ (forall h node, impl' !! h = Some node -> sampleStore !! h = Some node)
    /\ (forall h, is_Some (impl' !! h)
                  <-> is_Some (sampleStore !! h)
                      /\ ~ Descendant sampleStore (StateRoot (sampleBlock 2 1)) h).
Proof.
  apply (@InvalidateBlock_removes_the_descendants sampleStore (sampleBlock 2 1) 2).
  vm_compute. lia.
Defined.


Lemma IsOptimistic_ext (m1 m2 : gmap N opNode) h :
  (is_Some (m1 !! h) <-> is_Some (m2 !! h)) ->
  IsOptimistic m1 h = IsOptimistic m2 h.
Proof.
  intros Hs. unfold IsOptimistic. destruct (h =? zeroHash)%N; [reflexivity|].
  destruct (m1 !! h) as [n1|], (m2 !! h) as [n2|]; try reflexivity.
  - destruct (proj1 Hs) as [x Hx]; [eauto|discriminate].
  - destruct (proj2 Hs) as [x Hx]; [eauto|discriminate].
Qed.

(** The entry a successful import files under a new root lists no child
    but, when the block is its own parent, the block itself. *)
Lemma AddOptimisticCandidate_new_entry (impl : gmap N opNode) block root :
  HashSSZ block = (root, None) -> impl !! root = None ->
  exists node,
    snd (AddOptimisticCandidate impl block) !! root = Some node
    /\ (ParentRoot block <> root -> children node = [])
    /\ (ParentRoot block = root -> children node = [root]).
Proof.
  intros Hr Hn. destruct (AddOptimisticCandidate_lookup impl block Hr Hn) as [_ Hl].
  rewrite Hl. repeat case_decide; try contradiction; try congruence;
    eexists; (split; [reflexivity|]); simpl; split; congruence.
Qed.

Lemma new_entry_children (block : BeaconBlock) (root : N) (node : opNode) :
  (ParentRoot block <> root -> children node = []) ->
  (ParentRoot block = root -> children node = [root]) ->
  children node = [] \/ children node = [root].
Proof.
  intros H1 H2. destruct (decide (ParentRoot block = root)); auto.
Qed.

Lemma invalidateLoop_childless (m : gmap N opNode) root node fuel :
  m !! root = Some node -> children node = [] \/ children node = [root] ->
  (2 <= fuel)%nat ->
  invalidateLoop fuel m [root] = Some (delete root m).
Proof.
  intros Hm Hc Hf. destruct fuel as [|[|fuel]]; [lia|lia|].
  simpl. rewrite Hm. destruct Hc as [-> | ->]; simpl; [reflexivity|].
  rewrite lookup_delete_eq. now destruct fuel.
Qed.

(** X17. A block imported under a root that was not in the store lists no
    child but itself, and itself only when it is its own parent -- also when
    blocks that name it as their parent were imported before it.
    Invalidating the block then removes its entry alone: the store is the
    store after the import without that entry, and every root is as
    optimistic as it was before the block was imported, the blocks that name
    it as parent included. *)
Theorem InvalidateBlock_misses_earlier_children
    (impl : gmap N opNode) block invalid root fuel :
  HashSSZ block = (root, None) -> impl !! root = None ->
  StateRoot invalid = root -> (2 <= fuel)%nat ->
  (exists node,
      snd (AddOptimisticCandidate impl block) !! root = Some node
      /\ (ParentRoot block <> root -> children node = [])
      /\ (ParentRoot block = root -> children node = [root]))
  /\ InvalidateBlock fuel (snd (AddOptimisticCandidate impl block)) invalid
     = Some (delete root (snd (AddOptimisticCandidate impl block)))
  /\ (forall h,
        IsOptimistic (delete root (snd (AddOptimisticCandidate impl block))) h
        = IsOptimistic impl h).
Proof.
  intros Hr Hn Hs Hf.
  destruct (AddOptimisticCandidate_new_entry impl block Hr Hn) as (node & Hnode & Hc1 & Hc2).
  split; [|split].
  - exists node. auto.
  - unfold InvalidateBlock. rewrite Hs.
    apply invalidateLoop_childless with node; auto.
    now apply new_entry_children with block.
  - intros h. apply IsOptimistic_ext.
    destruct (decide (h = root)) as [->|Nh].
    + rewrite lookup_delete_eq, Hn. split; intros [x Hx]; discriminate.
    + rewrite lookup_delete_ne by congruence.
      rewrite (AddOptimisticCandidate_is_Some impl block h Hr). tauto.
Qed.

Lemma InvalidateBlock_misses_earlier_children_witness :
  (exists node,
      snd (AddOptimisticCandidate
             (snd (AddOptimisticCandidate NewOptimisticStore (sampleBlock 3 2)))
             (sampleBlock 2 1)) !! 2%N = Some node
      /\ (ParentRoot (sampleBlock 2 1) <> 2%N -> children node = [])
      /\ (ParentRoot (sampleBlock 2 1) = 2%N -> children node = [2%N]))
  /\ InvalidateBlock 2
       (snd (AddOptimisticCandidate
               (snd (AddOptimisticCandidate NewOptimisticStore (sampleBlock 3 2)))
               (sampleBlock 2 1)))
       (sampleBlock 2 1)
     = Some (delete 2%N
               (snd (AddOptimisticCandidate
                       (snd (AddOptimisticCandidate NewOptimisticStore (sampleBlock 3 2)))
                       (sampleBlock 2 1))))
  /\ (forall h,
        IsOptimistic
          (delete 2%N
             (snd (AddOptimisticCandidate
                     (snd (AddOptimisticCandidate NewOptimisticStore (sampleBlock 3 2)))
                     (sampleBlock 2 1)))) h
        = IsOptimistic
            (snd (AddOptimisticCandidate NewOptimisticStore (sampleBlock 3 2))) h).
Proof.
  apply (@InvalidateBlock_misses_earlier_children
           (snd (AddOptimisticCandidate NewOptimisticStore (sampleBlock 3 2)))
           (sampleBlock 2 1) (sampleBlock 2 1) 2%N 2);
    [reflexivity|reflexivity|reflexivity|lia].
Defined.

(** X18. [ValidateBlock] and [InvalidateBlock] look the block up under its
    StateRoot, [AddOptimisticCandidate] files it under the root [HashSSZ]
    returns.  For a block whose StateRoot differs from that root and is not
    in the store, both calls leave the store as it is after the import, and
    the block stays optimistic. *)
Theorem settling_looks_up_the_StateRoot (impl : gmap N opNode) block root fuel :
  HashSSZ block = (root, None) -> root <> zeroHash ->
  StateRoot block <> root -> impl !! StateRoot block = None ->
  ValidateBlock (S fuel) (snd (AddOptimisticCandidate impl block)) block
  = Some (snd (AddOptimisticCandidate impl block))
  /\ InvalidateBlock (S fuel) (snd (AddOptimisticCandidate impl block)) block
     = Some (snd (AddOptimisticCandidate impl block))
  /\ IsOptimistic (snd (AddOptimisticCandidate impl block)) root = true.
Proof.
  intros Hr Hz Hne Hs.
  assert (Hnone : snd (AddOptimisticCandidate impl block) !! StateRoot block = None).
  { destruct (snd (AddOptimisticCandidate impl block) !! StateRoot block) eqn:E;
      [|reflexivity].
    assert (Hi : is_Some (snd (AddOptimisticCandidate impl block) !! StateRoot block))
      by eauto.
    apply (AddOptimisticCandidate_is_Some impl block (StateRoot block) Hr) in Hi.
    destruct Hi as [[x Hx]|Hi]; [congruence|contradiction]. }
  split; [|split].
  - unfold ValidateBlock. simpl. now rewrite Hnone.
  - unfold InvalidateBlock. simpl. rewrite Hnone. now destruct fuel.
  - apply IsOptimistic_true. split; [exact Hz|].
    apply (AddOptimisticCandidate_is_Some impl block root Hr). now right.
Qed.

Lemma settling_looks_up_the_StateRoot_witness :
  ValidateBlock 1
    (snd (AddOptimisticCandidate sampleStore (mkBeaconBlock (5%N, None) 2%N 6%N)))
    (mkBeaconBlock (5%N, None) 2%N 6%N)
  = Some (snd (AddOptimisticCandidate sampleStore (mkBeaconBlock (5%N, None) 2%N 6%N)))
  /\ InvalidateBlock 1
       (snd (AddOptimisticCandidate sampleStore (mkBeaconBlock (5%N, None) 2%N 6%N)))
       (mkBeaconBlock (5%N, None) 2%N 6%N)
     = Some (snd (AddOptimisticCandidate sampleStore (mkBeaconBlock (5%N, None) 2%N 6%N)))
  /\ IsOptimistic
       (snd (AddOptimisticCandidate sampleStore (mkBeaconBlock (5%N, None) 2%N 6%N)))
       5%N = true.
Proof.
  apply (@settling_looks_up_the_StateRoot sampleStore
           (mkBeaconBlock (5%N, None) 2%N 6%N) 5%N 0);
    [reflexivity|discriminate|discriminate|reflexivity].
Defined.

(** X19. Importing a block whose root and whose parent are not in the
    store, and then validating or invalidating the block filed under that
    root, gives back the store as it was before the import. *)
Theorem import_then_settle_restores_the_store
    (impl : gmap N opNode) block settled root fuel :
  HashSSZ block = (root, None) -> impl !! root = None ->
  impl !! ParentRoot block = None ->
  StateRoot settled = root -> (2 <= fuel)%nat ->
  ValidateBlock fuel (snd (AddOptimisticCandidate impl block)) settled = Some impl
  /\ InvalidateBlock fuel (snd (AddOptimisticCandidate impl block)) settled = Some impl.
Proof.
  intros Hr Hn Hp Hs Hf.
  destruct (AddOptimisticCandidate_new_entry impl block Hr Hn) as (node & Hnode & Hc1 & Hc2).
  pose proof (@new_entry_children block root node Hc1 Hc2) as Hc.
  destruct (AddOptimisticCandidate_lookup impl block Hr Hn) as [_ Hl].
  assert (Hd : delete root (snd (AddOptimisticCandidate impl block)) = impl).
  { apply map_eq. intros h. destruct (decide (h = root)) as [->|Nh].
    - now rewrite lookup_delete_eq, Hn.
    - rewrite lookup_delete_ne by congruence. rewrite Hl.
      repeat case_decide; subst; try contradiction; try reflexivity.
      now rewrite Hp. }
  assert (Hpar : impl !! parent node = None).
  { rewrite Hl in Hnode. repeat case_decide; try contradiction;
      inversion Hnode; subst; simpl; congruence. }
  split.
  - unfold ValidateBlock. rewrite Hs. destruct fuel as [|[|fuel]]; [lia|lia|].
    simpl. rewrite Hnode, Hd. now rewrite Hpar.
  - unfold InvalidateBlock. rewrite Hs.
    rewrite (@invalidateLoop_childless _ root node fuel Hnode Hc Hf). now rewrite Hd.
Qed.

Lemma import_then_settle_restores_the_store_witness :
  ValidateBlock 2 (snd (AddOptimisticCandidate sampleStore (sampleBlock 7 6)))
    (sampleBlock 7 6) = Some sampleStore
  /\ InvalidateBlock 2 (snd (AddOptimisticCandidate sampleStore (sampleBlock 7 6)))
       (sampleBlock 7 6) = Some sampleStore.
Proof.
  apply (@import_then_settle_restores_the_store sampleStore
           (sampleBlock 7 6) (sampleBlock 7 6) 7%N 2);
    [reflexivity|reflexivity|reflexivity|reflexivity|lia].
Defined.

End OptimisticStoreFacts.
